(** * NHL standings: ranking, classification, projection, validation, acquisition

    A shallow embedding of the TypeScript sources
    (utils/calculations.ts, utils/playoffs.ts, utils/playoffCalculator.ts,
    utils/validation.ts, scripts/processStandings.ts, scripts/fetchData.ts,
    and the threshold check of app.ts), the properties the specification
    states about them, and further properties of the same code.

    Numbers.  Where the code inspects untrusted input (the validator, the
    fetcher, the cache) a [number] is a binary64 float, [JsNum], with the
    kernel's IEEE 754 operations.  In the typed pipeline a number is the
    exact rational ([Q]) that the double holds: comparisons are exact, and
    the arithmetic of [calculatePointPercentage] and [calculatePlayoffStats]
    is written without the rounding of binary64.  Second definitions of
    these two functions over binary64 floats are checked against the exact
    ones on every integer input within the validator's ranges
    ([binary64_agrees], [binary64_projection_agrees]); statements that depend
    on the exact arithmetic say so in their hypotheses. *)

From Stdlib Require Import String Bool Arith ZArith QArith Qround Qabs Qminmax List.
From Stdlib Require Import DecimalString Lia Lqa Permutation Sorted.
From Corelib Require PrimFloat FloatOps SpecFloat.
Import ListNotations.

Local Open Scope Q_scope.

(** ** ECMAScript helpers on finite numbers *)

(** [a < b] on finite numbers. *)
Definition Qlt_bool (a b : Q) : bool :=
  match a ?= b with Lt => true | _ => false end.

(** [a > b]. *)
Definition Qgt_bool (a b : Q) : bool := Qlt_bool b a.

(** [a >= b]. *)
Definition Qge_bool (a b : Q) : bool := Qle_bool b a.

(** [Math.round]: nearest integer, a tie going towards +Infinity. *)
Definition Math_round (x : Q) : Q := inject_Z (Qfloor (x + (1 # 2))).

(** [Math.max] of two finite numbers. *)
Definition Math_max (a b : Q) : Q := if Qlt_bool a b then b else a.

(** ** types/standings.ts *)

Record Team : Type := mkTeam {
  id : nat;
  name : string;
  abbreviation : string;
  wins : Q;
  losses : Q;
  otLosses : Q;
  points : Q;
  gamesPlayed : Q;
  pointPercentage : Q;
  regulationWins : Q;
  regulationPlusOtWins : Q;
  division : string;
  conference : string;
  isDivisionLeader : bool;
  isWildCard : bool;
  divisionRank : nat;
  conferenceRank : nat
}.

(** [enum TiebreakerResult { TEAM_A_WINS = -1, TIE = 0, TEAM_B_WINS = 1 }] *)
Inductive TiebreakerResult : Type := TEAM_A_WINS | TIE | TEAM_B_WINS.

(** The numeric value of an enum member, which is what [Array.prototype.sort]
    sees when the comparator returns it. *)
Definition TiebreakerResult_value (r : TiebreakerResult) : Z :=
  match r with
  | TEAM_A_WINS => (-1)%Z
  | TIE => 0%Z
  | TEAM_B_WINS => 1%Z
  end.

(** ** utils/calculations.ts *)

(** The arithmetic is exact here.  The doubles of the running program round
    after each operation; [calculatePointPercentage_f64] follows them, and
    [binary64_agrees] shows that on integer counts the two give the same
    three-decimal number. *)
Definition calculatePointPercentage (points gamesPlayed : Q) : Q :=
  if Qeq_bool gamesPlayed 0 then 0
  else
    let maxPossiblePoints := gamesPlayed * 2 in
    let percentage := points / maxPossiblePoints in
    Math_round (percentage * 1000) / 1000.

Definition applyTiebreaker (teamA teamB : Team) : TiebreakerResult :=
  if Qlt_bool (gamesPlayed teamA) (gamesPlayed teamB) then TEAM_A_WINS
  else if Qgt_bool (gamesPlayed teamA) (gamesPlayed teamB) then TEAM_B_WINS
  else if Qgt_bool (regulationWins teamA) (regulationWins teamB) then TEAM_A_WINS
  else if Qlt_bool (regulationWins teamA) (regulationWins teamB) then TEAM_B_WINS
  else TIE.

(** The comparator handed to [sort] inside [sortTeamsByStandings]. *)
Definition compareTeams (teamA teamB : Team) : Z :=
  if Qgt_bool (pointPercentage teamA) (pointPercentage teamB) then (-1)%Z
  else if Qlt_bool (pointPercentage teamA) (pointPercentage teamB) then 1%Z
  else TiebreakerResult_value (applyTiebreaker teamA teamB).

(** [Array.prototype.sort(compareFn)] is specified to be a stable sort.  It is
    modelled by a stable insertion sort: an element is placed in front of the
    first element it does not compare greater than, so an element never
    overtakes an earlier one it ties with.  For a consistent comparator every
    stable sort returns the same list (see [stable_sort_unique]). *)
Section ArraySort.
Context {A : Type} (compareFn : A -> A -> Z).

Fixpoint sort_insert (x : A) (sorted : list A) : list A :=
  match sorted with
  | [] => [x]
  | y :: rest =>
      if (compareFn x y <=? 0)%Z then x :: y :: rest
      else y :: sort_insert x rest
  end.

Definition Array_sort (items : list A) : list A :=
  fold_right sort_insert [] items.

End ArraySort.

(** [[...teams]] copies the array; lists are immutable, so the copy is the
    list itself. *)
Definition sortTeamsByStandings (teams : list Team) : list Team :=
  Array_sort compareTeams teams.

(** The ranking rule in the specification's words: [outranks a b] when [a]
    has the strictly higher point percentage, or the same percentage and
    fewer games played, or the same percentage and games and more regulation
    wins. *)
Definition outranks (a b : Team) : Prop :=
  pointPercentage b < pointPercentage a \/
  (pointPercentage a == pointPercentage b /\
   (gamesPlayed a < gamesPlayed b \/
    (gamesPlayed a == gamesPlayed b /\ regulationWins b < regulationWins a))).

(** Teams equal on all three ranking keys. *)
Definition tied (a b : Team) : Prop :=
  pointPercentage a == pointPercentage b /\
  gamesPlayed a == gamesPlayed b /\
  regulationWins a == regulationWins b.

Definition tiedb (a b : Team) : bool :=
  Qeq_bool (pointPercentage a) (pointPercentage b) &&
  Qeq_bool (gamesPlayed a) (gamesPlayed b) &&
  Qeq_bool (regulationWins a) (regulationWins b).

(** [a] is placed somewhere before [b] in [l]. *)
Definition placed_before {A : Type} (l : list A) (a b : A) : Prop :=
  exists l1 l2 l3, l = l1 ++ a :: l2 ++ b :: l3.

(** ** Object spread with overrides: [{ ...team, field: value }] *)

Definition set_pointPercentage (v : Q) (t : Team) : Team :=
  {| id := id t; name := name t; abbreviation := abbreviation t;
     wins := wins t; losses := losses t; otLosses := otLosses t;
     points := points t; gamesPlayed := gamesPlayed t;
     pointPercentage := v;
     regulationWins := regulationWins t;
     regulationPlusOtWins := regulationPlusOtWins t;
     division := division t; conference := conference t;
     isDivisionLeader := isDivisionLeader t; isWildCard := isWildCard t;
     divisionRank := divisionRank t; conferenceRank := conferenceRank t |}.

Definition set_division (leader : bool) (rank : nat) (t : Team) : Team :=
  {| id := id t; name := name t; abbreviation := abbreviation t;
     wins := wins t; losses := losses t; otLosses := otLosses t;
     points := points t; gamesPlayed := gamesPlayed t;
     pointPercentage := pointPercentage t;
     regulationWins := regulationWins t;
     regulationPlusOtWins := regulationPlusOtWins t;
     division := division t; conference := conference t;
     isDivisionLeader := leader; isWildCard := isWildCard t;
     divisionRank := rank; conferenceRank := conferenceRank t |}.

Definition set_isWildCard (v : bool) (t : Team) : Team :=
  {| id := id t; name := name t; abbreviation := abbreviation t;
     wins := wins t; losses := losses t; otLosses := otLosses t;
     points := points t; gamesPlayed := gamesPlayed t;
     pointPercentage := pointPercentage t;
     regulationWins := regulationWins t;
     regulationPlusOtWins := regulationPlusOtWins t;
     division := division t; conference := conference t;
     isDivisionLeader := isDivisionLeader t; isWildCard := v;
     divisionRank := divisionRank t; conferenceRank := conferenceRank t |}.

Definition set_conferenceRank (v : nat) (t : Team) : Team :=
  {| id := id t; name := name t; abbreviation := abbreviation t;
     wins := wins t; losses := losses t; otLosses := otLosses t;
     points := points t; gamesPlayed := gamesPlayed t;
     pointPercentage := pointPercentage t;
     regulationWins := regulationWins t;
     regulationPlusOtWins := regulationPlusOtWins t;
     division := division t; conference := conference t;
     isDivisionLeader := isDivisionLeader t; isWildCard := isWildCard t;
     divisionRank := divisionRank t; conferenceRank := v |}.

(** ** Arrays and insertion-ordered maps *)

(** [array.map((x, index) => ...)] and [array.forEach((x, index) => push ...)]. *)
Fixpoint mapi_from {A B : Type} (start : nat) (f : nat -> A -> B) (l : list A)
  : list B :=
  match l with
  | [] => []
  | x :: rest => f start x :: mapi_from (S start) f rest
  end.

Definition mapi {A B : Type} (f : nat -> A -> B) (l : list A) : list B :=
  mapi_from 0 f l.

(** A [Map<string, T[]>] (or an object used as one) in insertion order.
    [group_push] is the idiom
    [if (!m.has(k)) m.set(k, []); m.get(k).push(x)]. *)
Fixpoint group_push {A : Type} (groups : list (string * list A))
  (key : string) (x : A) : list (string * list A) :=
  match groups with
  | [] => [(key, [x])]
  | (k, members) :: rest =>
      if String.eqb k key then (k, members ++ [x]) :: rest
      else (k, members) :: group_push rest key x
  end.

Definition groupBy {A : Type} (key : A -> string) (l : list A)
  : list (string * list A) :=
  fold_left (fun groups x => group_push groups (key x) x) l [].

(** The members stored under [k] ([m.get(k)], or the empty array). *)
Definition group_members {A : Type} (k : string) (groups : list (string * list A))
  : list A :=
  match find (fun g => String.eqb (fst g) k) groups with
  | Some g => snd g
  | None => []
  end.

(** The idiom shared by the three classification passes: group by a key,
    treat each group, and push the treated groups in insertion order. *)
Definition per_group {A B : Type} (key : A -> string) (treat : list A -> list B)
  (l : list A) : list B :=
  flat_map (fun '(_, members) => treat members) (groupBy key l).

(** ** utils/playoffs.ts *)

Definition identifyDivisionLeaders (teams : list Team) : list Team :=
  let teamsByDivision := groupBy division teams in
  flat_map
    (fun '(_, divisionTeams) =>
       let sortedDivisionTeams := sortTeamsByStandings divisionTeams in
       mapi (fun index team => set_division (index <? 3)%nat (index + 1)%nat team)
            sortedDivisionTeams)
    teamsByDivision.

Definition identifyWildCards (teams : list Team) : list Team :=
  let teamsByConference := groupBy conference teams in
  flat_map
    (fun '(_, conferenceTeams) =>
       let nonDivisionLeaders :=
         filter (fun team => negb (isDivisionLeader team)) conferenceTeams in
       let sortedNonLeaders := sortTeamsByStandings nonDivisionLeaders in
       let wildCardTeams := firstn 2 sortedNonLeaders in
       let wildCardIds := map id wildCardTeams in
       map (fun team =>
              set_isWildCard (existsb (Nat.eqb (id team)) wildCardIds) team)
           conferenceTeams)
    teamsByConference.

(** The bodies of the per-division and per-conference loops, named. *)
Definition rankDivision (divisionTeams : list Team) : list Team :=
  mapi (fun index team => set_division (index <? 3)%nat (index + 1)%nat team)
       (sortTeamsByStandings divisionTeams).

Definition wildCardIdsOf (conferenceTeams : list Team) : list nat :=
  map id
    (firstn 2
       (sortTeamsByStandings
          (filter (fun team => negb (isDivisionLeader team)) conferenceTeams))).

Definition flagWildCards (conferenceTeams : list Team) : list Team :=
  map (fun team =>
         set_isWildCard
           (existsb (Nat.eqb (id team)) (wildCardIdsOf conferenceTeams)) team)
      conferenceTeams.

Definition rankConference (conferenceTeams : list Team) : list Team :=
  mapi (fun index team => set_conferenceRank (index + 1)%nat team)
       (sortTeamsByStandings conferenceTeams).

(** ** scripts/processStandings.ts *)

(** [interface NHLStandingEntry] and [interface NHLApiResponse] of
    types/nhl.ts, whose declarations are the ones at src/app.ts:905-938.
    The records keep the fields this program reads: [teamName] and
    [teamAbbrev] (objects with a [default] string), the seven counts, and
    the division and conference names.  The declared fields that no function
    reads ([teamCommonName], [teamLogo], [divisionAbbrev],
    [conferenceAbbrev], [placeName], [wildCardIndicator]) are left out. *)
Module NHL.

Record LocalizedName : Type := { default : string }.

Record StandingEntry : Type := {
  teamName : LocalizedName;
  teamAbbrev : LocalizedName;
  wins : Q;
  losses : Q;
  otLosses : Q;
  points : Q;
  gamesPlayed : Q;
  regulationWins : Q;
  regulationPlusOtWins : Q;
  divisionName : string;
  conferenceName : string
}.

Record ApiResponse : Type := { standings : list StandingEntry }.

End NHL.

Record ConferenceStandings : Type := {
  divisions : list (string * list Team);
  wildCards : list Team
}.

Record ProcessedStandings : Type := {
  eastern : ConferenceStandings;
  western : ConferenceStandings;
  lastUpdated : string;
  isStaleData : option bool;
  cacheTimestamp : option string
}.

Definition transformToTeams (standings : list NHL.StandingEntry) : list Team :=
  mapi (fun index entry =>
          {| id := index + 1;
             name := NHL.default (NHL.teamName entry);
             abbreviation := NHL.default (NHL.teamAbbrev entry);
             wins := NHL.wins entry;
             losses := NHL.losses entry;
             otLosses := NHL.otLosses entry;
             points := NHL.points entry;
             gamesPlayed := NHL.gamesPlayed entry;
             pointPercentage := 0;
             regulationWins := NHL.regulationWins entry;
             regulationPlusOtWins := NHL.regulationPlusOtWins entry;
             division := NHL.divisionName entry;
             conference := NHL.conferenceName entry;
             isDivisionLeader := false;
             isWildCard := false;
             divisionRank := 0;
             conferenceRank := 0 |})
       standings.

Definition calculateConferenceRanks (teams : list Team) : list Team :=
  let teamsByConference := groupBy conference teams in
  flat_map
    (fun '(_, conferenceTeams) =>
       let sortedTeams := sortTeamsByStandings conferenceTeams in
       mapi (fun index team => set_conferenceRank (index + 1)%nat team) sortedTeams)
    teamsByConference.

(** The object [divisions] is keyed by division name; for the names the
    validator admits, property lookup and [for ... in] behave as an
    insertion-ordered map. *)
Definition organizeConference (teams : list Team) (conferenceName : string)
  : ConferenceStandings :=
  let conferenceTeams :=
    filter (fun team => String.eqb (conference team) conferenceName) teams in
  let '(divisions0, wildCardStandings) :=
    fold_left
      (fun '(divs, wc) team =>
         (group_push divs (division team) team,
          if negb (isDivisionLeader team) then wc ++ [team] else wc))
      conferenceTeams ([], []) in
  let divisions1 :=
    map (fun '(divisionName, members) =>
           (divisionName, sortTeamsByStandings members)) divisions0 in
  let sortedWildCards := sortTeamsByStandings wildCardStandings in
  {| divisions := divisions1; wildCards := sortedWildCards |}.

(** The teams after the three classification passes of [processStandings]. *)
Definition classifyTeams (teams : list Team) : list Team :=
  calculateConferenceRanks (identifyWildCards (identifyDivisionLeaders teams)).

(** [now] is the value of [new Date().toISOString()]. *)
Definition processStandings (now : string) (rawData : NHL.ApiResponse)
  : ProcessedStandings :=
  let teams := transformToTeams (NHL.standings rawData) in
  let teams :=
    map (fun team =>
           set_pointPercentage
             (calculatePointPercentage (points team) (gamesPlayed team)) team)
        teams in
  let teams := classifyTeams teams in
  let eastern := organizeConference teams "Eastern" in
  let western := organizeConference teams "Western" in
  {| eastern := eastern; western := western; lastUpdated := now;
     isStaleData := None; cacheTimestamp := None |}.

(** ** utils/playoffCalculator.ts *)

Definition TOTAL_SEASON_GAMES : Q := 82.
Definition POINTS_PER_GAME : Q := 2.

(** [type PlayoffStatus = 'clinched' | 'eliminated' | 'competing']
    (src/app.ts:948) and [interface PlayoffCalculations]
    (src/app.ts:1033-1040), field for field. *)
Inductive PlayoffStatus : Type := clinched | eliminated | competing.

Record PlayoffCalculations : Type := mkPlayoffCalculations {
  remainingGames : Q;
  remainingPoints : Q;
  maxPossiblePoints : Q;
  pointsGap : Q;
  requiredPointsPercentage : option Q;  (* [number | null] *)
  playoffStatus : PlayoffStatus
}.

(** Exact arithmetic again; [calculatePlayoffStats_f64] is the same decision
    on doubles, and [binary64_projection_agrees] compares the two on integer
    points, games and thresholds. *)
Definition calculatePlayoffStats (team : Team) (playoffThreshold : Q)
  : PlayoffCalculations :=
  let remainingGames := Math_max 0 (TOTAL_SEASON_GAMES - gamesPlayed team) in
  let remainingPoints := remainingGames * POINTS_PER_GAME in
  let maxPossiblePoints := points team + remainingPoints in
  let pointsGap := playoffThreshold - points team in
  (* [let playoffStatus; let requiredPointsPercentage = null;] then the
     if / else-if / else chain assigning them *)
  let decision : PlayoffStatus * option Q :=
    if Qge_bool (points team) playoffThreshold then (clinched, None)
    else if Qlt_bool maxPossiblePoints playoffThreshold then (eliminated, None)
    else (competing,
          if Qgt_bool remainingPoints 0
          then Some ((pointsGap / remainingPoints) * 100)
          else None) in
  {| remainingGames := remainingGames;
     remainingPoints := remainingPoints;
     maxPossiblePoints := maxPossiblePoints;
     pointsGap := pointsGap;
     requiredPointsPercentage := snd decision;
     playoffStatus := fst decision |}.

(** The fixture [createTestTeam] of tests/playoffCalculator.test.ts, with the
    two fields the projector reads taken as overrides. *)
Definition createTestTeam (pts gp : Q) : Team :=
  {| id := 1; name := "Test Team"; abbreviation := "TST";
     wins := 20; losses := 10; otLosses := 5;
     points := pts; gamesPlayed := gp;
     pointPercentage := 643 # 1000;
     regulationWins := 15; regulationPlusOtWins := 18;
     division := "Atlantic"; conference := "Eastern";
     isDivisionLeader := false; isWildCard := false;
     divisionRank := 0; conferenceRank := 0 |}.

(** ** Untyped JavaScript values ([any]) *)

(** A [number] is an IEEE 754 binary64 value.  The kernel's primitive floats
    are binary64, and [PrimFloat.add], [mul], [eqb] and [ltb] are what [+],
    [*], [===] and [<] compute on two numbers. *)
Definition JsNum : Type := PrimFloat.float.

(** The double an integer literal of the source denotes. *)
Definition f64_of_Z (z : Z) : JsNum :=
  FloatOps.SF2Prim
    (SpecFloat.binary_normalize FloatOps.prec FloatOps.emax z 0 false).

(** The values a parsed JSON document (or [undefined]) can hold. *)
#[local] Set Warnings "-register-all".
Inductive JsValue : Type :=
| JsUndefined
| JsNull
| JsBool (b : bool)
| JsNumber (n : JsNum)
| JsString (s : string)
| JsArray (items : list JsValue)
| JsObject (props : list (string * JsValue)).

(** A call either returns or throws; [message] is the [message] of the
    error thrown. *)
Inductive Completion (A : Type) : Type :=
| Return (v : A)
| Throws (message : string).
Arguments Return {A} v.
Arguments Throws {A} message.

(** Sequencing: the first throw ends the evaluation. *)
Definition bind {A B : Type} (c : Completion A) (k : A -> Completion B)
  : Completion B :=
  match c with
  | Return v => k v
  | Throws m => Throws m
  end.

Notation "x <- c ;; k" := (bind c (fun x => k))
  (at level 61, c at next level, right associativity).

(** [typeof v] *)
Definition typeof (v : JsValue) : string :=
  match v with
  | JsUndefined => "undefined"
  | JsNull => "object"
  | JsBool _ => "boolean"
  | JsNumber _ => "number"
  | JsString _ => "string"
  | JsArray _ => "object"
  | JsObject _ => "object"
  end.

(** ToBoolean, as [!v] and [v && ...] apply it: a number is falsy when it is
    +0, -0 or NaN. *)
Definition truthy (v : JsValue) : bool :=
  match v with
  | JsUndefined | JsNull => false
  | JsBool b => b
  | JsNumber n => negb (PrimFloat.is_zero n || PrimFloat.is_nan n)
  | JsString s => negb (String.eqb s "")
  | JsArray _ | JsObject _ => true
  end.

(** [v === undefined || v === null] *)
Definition nullish (v : JsValue) : bool :=
  match v with
  | JsUndefined | JsNull => true
  | _ => false
  end.

(** Neither an object nor an array. *)
Definition primitive (v : JsValue) : bool :=
  match v with
  | JsArray _ | JsObject _ => false
  | _ => true
  end.

Fixpoint lookup_prop (props : list (string * JsValue)) (name : string) : JsValue :=
  match props with
  | [] => JsUndefined
  | (k, v) :: rest => if String.eqb k name then v else lookup_prop rest name
  end.

(** [v[name]] for a [v] that is neither [undefined] nor [null] (on those the
    read throws a TypeError, which the callers below handle before reading)
    and for the property names this program reads, none of which a primitive,
    an array or [Object.prototype] provides. *)
Definition member (v : JsValue) (name : string) : JsValue :=
  match v with
  | JsObject props => lookup_prop props name
  | _ => JsUndefined
  end.

(** [Number.isFinite(v)] *)
Definition Number_isFinite (v : JsValue) : bool :=
  match v with
  | JsNumber n => PrimFloat.is_finite n
  | _ => false
  end.

(** The number a value whose [typeof] is ["number"] holds. *)
Definition number_of (v : JsValue) : JsNum :=
  match v with
  | JsNumber n => n
  | _ => PrimFloat.nan
  end.

(** [a === b] where at least one side is a primitive.  (Two objects compare
    by identity; the validator only compares against a freshly computed
    primitive.)  On numbers it is IEEE equality: NaN differs from itself and
    the two zeros are equal. *)
Definition strict_eq (a b : JsValue) : bool :=
  match a, b with
  | JsUndefined, JsUndefined | JsNull, JsNull => true
  | JsBool x, JsBool y => Bool.eqb x y
  | JsNumber x, JsNumber y => PrimFloat.eqb x y
  | JsString x, JsString y => String.eqb x y
  | _, _ => false
  end.

(** [list.includes(v)] for a list of string literals. *)
Definition includes (list : list string) (v : JsValue) : bool :=
  match v with
  | JsString s => existsb (String.eqb s) list
  | _ => false
  end.

(** The preferred type ECMAScript's ToPrimitive is called with. *)
Inductive Hint : Type := HintDefault | HintNumber | HintString.

(** What the engine does where this development does not spell ECMAScript
    out.  An operator first turns an operand that is an object or an array
    into a primitive, through the operand's [valueOf] and [toString]; that
    ends in a primitive or in a TypeError (for instance on
    [{ toString: null }], whose own [toString] hides the inherited one).
    Primitives never throw: on them [+] concatenates or adds, giving a
    string or a number, and [*] and [>] convert with ToNumber.  The answers
    are parameters, and every theorem holds whatever they are.  [read_error v name] is the message of the
    TypeError thrown by reading property [name] of [v], for [v] null or
    undefined. *)
Record Coercions : Type := {
  to_primitive : Hint -> JsValue -> Completion JsValue;
  add_mixed : JsValue -> JsValue -> JsNum + string;
  to_number : JsValue -> JsNum;
  gt_mixed : JsValue -> JsValue -> bool;
  read_error : JsValue -> string -> string
}.

Section Operators.
Variable coerce : Coercions.

Definition ToPrimitive (hint : Hint) (v : JsValue) : Completion JsValue :=
  if primitive v then Return v else to_primitive coerce hint v.

(** [a + b]: both operands are made primitive, left first; two numbers are
    added in binary64. *)
Definition js_add (a b : JsValue) : Completion JsValue :=
  lprim <- ToPrimitive HintDefault a ;;
  rprim <- ToPrimitive HintDefault b ;;
  Return (match lprim, rprim with
          | JsNumber x, JsNumber y => JsNumber (PrimFloat.add x y)
          | _, _ =>
              match add_mixed coerce lprim rprim with
              | inl sum => JsNumber sum
              | inr text => JsString text
              end
          end).

Definition ToNumber (a : JsValue) : Completion JsNum :=
  prim <- ToPrimitive HintNumber a ;;
  Return (match prim with
          | JsNumber x => x
          | _ => to_number coerce prim
          end).

(** [a * b] *)
Definition js_mul (a b : JsValue) : Completion JsValue :=
  x <- ToNumber a ;;
  y <- ToNumber b ;;
  Return (JsNumber (PrimFloat.mul x y)).

(** [a > b]: both operands are made primitive, left first; on two numbers
    it is [b < a]. *)
Definition js_gt (a b : JsValue) : Completion bool :=
  pa <- ToPrimitive HintNumber a ;;
  pb <- ToPrimitive HintNumber b ;;
  Return (match pa, pb with
          | JsNumber x, JsNumber y => PrimFloat.ltb y x
          | _, _ => gt_mixed coerce pa pb
          end).

End Operators.

(** ** utils/validation.ts *)

(** A template literal: its text and the primitives whose ToString is
    substituted into it. *)
Inductive TemplatePart : Type :=
| Lit (text : string)
| Subst (v : JsValue).

Record ValidationError : Type := {
  field : string;
  message : list TemplatePart;
  value : option JsValue
}.

Record ValidationResult : Type := {
  isValid : bool;
  errors : list ValidationError
}.

Definition EXPECTED_TEAM_COUNT : nat := 32.
Definition VALID_DIVISIONS : list string :=
  ["Atlantic"; "Metropolitan"; "Central"; "Pacific"]%string.
Definition VALID_CONFERENCES : list string := ["Eastern"; "Western"]%string.

(** Decimal rendering of an array index or a count in a template literal. *)
Definition string_of_nat (n : nat) : string :=
  NilEmpty.string_of_uint (Nat.to_uint n).

Definition js_nat (n : nat) : JsValue := JsNumber (f64_of_Z (Z.of_nat n)).

Definition requiredFields : list string :=
  ["teamName"; "teamAbbrev"; "wins"; "losses"; "otLosses"; "points";
   "gamesPlayed"; "regulationWins"; "divisionName"; "conferenceName"]%string.

(** [{ field, min, max }], the bounds being integer literals. *)
Definition numericValidations : list (string * Z * Z) :=
  [("wins"%string, 0, 82); ("losses"%string, 0, 82); ("otLosses"%string, 0, 82);
   ("points"%string, 0, 164); ("gamesPlayed"%string, 0, 82);
   ("regulationWins"%string, 0, 82)]%Z.

Definition join_comma (l : list string) : string := String.concat ", " l.

Section Validation.
Variable coerce : Coercions.

(** [${v}] in a template literal: ToString of [v], which first makes an
    object or an array primitive and so can throw. *)
Definition substitute (v : JsValue) : Completion TemplatePart :=
  prim <- ToPrimitive coerce HintString v ;;
  Return (Subst prim).

Definition checkNumeric (prefix : string) (team : JsValue)
  (validation : string * Z * Z) : list ValidationError :=
  let '(fieldName, min, max) := validation in
  let value := member team fieldName in
  if negb (String.eqb (typeof value) "number") then
    [ {| field := (prefix ++ "." ++ fieldName)%string;
         message := [Lit "Field "; Lit fieldName; Lit " must be a number"];
         value := Some (JsString (typeof value)) |} ]
  else if negb (Number_isFinite value) then
    [ {| field := (prefix ++ "." ++ fieldName)%string;
         message := [Lit "Field "; Lit fieldName; Lit " must be a finite number"];
         value := Some value |} ]
  else if PrimFloat.ltb (number_of value) (f64_of_Z min)
          || PrimFloat.ltb (f64_of_Z max) (number_of value) then
    [ {| field := (prefix ++ "." ++ fieldName)%string;
         message := [Lit "Field "; Lit fieldName; Lit " must be between ";
                     Subst (JsNumber (f64_of_Z min)); Lit " and ";
                     Subst (JsNumber (f64_of_Z max))];
         value := Some value |} ]
  else [].

(** The check of a nested [{ default: string }] object, shared by [teamName]
    and [teamAbbrev]. *)
Definition checkDefault (prefix fieldName text : string) (team : JsValue)
  : list ValidationError :=
  let nested := member team fieldName in
  if truthy nested && String.eqb (typeof nested) "object" then
    if negb (truthy (member nested "default"))
       || negb (String.eqb (typeof (member nested "default")) "string")
    then [ {| field := (prefix ++ "." ++ fieldName ++ ".default")%string;
              message := [Lit text]; value := None |} ]
    else []
  else [].

(** [requiredFields.forEach(field => ...)] *)
Definition checkRequired (prefix : string) (team : JsValue) : list ValidationError :=
  flat_map
    (fun fieldName =>
       if nullish (member team fieldName)
       then [ {| field := (prefix ++ "." ++ fieldName)%string;
                 message := [Lit "Missing required field: "; Lit fieldName];
                 value := None |} ]
       else [])
    requiredFields.

(** The statements of the function from the games check on, each of which
    can throw before the errors gathered so far are returned. *)
Definition checkGames (prefix : string) (team : JsValue)
  : Completion (list ValidationError) :=
  partial <- js_add coerce (member team "wins") (member team "losses") ;;
  totalGames <- js_add coerce partial (member team "otLosses") ;;
  if negb (strict_eq (member team "gamesPlayed") totalGames)
  then
    played <- substitute (member team "gamesPlayed") ;;
    total <- substitute totalGames ;;
    Return [ {| field := (prefix ++ ".gamesPlayed")%string;
                message := [Lit "Games played ("; played;
                            Lit ") does not match wins + losses + otLosses (";
                            total; Lit ")"];
                value := Some (member team "gamesPlayed") |} ]
  else Return [].

Definition checkPoints (prefix : string) (team : JsValue)
  : Completion (list ValidationError) :=
  doubled <- js_mul coerce (member team "wins") (JsNumber (f64_of_Z 2)) ;;
  expectedPoints <- js_add coerce doubled (member team "otLosses") ;;
  if negb (strict_eq (member team "points") expectedPoints)
  then
    actual <- substitute (member team "points") ;;
    expected <- substitute expectedPoints ;;
    Return [ {| field := (prefix ++ ".points")%string;
                message := [Lit "Points ("; actual;
                            Lit ") does not match expected calculation (";
                            expected; Lit ")"];
                value := Some (member team "points") |} ]
  else Return [].

Definition checkRegulation (prefix : string) (team : JsValue)
  : Completion (list ValidationError) :=
  exceeds <- js_gt coerce (member team "regulationWins") (member team "wins") ;;
  if (exceeds : bool)
  then
    regulation <- substitute (member team "regulationWins") ;;
    total <- substitute (member team "wins") ;;
    Return [ {| field := (prefix ++ ".regulationWins")%string;
                message := [Lit "Regulation wins ("; regulation;
                            Lit ") cannot exceed total wins (";
                            total; Lit ")"];
                value := Some (member team "regulationWins") |} ]
  else Return [].

(** The division and the conference checks. *)
Definition checkListed (prefix fieldName what : string) (valid : list string)
  (team : JsValue) : Completion (list ValidationError) :=
  if negb (includes valid (member team fieldName))
  then
    given <- substitute (member team fieldName) ;;
    Return [ {| field := (prefix ++ "." ++ fieldName)%string;
                message := [Lit ("Invalid " ++ what ++ " name: "); given;
                            Lit ". Must be one of: ";
                            Lit (join_comma valid)];
                value := Some (member team fieldName) |} ]
  else Return [].

Definition validateTeamEntry (team : JsValue) (index : nat)
  : Completion (list ValidationError) :=
  let prefix := ("standings[" ++ string_of_nat index ++ "]")%string in
  if nullish team then
    (* [team[field]] on [null] or [undefined], for the first required field *)
    Throws (read_error coerce team "teamName")
  else
    let missing := checkRequired prefix team in
    if (0 <? length missing)%nat then Return missing
    else
      let numeric := flat_map (checkNumeric prefix team) numericValidations in
      games <- checkGames prefix team ;;
      pointsCheck <- checkPoints prefix team ;;
      regulation <- checkRegulation prefix team ;;
      divisionCheck <-
        checkListed prefix "divisionName" "division" VALID_DIVISIONS team ;;
      conferenceCheck <-
        checkListed prefix "conferenceName" "conference" VALID_CONFERENCES team ;;
      let nameCheck :=
        checkDefault prefix "teamName"
          "Team name must have a default string property" team in
      let abbrevCheck :=
        checkDefault prefix "teamAbbrev"
          "Team abbreviation must have a default string property" team in
      Return (numeric ++ games ++ pointsCheck ++ regulation ++ divisionCheck
              ++ conferenceCheck ++ nameCheck ++ abbrevCheck).

(** [data.standings.forEach((team, index) => errors.push(...validateTeamEntry(team, index)))] *)
Fixpoint validateEntries (index : nat) (entries : list JsValue)
  : Completion (list ValidationError) :=
  match entries with
  | [] => Return []
  | team :: rest =>
      match validateTeamEntry team index with
      | Throws m => Throws m
      | Return teamErrors =>
          match validateEntries (S index) rest with
          | Throws m => Throws m
          | Return more => Return (teamErrors ++ more)
          end
      end
  end.

Definition validateNHLApiResponse (data : JsValue) : Completion ValidationResult :=
  if negb (truthy data) then
    Return {| isValid := false;
              errors := [ {| field := "data";
                             message := [Lit "NHL API response is null or undefined"];
                             value := None |} ] |}
  else if negb (truthy (member data "standings")) then
    Return {| isValid := false;
              errors := [ {| field := "standings";
                             message := [Lit "Missing standings array in API response"];
                             value := None |} ] |}
  else
    match member data "standings" with
    | JsArray entries =>
        let teamCount := length entries in
        let countErrors :=
          if negb (teamCount =? EXPECTED_TEAM_COUNT)%nat
          then [ {| field := "standings.length";
                    message := [Lit "Expected "; Subst (js_nat EXPECTED_TEAM_COUNT);
                                Lit " teams, found "; Subst (js_nat teamCount)];
                    value := Some (js_nat teamCount) |} ]
          else [] in
        match validateEntries 0 entries with
        | Throws m => Throws m
        | Return teamErrors =>
            let errors := countErrors ++ teamErrors in
            Return {| isValid := (length errors =? 0)%nat; errors := errors |}
        end
    | other =>
        Return {| isValid := false;
                  errors := [ {| field := "standings";
                                 message := [Lit "Standings is not an array"];
                                 value := Some (JsString (typeof other)) |} ] |}
    end.

End Validation.

(** The narrower checks take a typed response. *)

(** [counts[k] = (counts[k] || 0) + 1] *)
Fixpoint count_push (counts : list (string * nat)) (k : string)
  : list (string * nat) :=
  match counts with
  | [] => [(k, 1%nat)]
  | (k', n) :: rest =>
      if String.eqb k' k then (k', S n) :: rest else (k', n) :: count_push rest k
  end.

(** [counts[k] || 0] *)
Fixpoint count_of (counts : list (string * nat)) (k : string) : nat :=
  match counts with
  | [] => 0%nat
  | (k', n) :: rest => if String.eqb k' k then n else count_of rest k
  end.

Definition validateTeamCount (data : NHL.ApiResponse) : ValidationResult :=
  let teamCount := length (NHL.standings data) in
  let errors :=
    if negb (teamCount =? EXPECTED_TEAM_COUNT)%nat
    then [ {| field := "standings.length";
              message := [Lit "Expected "; Subst (js_nat EXPECTED_TEAM_COUNT);
                          Lit " teams, found "; Subst (js_nat teamCount)];
              value := Some (js_nat teamCount) |} ]
    else [] in
  {| isValid := (length errors =? 0)%nat; errors := errors |}.

Definition validateDivisionDistribution (data : NHL.ApiResponse) : ValidationResult :=
  let divisionCounts :=
    fold_left (fun counts team => count_push counts (NHL.divisionName team))
              (NHL.standings data) [] in
  let errors :=
    flat_map
      (fun division =>
         let count := count_of divisionCounts division in
         if negb (count =? 8)%nat
         then [ {| field := ("division." ++ division)%string;
                   message := [Lit "Expected 8 teams in "; Lit division;
                               Lit " division, found "; Subst (js_nat count)];
                   value := Some (js_nat count) |} ]
         else [])
      VALID_DIVISIONS in
  {| isValid := (length errors =? 0)%nat; errors := errors |}.

Definition validateConferenceDistribution (data : NHL.ApiResponse) : ValidationResult :=
  let conferenceCounts :=
    fold_left (fun counts team => count_push counts (NHL.conferenceName team))
              (NHL.standings data) [] in
  let errors :=
    flat_map
      (fun conference =>
         let count := count_of conferenceCounts conference in
         if negb (count =? 16)%nat
         then [ {| field := ("conference." ++ conference)%string;
                   message := [Lit "Expected 16 teams in "; Lit conference;
                               Lit " conference, found "; Subst (js_nat count)];
                   value := Some (js_nat count) |} ]
         else [])
      VALID_CONFERENCES in
  {| isValid := (length errors =? 0)%nat; errors := errors |}.

(** The double that holds the rational [q]: a typed entry carries the exact
    values of its doubles, and a dyadic rational within the binary64 range is
    converted without rounding.  (For a rational no double holds, which no
    run-time entry carries, this is the nearest double.) *)
Definition f64_of_Q (q : Q) : JsNum :=
  let e := Z.log2 (Zpos (Qden q)) in
  if (Zpos (Qden q) =? 2 ^ e)%Z
  then FloatOps.SF2Prim
         (SpecFloat.binary_normalize FloatOps.prec FloatOps.emax (Qnum q) (- e) false)
  else PrimFloat.div (f64_of_Z (Qnum q)) (f64_of_Z (Zpos (Qden q))).

(** The JSON value a typed entry is at run time. *)
Definition js_of_entry (e : NHL.StandingEntry) : JsValue :=
  JsObject
    [("teamAbbrev", JsObject [("default", JsString (NHL.default (NHL.teamAbbrev e)))]);
     ("teamName", JsObject [("default", JsString (NHL.default (NHL.teamName e)))]);
     ("wins", JsNumber (f64_of_Q (NHL.wins e)));
     ("losses", JsNumber (f64_of_Q (NHL.losses e)));
     ("otLosses", JsNumber (f64_of_Q (NHL.otLosses e)));
     ("points", JsNumber (f64_of_Q (NHL.points e)));
     ("gamesPlayed", JsNumber (f64_of_Q (NHL.gamesPlayed e)));
     ("regulationWins", JsNumber (f64_of_Q (NHL.regulationWins e)));
     ("regulationPlusOtWins", JsNumber (f64_of_Q (NHL.regulationPlusOtWins e)));
     ("divisionName", JsString (NHL.divisionName e));
     ("conferenceName", JsString (NHL.conferenceName e))]%string.

Definition js_of_response (data : NHL.ApiResponse) : JsValue :=
  JsObject [("standings"%string, JsArray (map js_of_entry (NHL.standings data)))].

(** An engine for evaluating examples whose operands are numbers; which one
    is immaterial there. *)
Definition no_coercion : Coercions :=
  {| to_primitive := fun _ _ => Return (JsString "[object Object]");
     add_mixed := fun _ _ => inl PrimFloat.nan;
     to_number := fun _ => PrimFloat.nan;
     gt_mixed := fun _ _ => false;
     read_error := fun _ name =>
       ("Cannot read properties of null (reading '" ++ name ++ "')")%string |}.

(** An engine that, like the real one, cannot make a primitive of an object
    whose own [toString] and [valueOf] are not functions. *)
Definition has_own (name : string) (v : JsValue) : bool :=
  match v with
  | JsObject props => existsb (fun kv => String.eqb (fst kv) name) props
  | _ => false
  end.

Definition strict_coercion : Coercions :=
  {| to_primitive := fun _ v =>
       if has_own "toString" v
       then Throws "Cannot convert object to primitive value"
       else Return (JsString "[object Object]");
     add_mixed := fun _ _ => inl PrimFloat.nan;
     to_number := fun _ => PrimFloat.nan;
     gt_mixed := fun _ _ => false;
     read_error := fun _ name =>
       ("Cannot read properties of null (reading '" ++ name ++ "')")%string |}.

(** ** scripts/fetchData.ts *)

(** The environment the fetcher runs in.  [fetch], the file system and the
    clock are outside the program; what they answer is a parameter of the
    model, what the program does to them is recorded. *)

(** What [response.json()] gives. *)
Inductive Body : Type :=
| BodyJson (data : JsValue)
| BodyRejects (message : string).

Record Response : Type := { ok : bool; status : nat; body : Body }.

(** What [await fetch(NHL_API_URL)] gives. *)
Inductive FetchOutcome : Type :=
| FetchRejects (message : string)
| FetchResolves (response : Response).

(** The text of a file, as far as [JSON.parse] can tell. *)
Inductive FileContent : Type :=
| JsonText (v : JsValue)      (* the serialisation of [v], [JSON.stringify(v, null, 2)] *)
| PartialText (v : JsValue)   (* a strict prefix of it, which does not parse *)
| OtherText (text : string).  (* some other text that does not parse *)

(** [JSON.parse(JSON.stringify(v))]: what is read back from the text written
    for [v].  A number that is not finite is written as [null] and the zero
    [-0] as [0]; a property whose value is [undefined] is not written, and an
    [undefined] array element is written as [null].  Everything else is read
    back as it was. *)
Fixpoint JSON_roundtrip (v : JsValue) : JsValue :=
  match v with
  | JsNumber n =>
      if PrimFloat.is_finite n
      then JsNumber (if PrimFloat.is_zero n then PrimFloat.zero else n)
      else JsNull
  | JsArray items =>
      JsArray (map (fun item =>
                      match item with
                      | JsUndefined => JsNull
                      | _ => JSON_roundtrip item
                      end) items)
  | JsObject props =>
      JsObject
        ((fix properties (props : list (string * JsValue)) :=
            match props with
            | [] => []
            | (k, JsUndefined) :: rest => properties rest
            | (k, x) :: rest => (k, JSON_roundtrip x) :: properties rest
            end) props)
  | _ => v
  end.

Inductive CacheFile : Type :=
| Absent
| Unreadable (message : string)   (* exists, [readFileSync] throws *)
| Present (content : FileContent).

(** How a [writeFileSync(path, text)] ends.  Node opens the file with flag
    'w', which creates or truncates it, then writes the text: a failure at
    the open leaves the file as it was, a failure after it leaves a
    truncated file. *)
Inductive WriteOutcome : Type :=
| WriteCompletes
| WriteFailsAtOpen (message : string)
| WriteFailsMidway (message : string).

Inductive FsOp : Type :=
| ExistsSync (path : string)
| MkdirSync (path : string)
| ReadFileSync (path : string)
| WriteFileSync (path : string).

Record World : Type := mkWorld {
  network : nat -> FetchOutcome;   (* the outcome of the n-th call of [fetch] *)
  cacheDirExists : bool;
  cacheFile : CacheFile;
  mkdirFails : bool;
  writeOutcome : WriteOutcome;
  clock : string;                  (* [new Date().toISOString()] *)
  fsLog : list FsOp;               (* file-system calls made, oldest first *)
  sleeps : list nat                (* delays waited, oldest first *)
}.

Definition log_op (op : FsOp) (w : World) : World :=
  mkWorld (network w) (cacheDirExists w) (cacheFile w) (mkdirFails w)
          (writeOutcome w) (clock w) (fsLog w ++ [op]) (sleeps w).

Definition set_cacheDirExists (w : World) : World :=
  mkWorld (network w) true (cacheFile w) (mkdirFails w)
          (writeOutcome w) (clock w) (fsLog w) (sleeps w).

Definition set_cacheFile (f : CacheFile) (w : World) : World :=
  mkWorld (network w) (cacheDirExists w) f (mkdirFails w)
          (writeOutcome w) (clock w) (fsLog w) (sleeps w).

Definition sleep (ms : nat) (w : World) : World :=
  mkWorld (network w) (cacheDirExists w) (cacheFile w) (mkdirFails w)
          (writeOutcome w) (clock w) (fsLog w) (sleeps w ++ [ms]).

Definition CACHE_DIR : string := ".cache".
Definition CACHE_FILE : string := ".cache/nhl-standings.json".
Definition MAX_RETRIES : nat := 3.
Definition INITIAL_RETRY_DELAY : nat := 1000.

(** [interface FetchResult]; its field names live in a module of their own
    because [ProcessedStandings] has a [cacheTimestamp] too. *)
Module Fetched.

Record FetchResult : Type := {
  data : JsValue;
  isStale : bool;
  cacheTimestamp : JsValue   (* [JsUndefined] when the property is absent *)
}.

End Fetched.

Abbreviation FetchResult := Fetched.FetchResult.

(** The entry [{ data, timestamp }] written to the cache. *)
Definition cacheEntry (data : JsValue) (timestamp : string) : JsValue :=
  JsObject [("data"%string, data); ("timestamp"%string, JsString timestamp)].

(** [cacheResponse]: the whole body is inside [try], and the [catch] only
    logs, so the call always returns. *)
Definition cacheResponse (data : JsValue) (w : World) : World :=
  let w := log_op (ExistsSync CACHE_DIR) w in
  let attemptWrite (w : World) : World :=
    let cacheData := cacheEntry data (clock w) in
    let w := log_op (WriteFileSync CACHE_FILE) w in
    match writeOutcome w with
    | WriteCompletes => set_cacheFile (Present (JsonText cacheData)) w
    | WriteFailsAtOpen _ => w
    | WriteFailsMidway _ => set_cacheFile (Present (PartialText cacheData)) w
    end in
  if negb (cacheDirExists w) then
    let w := log_op (MkdirSync CACHE_DIR) w in
    if mkdirFails w then w
    else attemptWrite (set_cacheDirExists w)
  else attemptWrite w.

Section Fetching.
Variable coerce : Coercions.

Definition loadCachedData (w : World) : Completion FetchResult * World :=
  let w := log_op (ExistsSync CACHE_FILE) w in
  match cacheFile w with
  | Absent => (Throws "No cached data available", w)
  | Unreadable m => (Throws m, log_op (ReadFileSync CACHE_FILE) w)
  | Present content =>
      let w := log_op (ReadFileSync CACHE_FILE) w in
      match content with
      | PartialText _ | OtherText _ =>
          (Throws "SyntaxError: Unexpected end of JSON input", w)
      | JsonText written =>
          let cacheData := JSON_roundtrip written in
          if nullish cacheData then
            (* [cacheData.data] on [null] *)
            (Throws (read_error coerce cacheData "data"), w)
          else if negb (truthy (member cacheData "data"))
                  || negb (truthy (member (member cacheData "data") "standings"))
          then (Throws "Invalid cached data format", w)
          else
            match validateNHLApiResponse coerce (member cacheData "data") with
            | Throws m => (Throws m, w)
            | Return validationResult =>
                if negb (isValid validationResult)
                then (Throws "Invalid cached data: validation failed", w)
                else (Return {| Fetched.data := member cacheData "data";
                                Fetched.isStale := true;
                                Fetched.cacheTimestamp :=
                                  member cacheData "timestamp" |},
                      w)
            end
      end
  end.

(** The [try] block of one attempt, up to the validation: the data, or the
    message of the error thrown. *)
Definition tryFetch (outcome : FetchOutcome) : Completion JsValue :=
  match outcome with
  | FetchRejects m => Throws m
  | FetchResolves response =>
      if negb (ok response)
      then Throws ("HTTP error! status: " ++ string_of_nat (status response))
      else
        match body response with
        | BodyRejects m => Throws m
        | BodyJson data =>
            match validateNHLApiResponse coerce data with
            | Throws m => Throws m
            | Return validationResult =>
                if negb (isValid validationResult)
                then Throws "Invalid API response: validation failed"
                else Return data
            end
        end
  end.

(** [for (let attempt = 1; attempt <= MAX_RETRIES; attempt++)], with
    [remaining] iterations to go: the result of the first attempt that
    succeeds, or the last error once the loop is over. *)
Fixpoint fetchAttempts (remaining attempt : nat) (lastError : option string)
  (w : World) : (FetchResult + option string) * World :=
  match remaining with
  | O => (inr lastError, w)
  | S remaining' =>
      match tryFetch (network w attempt) with
      | Return data =>
          let w := cacheResponse data w in
          (inl {| Fetched.data := data; Fetched.isStale := false;
                  Fetched.cacheTimestamp := JsUndefined |}, w)
      | Throws m =>
          let w :=
            if (attempt <? MAX_RETRIES)%nat
            then sleep (INITIAL_RETRY_DELAY * 2 ^ (attempt - 1)) w
            else w in
          fetchAttempts remaining' (S attempt) (Some m) w
      end
  end.

Definition fetchNHLData (w : World) : Completion FetchResult * World :=
  match fetchAttempts MAX_RETRIES 1 None w with
  | (inl result, w) => (Return result, w)
  | (inr lastError, w) =>
      match loadCachedData w with
      | (Return cachedResult, w) => (Return cachedResult, w)
      | (Throws _, w) =>
          (Throws ("Failed to fetch NHL data after " ++ string_of_nat MAX_RETRIES
                   ++ " attempts and no cached data available. Last error: "
                   ++ match lastError with
                      | Some m => m
                      | None => "undefined"
                      end),
           w)
      end
  end.

(** The validator accepts [data]. *)
Definition accepted (data : JsValue) : Prop :=
  exists r, validateNHLApiResponse coerce data = Return r /\ isValid r = true.

(** The cache is usable: the file holds the text of an entry, and the
    payload read back from it is one the validator accepts. *)
Definition usable_cache (w : World) (payload timestamp : JsValue) : Prop :=
  exists written,
    cacheFile w = Present (JsonText written) /\
    member (JSON_roundtrip written) "data" = payload /\
    member (JSON_roundtrip written) "timestamp" = timestamp /\
    accepted payload.

(** The [n]-th attempt fails with message [m]. *)
Definition attempt_fails (w : World) (n : nat) (m : string) : Prop :=
  tryFetch (network w n) = Throws m.


(** Every other answer is a failure, whose message is: that of the
    rejection of [fetch]; the HTTP status line for a response that is not
    [ok]; that of the rejection of [response.json()]; that of the error the
    validator throws; or the fixed text for a body the validator returns
    errors for. *)
Inductive fails_with : FetchOutcome -> string -> Prop :=
| request_rejected (m : string) :
    fails_with (FetchRejects m) m
| response_not_ok (response : Response) :
    ok response = false ->
    fails_with (FetchResolves response)
               ("HTTP error! status: " ++ string_of_nat (status response))
| body_rejected (response : Response) (m : string) :
    ok response = true -> body response = BodyRejects m ->
    fails_with (FetchResolves response) m
| validator_throws (response : Response) (data : JsValue) (m : string) :
    ok response = true -> body response = BodyJson data ->
    validateNHLApiResponse coerce data = Throws m ->
    fails_with (FetchResolves response) m
| validator_rejects (response : Response) (data : JsValue) (r : ValidationResult) :
    ok response = true -> body response = BodyJson data ->
    validateNHLApiResponse coerce data = Return r -> isValid r = false ->
    fails_with (FetchResolves response) "Invalid API response: validation failed".


End Fetching.

(** ** Vocabulary for statements about raw snapshots *)

Definition snapshot_entries (data : JsValue) : list JsValue :=
  match member data "standings" with
  | JsArray entries => entries
  | _ => []
  end.

Definition has_name (fieldName expected : string) (team : JsValue) : bool :=
  match member team fieldName with
  | JsString s => String.eqb s expected
  | _ => false
  end.

(** The number of teams of a snapshot in a division, in a conference. *)
Definition divisionCount (d : string) (data : JsValue) : nat :=
  length (filter (has_name "divisionName" d) (snapshot_entries data)).

Definition conferenceCount (c : string) (data : JsValue) : nat :=
  length (filter (has_name "conferenceName" c) (snapshot_entries data)).

(** [v] exposes a non-empty string [default]. *)
Definition exposes_default (v : JsValue) : Prop :=
  exists s, member v "default" = JsString s /\ s <> ""%string.

(** The fields of an entry that the validator hands to [+], [*], [>] or a
    template literal. *)
Definition operandFields : list string :=
  ["wins"; "losses"; "otLosses"; "points"; "gamesPlayed"; "regulationWins";
   "divisionName"; "conferenceName"]%string.

(** An entry the validator can check without asking the engine to convert
    an object: it is neither null nor undefined, and none of its operand
    fields is an object or an array. *)
Definition plain_entry (team : JsValue) : Prop :=
  nullish team = false /\
  Forall (fun f => primitive (member team f) = true) operandFields.

(** An entry whose [wins] is an object that hides the inherited [toString]
    and [valueOf], with a [teamName] that has no [default]. *)
Definition entryWithOpaqueWins : JsValue :=
  JsObject
    [("teamAbbrev", JsObject [("default", JsString "TOR")]);
     ("teamName", JsObject [("fr", JsString "Maple Leafs de Toronto")]);
     ("wins", JsObject [("toString", JsNull); ("valueOf", JsNull)]);
     ("losses", JsNumber (f64_of_Z 15));
     ("otLosses", JsNumber (f64_of_Z 5));
     ("points", JsNumber (f64_of_Z 65));
     ("gamesPlayed", JsNumber (f64_of_Z 50));
     ("regulationWins", JsNumber (f64_of_Z 25));
     ("regulationPlusOtWins", JsNumber (f64_of_Z 28));
     ("divisionName", JsString "Atlantic");
     ("conferenceName", JsString "Eastern")]%string.

(** The fixture [createValidTeam] of tests/validation.test.ts. *)
Definition createValidTeam : NHL.StandingEntry :=
  {| NHL.teamName := {| NHL.default := "Toronto Maple Leafs" |};
     NHL.teamAbbrev := {| NHL.default := "TOR" |};
     NHL.wins := 30; NHL.losses := 15; NHL.otLosses := 5;
     NHL.points := 65; NHL.gamesPlayed := 50;
     NHL.regulationWins := 25; NHL.regulationPlusOtWins := 28;
     NHL.divisionName := "Atlantic"; NHL.conferenceName := "Eastern" |}.

(** Thirty-two copies of the fixture, the snapshot that test file expects the
    validator to accept. *)
Definition thirtyTwoAtlantic : NHL.ApiResponse :=
  {| NHL.standings := repeat createValidTeam 32 |}.

(** A valid entry whose [teamName] is a plain string, not an object. *)
Definition entryWithStringName : JsValue :=
  JsObject
    [("teamAbbrev", JsObject [("default", JsString "TOR")]);
     ("teamName", JsString "Toronto Maple Leafs");
     ("wins", JsNumber (f64_of_Z 30));
     ("losses", JsNumber (f64_of_Z 15));
     ("otLosses", JsNumber (f64_of_Z 5));
     ("points", JsNumber (f64_of_Z 65));
     ("gamesPlayed", JsNumber (f64_of_Z 50));
     ("regulationWins", JsNumber (f64_of_Z 25));
     ("regulationPlusOtWins", JsNumber (f64_of_Z 28));
     ("divisionName", JsString "Atlantic");
     ("conferenceName", JsString "Eastern")]%string.

Definition snapshotWithStringNames : JsValue :=
  JsObject [("standings"%string, JsArray (repeat entryWithStringName 32))].

(** A valid entry whose [teamName] object has no [default]. *)
Definition entryWithoutDefault : JsValue :=
  JsObject
    [("teamAbbrev", JsObject [("default", JsString "TOR")]);
     ("teamName", JsObject [("fr", JsString "Maple Leafs de Toronto")]);
     ("wins", JsNumber (f64_of_Z 30));
     ("losses", JsNumber (f64_of_Z 15));
     ("otLosses", JsNumber (f64_of_Z 5));
     ("points", JsNumber (f64_of_Z 65));
     ("gamesPlayed", JsNumber (f64_of_Z 50));
     ("regulationWins", JsNumber (f64_of_Z 25));
     ("regulationPlusOtWins", JsNumber (f64_of_Z 28));
     ("divisionName", JsString "Atlantic");
     ("conferenceName", JsString "Eastern")]%string.

Definition snapshotWithoutDefault : JsValue :=
  JsObject [("standings"%string, JsArray [entryWithoutDefault])].

(** The fixture [createTeam] of tests/calculations.test.ts. *)
Definition createTeam (n : nat) (pct gp rw : Q) : Team :=
  {| id := n; name := "Team"; abbreviation := "T";
     wins := 20; losses := 10; otLosses := 5; points := 45;
     gamesPlayed := gp; pointPercentage := pct;
     regulationWins := rw; regulationPlusOtWins := rw + 2;
     division := "Atlantic"; conference := "Eastern";
     isDivisionLeader := false; isWildCard := false;
     divisionRank := 0; conferenceRank := 0 |}.

(** ** Vocabulary for statements about the output document *)


(** A team with the two fields written after the division pass blanked. *)
Definition eraseLate (t : Team) : Team :=
  set_isWildCard false (set_conferenceRank 0 t).


(** A team with the four fields the classification passes write blanked. *)
Definition eraseClassification (t : Team) : Team :=
  set_division false 0 (set_isWildCard false (set_conferenceRank 0 t)).

(** The teams [processStandings] classifies. *)
Definition classifiedTeams (raw : NHL.ApiResponse) : list Team :=
  classifyTeams
    (map (fun team =>
            set_pointPercentage
              (calculatePointPercentage (points team) (gamesPlayed team)) team)
         (transformToTeams (NHL.standings raw))).


(** The sample of tests/processStandings.test.ts: seven Eastern teams of one
    division and four Western ones. *)
Definition createEntry (name division conference : string) (points gamesPlayed : Q)
  : NHL.StandingEntry :=
  {| NHL.teamName := {| NHL.default := name |};
     NHL.teamAbbrev := {| NHL.default := name |};
     NHL.wins := points; NHL.losses := 0; NHL.otLosses := 0;
     NHL.points := points; NHL.gamesPlayed := gamesPlayed;
     NHL.regulationWins := points; NHL.regulationPlusOtWins := points;
     NHL.divisionName := division; NHL.conferenceName := conference |}.

Definition sampleStandings : list NHL.StandingEntry :=
  [createEntry "E1" "Atlantic" "Eastern" 70 40;
   createEntry "E2" "Atlantic" "Eastern" 68 40;
   createEntry "E3" "Atlantic" "Eastern" 66 40;
   createEntry "E4" "Atlantic" "Eastern" 64 40;
   createEntry "E5" "Atlantic" "Eastern" 62 40;
   createEntry "E6" "Atlantic" "Eastern" 60 40;
   createEntry "E7" "Atlantic" "Eastern" 58 40;
   createEntry "W1" "Central" "Western" 70 40;
   createEntry "W2" "Central" "Western" 65 40;
   createEntry "W3" "Central" "Western" 60 40;
   createEntry "W4" "Central" "Western" 55 40]%string.

Definition sampleTeams : list Team :=
  map (fun team =>
         set_pointPercentage
           (calculatePointPercentage (points team) (gamesPlayed team)) team)
      (transformToTeams sampleStandings).

(** Worlds for examples: every call of [fetch] is rejected. *)
Definition offline (file : CacheFile) (wo : WriteOutcome) : World :=
  {| network := fun _ => FetchRejects "fetch failed";
     cacheDirExists := true; cacheFile := file;
     mkdirFails := false; writeOutcome := wo;
     clock := "2025-03-02T08:00:00.000Z"; fsLog := []; sleeps := [] |}.

Definition goodCache : CacheFile :=
  Present (JsonText (cacheEntry (js_of_response thirtyTwoAtlantic)
                                "2025-03-01T08:00:00.000Z")).


(** ** The point percentage in binary64

    The same expression as [calculatePointPercentage], evaluated with the
    kernel's IEEE 754 binary64 operations, which are JavaScript's. *)

(** [Math.round] on a double: the nearest integer, a tie going up.  (The sign
    of a zero result is not tracked.) *)
Definition Math_round_f64 (x : PrimFloat.float) : PrimFloat.float :=
  match FloatOps.Prim2SF x with
  | SpecFloat.S754_finite s m e =>
      if (0 <=? e)%Z then x
      else
        let n := if s then Z.neg m else Z.pos m in
        f64_of_Z ((2 * n + 2 ^ (- e)) / 2 ^ (1 - e))%Z
  | _ => x
  end.

Definition calculatePointPercentage_f64 (points gamesPlayed : PrimFloat.float)
  : PrimFloat.float :=
  if PrimFloat.eqb gamesPlayed (f64_of_Z 0) then f64_of_Z 0
  else
    let maxPossiblePoints := PrimFloat.mul gamesPlayed (f64_of_Z 2) in
    let percentage := PrimFloat.div points maxPossiblePoints in
    PrimFloat.div (Math_round_f64 (PrimFloat.mul percentage (f64_of_Z 1000)))
                  (f64_of_Z 1000).

(** The double computed for integers [p] and [g] is the double nearest to the
    exact result k/1000. *)
Definition f64_matches_exact (p g : nat) : bool :=
  PrimFloat.eqb
    (calculatePointPercentage_f64 (f64_of_Z (Z.of_nat p)) (f64_of_Z (Z.of_nat g)))
    (PrimFloat.div
       (f64_of_Z (Qfloor (calculatePointPercentage (inject_Z (Z.of_nat p))
                                                   (inject_Z (Z.of_nat g)) * 1000)))
       (f64_of_Z 1000)).

(** ** The projection in binary64

    The same statements as [calculatePlayoffStats], evaluated with the
    kernel's binary64 operations; the status and the required percentage
    are what the claims below compare. *)

(** [Math.max(a, b)] on doubles other than NaN. *)
Definition Math_max_f64 (a b : JsNum) : JsNum := if PrimFloat.ltb a b then b else a.

Definition TOTAL_SEASON_GAMES_f64 : JsNum := Eval vm_compute in f64_of_Z 82.
Definition POINTS_PER_GAME_f64 : JsNum := Eval vm_compute in f64_of_Z 2.
Definition zero_f64 : JsNum := Eval vm_compute in f64_of_Z 0.
Definition hundred_f64 : JsNum := Eval vm_compute in f64_of_Z 100.

Definition calculatePlayoffStats_f64 (points gamesPlayed playoffThreshold : JsNum)
  : PlayoffStatus * option JsNum :=
  let remainingGames :=
    Math_max_f64 zero_f64 (PrimFloat.sub TOTAL_SEASON_GAMES_f64 gamesPlayed) in
  let remainingPoints := PrimFloat.mul remainingGames POINTS_PER_GAME_f64 in
  let maxPossiblePoints := PrimFloat.add points remainingPoints in
  let pointsGap := PrimFloat.sub playoffThreshold points in
  if PrimFloat.leb playoffThreshold points then (clinched, None)
  else if PrimFloat.ltb maxPossiblePoints playoffThreshold then (eliminated, None)
  else (competing,
        if PrimFloat.ltb zero_f64 remainingPoints
        then Some (PrimFloat.mul (PrimFloat.div pointsGap remainingPoints) hundred_f64)
        else None).

(** What the binary64 evaluation on the doubles of the integers [p], [g] and
    [t] must give: the status of the rule on the integers, and with it a
    required percentage in (0, 100] exactly when competing. *)
Definition projection_ok (p g t : nat) (fp fg ft : JsNum) : bool :=
  let '(status, required) := calculatePlayoffStats_f64 fp fg ft in
  match status, required with
  | clinched, None => (t <=? p)%nat
  | eliminated, None => (p <? t)%nat && (p + 2 * (82 - g) <? t)%nat
  | competing, Some x =>
      (p <? t)%nat && (t <=? p + 2 * (82 - g))%nat
      && PrimFloat.ltb zero_f64 x && PrimFloat.leb x hundred_f64
  | _, _ => false
  end.

(** The integers from [start] on, each with its double. *)
Definition doubles (start len : nat) : list (nat * JsNum) :=
  map (fun n => (n, f64_of_Z (Z.of_nat n))) (seq start len).

(** ** Vocabulary for the further properties *)

(** The error [checkRequired] pushes for a missing field. *)
Definition missingFieldError (prefix fieldName : string) : ValidationError :=
  {| field := (prefix ++ "." ++ fieldName)%string;
     message := [Lit "Missing required field: "; Lit fieldName];
     value := None |}.

(** A finite double between two integer bounds, as the range check of the
    validator tests it. *)
Definition within (lo hi : Z) (n : JsNum) : Prop :=
  PrimFloat.is_finite n = true /\
  PrimFloat.ltb n (f64_of_Z lo) = false /\
  PrimFloat.ltb (f64_of_Z hi) n = false.

(** A name the validator lets through: present, and when it is an object
    (or an array) one that exposes a non-empty string [default]. *)
Definition name_ok (v : JsValue) : Prop :=
  nullish v = false /\
  (typeof v = "object"%string -> exposes_default v).

(** What the validator demands of one entry: six finite numbers within
    their ranges that satisfy the three relations as binary64 computes
    them, a known division and conference, and the two names. *)
Definition entry_ok (team : JsValue) : Prop :=
  exists (w l o p g rw : JsNum) (d c : string),
    member team "wins" = JsNumber w /\
    member team "losses" = JsNumber l /\
    member team "otLosses" = JsNumber o /\
    member team "points" = JsNumber p /\
    member team "gamesPlayed" = JsNumber g /\
    member team "regulationWins" = JsNumber rw /\
    member team "divisionName" = JsString d /\
    member team "conferenceName" = JsString c /\
    within 0 82 w /\ within 0 82 l /\ within 0 82 o /\
    within 0 164 p /\ within 0 82 g /\ within 0 82 rw /\
    PrimFloat.eqb g (PrimFloat.add (PrimFloat.add w l) o) = true /\
    PrimFloat.eqb p (PrimFloat.add (PrimFloat.mul w (f64_of_Z 2)) o) = true /\
    PrimFloat.ltb w rw = false /\
    In d VALID_DIVISIONS /\ In c VALID_CONFERENCES /\
    name_ok (member team "teamName") /\ name_ok (member team "teamAbbrev").

(** The entry the validator accepts though it is no standing in exact
    arithmetic: one tenth of a win, two tenths of a loss, and the double
    0.1 + 0.2 for the games played. *)
Definition tenth : JsNum := PrimFloat.div (f64_of_Z 1) (f64_of_Z 10).

Definition entryOfTenths : JsValue :=
  JsObject
    [("teamAbbrev", JsObject [("default", JsString "TOR")]);
     ("teamName", JsObject [("default", JsString "Toronto Maple Leafs")]);
     ("wins", JsNumber tenth);
     ("losses", JsNumber (PrimFloat.add tenth tenth));
     ("otLosses", JsNumber (f64_of_Z 0));
     ("points", JsNumber (PrimFloat.add tenth tenth));
     ("gamesPlayed", JsNumber (PrimFloat.add tenth (PrimFloat.add tenth tenth)));
     ("regulationWins", JsNumber (f64_of_Z 0));
     ("regulationPlusOtWins", JsNumber (f64_of_Z 0));
     ("divisionName", JsString "Atlantic");
     ("conferenceName", JsString "Eastern")]%string.

(** One side of the document in the standard layout: the two named division
    boards, each with ranks 1 to 8 and its first three rows flagged as
    leaders, and a wild-card board of ten rows of which the first two are
    flagged. *)
Definition standardSide (side : ConferenceStandings) (d1 d2 : string) : Prop :=
  (forall d, In d (map fst (divisions side)) <-> d = d1 \/ d = d2) /\
  (forall d board, In (d, board) (divisions side) ->
     map divisionRank board = seq 1 8 /\
     map isDivisionLeader board =
       [true; true; true; false; false; false; false; false]) /\
  map isWildCard (wildCards side) =
    [true; true; false; false; false; false; false; false; false; false].

(** A snapshot in the standard layout: eight teams in each division, with
    20 + k wins and 30 - k regulation losses for k = 0..7. *)
Definition standardEntry (division conference : string) (k : nat) : NHL.StandingEntry :=
  {| NHL.teamName := {| NHL.default := division |};
     NHL.teamAbbrev := {| NHL.default := conference |};
     NHL.wins := inject_Z (Z.of_nat (20 + k));
     NHL.losses := inject_Z (Z.of_nat (30 - k));
     NHL.otLosses := 0;
     NHL.points := inject_Z (Z.of_nat (2 * (20 + k)));
     NHL.gamesPlayed := 50;
     NHL.regulationWins := 10;
     NHL.regulationPlusOtWins := 15;
     NHL.divisionName := division; NHL.conferenceName := conference |}.

Definition standardSnapshot : NHL.ApiResponse :=
  {| NHL.standings :=
       flat_map (fun '(division, conference) =>
                   map (standardEntry division conference) (seq 0 8))
                [("Atlantic", "Eastern"); ("Central", "Western");
                 ("Metropolitan", "Eastern"); ("Pacific", "Western")]%string |}.

(** A world whose every call of [fetch] resolves with [payload]. *)
Definition online (payload : JsValue) (file : CacheFile) (wo : WriteOutcome) : World :=
  {| network := fun _ => FetchResolves {| ok := true; status := 200;
                                          body := BodyJson payload |};
     cacheDirExists := false; cacheFile := file;
     mkdirFails := false; writeOutcome := wo;
     clock := "2025-03-02T08:00:00.000Z"; fsLog := []; sleeps := [] |}.

(** ** app.ts: the threshold input

    [validateThreshold] inspects the characters of its argument, so here a
    string is the sequence of its UTF-16 code units. *)

Definition CodeUnits : Type := list N.

(** The code units of a string of ASCII characters. *)
Definition code_units (s : string) : CodeUnits :=
  map Ascii.N_of_ascii (list_ascii_of_string s).

(** ECMAScript's StrWhiteSpaceChar (WhiteSpace and LineTerminator), which
    both [String.prototype.trim] and [parseInt] strip: TAB, LF, VT, FF, CR,
    SP, NBSP, U+1680, U+2000..U+200A, LS, PS, U+202F, U+205F, U+3000 and
    U+FEFF. *)
Definition isWhiteSpace (c : N) : bool :=
  ((9 <=? c) && (c <=? 13) || (c =? 32) || (c =? 160) || (c =? 5760)
   || (8192 <=? c) && (c <=? 8202) || (c =? 8232) || (c =? 8233)
   || (c =? 8239) || (c =? 8287) || (c =? 12288) || (c =? 65279))%N.

(** A decimal digit, U+0030..U+0039. *)
Definition isDigit (c : N) : bool := ((48 <=? c) && (c <=? 57))%N.

Fixpoint dropWhile {A : Type} (p : A -> bool) (l : list A) : list A :=
  match l with
  | [] => []
  | x :: rest => if p x then dropWhile p rest else l
  end.

Fixpoint takeWhile {A : Type} (p : A -> bool) (l : list A) : list A :=
  match l with
  | [] => []
  | x :: rest => if p x then x :: takeWhile p rest else []
  end.

(** [s.trim()] *)
Definition trim (s : CodeUnits) : CodeUnits :=
  rev (dropWhile isWhiteSpace (rev (dropWhile isWhiteSpace s))).

(** The integer a run of decimal digits denotes. *)
Definition mathInt (digits : CodeUnits) : Z :=
  fold_left (fun acc c => (10 * acc + Z.of_N (c - 48))%Z) digits 0%Z.

(** [parseInt(s, 10)], [None] standing for NaN: leading white space is
    skipped, one sign character is read, then the longest run of decimal
    digits; what follows the run is ignored.  The result is kept as the exact
    integer; the double that JavaScript makes of it is the same number up to
    2^53, and compares with 80 and 120 the same way beyond. *)
Definition parseInt10 (s : CodeUnits) : option Z :=
  let S := dropWhile isWhiteSpace s in
  let sign := match S with
              | 45%N :: _ => (-1)%Z
              | _ => 1%Z
              end in
  let S := match S with
           | 43%N :: rest => rest
           | 45%N :: rest => rest
           | _ => S
           end in
  match takeWhile isDigit S with
  | [] => None
  | digits => Some (sign * mathInt digits)%Z
  end.

(** [interface ValidationResult { valid: boolean; error?: string }] *)
Record ThresholdValidation : Type := {
  valid : bool;
  error : option string
}.

Definition isEmpty {A : Type} (l : list A) : bool :=
  match l with
  | [] => true
  | _ => false
  end.

Definition validateThreshold (value : CodeUnits) : ThresholdValidation :=
  if isEmpty value || isEmpty (trim value) then
    {| valid := false; error := Some "Please enter a threshold value"%string |}
  else
    match parseInt10 value with
    | None =>
        {| valid := false; error := Some "Please enter a valid number"%string |}
    | Some numValue =>
        if (numValue <? 80)%Z || (numValue >? 120)%Z then
          {| valid := false;
             error := Some "Threshold must be between 80 and 120 points"%string |}
        else {| valid := true; error := None |}
    end.

(** [n.toString()] for a non-negative integer. *)
Definition Number_toString (n : nat) : CodeUnits := code_units (string_of_nat n).

(** The decimal rendering of a threshold in range: digits only, denoting the
    number. *)
Definition rendersBack (n : nat) : bool :=
  let digits := Number_toString n in
  negb (isEmpty digits) && forallb isDigit digits
  && (mathInt digits =? Z.of_nat n)%Z.

(** * Properties *)

(** ** Comparison helpers *)

Lemma Qlt_bool_iff (a b : Q) : Qlt_bool a b = true <-> a < b.
Proof.
  unfold Qlt_bool. rewrite Qlt_alt.
  destruct (a ?= b); split; congruence.
Qed.

Lemma Qlt_bool_false_iff (a b : Q) : Qlt_bool a b = false <-> b <= a.
Proof.
  split; intro H.
  - apply Qnot_lt_le. intro Hlt. apply Qlt_bool_iff in Hlt. congruence.
  - destruct (Qlt_bool a b) eqn:E; [|reflexivity].
    apply Qlt_bool_iff in E. apply Qle_not_lt in H. contradiction.
Qed.

Lemma Qge_bool_iff (a b : Q) : Qge_bool a b = true <-> b <= a.
Proof. unfold Qge_bool. apply Qle_bool_iff. Qed.

Lemma Qge_bool_false_iff (a b : Q) : Qge_bool a b = false <-> a < b.
Proof.
  unfold Qge_bool. split; intro H.
  - apply Qnot_le_lt. intro Hle. apply Qle_bool_iff in Hle. congruence.
  - destruct (Qle_bool b a) eqn:E; [|reflexivity].
    apply Qle_bool_iff in E. apply Qlt_not_le in H. contradiction.
Qed.

Lemma Math_max_spec (a b : Q) : Math_max a b == Qmax a b.
Proof.
  unfold Math_max. destruct (Qlt_bool a b) eqn:E.
  - apply Qlt_bool_iff in E. symmetry. apply Q.max_r. now apply Qlt_le_weak.
  - apply Qlt_bool_false_iff in E. symmetry. now apply Q.max_l.
Qed.

(** ** Ranking engine: point percentage *)

Lemma Math_round_near (x : Q) : x - (1 # 2) <= Math_round x /\ Math_round x <= x + (1 # 2).
Proof.
  unfold Math_round. split.
  - pose proof (Qlt_floor (x + (1 # 2))) as H.
    rewrite inject_Z_plus in H. change (inject_Z 1) with 1 in H. lra.
  - apply Qfloor_le.
Qed.

Lemma Math_round_integer (x : Q) : exists k : Z, Math_round x = inject_Z k.
Proof. now exists (Qfloor (x + (1 # 2))). Qed.

Lemma Math_round_mono (x y : Q) : x <= y -> Math_round x <= Math_round y.
Proof.
  intro H. unfold Math_round. rewrite <- Zle_Qle.
  apply Qfloor_resp_le. lra.
Qed.

Lemma calculatePointPercentage_nonzero (p g : Q) :
  ~ g == 0 ->
  calculatePointPercentage p g = Math_round (p / (g * 2) * 1000) / 1000.
Proof.
  intro Hg. unfold calculatePointPercentage.
  destruct (Qeq_bool g 0) eqn:E; [|reflexivity].
  apply Qeq_bool_iff in E. contradiction.
Qed.


(** C5. [calculatePointPercentage] returns 0 when no game was played and
    otherwise points / (gamesPlayed * 2) rounded to three decimal places (a
    multiple of 1/1000 at distance at most 1/2000 from the exact quotient);
    the four documented values; and a result within [0, 1] whenever
    0 <= points <= gamesPlayed * 2. *)
Theorem calculatePointPercentage_spec :
  (forall p g, g == 0 -> calculatePointPercentage p g = 0) /\
  (forall p g, ~ g == 0 ->
     exists k : Z,
       calculatePointPercentage p g == inject_Z k / 1000 /\
       Qabs (calculatePointPercentage p g - p / (g * 2)) <= 1 # 2000) /\
  (calculatePointPercentage 50 40 == 0.625 /\
   calculatePointPercentage 0 0 == 0 /\
   calculatePointPercentage 33 40 == 0.413 /\
   calculatePointPercentage 164 82 == 1.000) /\
  (forall p g, 0 <= p /\ p <= g * 2 ->
     0 <= calculatePointPercentage p g /\ calculatePointPercentage p g <= 1).
Proof.
  split; [|split; [|split]].
  - intros p g Hg. unfold calculatePointPercentage.
    apply Qeq_bool_iff in Hg. now rewrite Hg.
  - intros p g Hg. rewrite (calculatePointPercentage_nonzero p g Hg).
    destruct (Math_round_integer (p / (g * 2) * 1000)) as [k Hk].
    exists k. split; [now rewrite Hk|].
    destruct (Math_round_near (p / (g * 2) * 1000)) as [Hlo Hhi].
    set (x := p / (g * 2)) in *. set (r := Math_round (x * 1000)) in *.
    apply Qabs_Qle_condition. split.
    + apply Qle_minus_iff. 
      setoid_replace (r / 1000 - x + - - (1 # 2000))
        with ((r - (x * 1000 - (1 # 2))) / 1000) by field.
      apply Qle_shift_div_l; lra.
    + apply Qle_minus_iff.
      setoid_replace ((1 # 2000) + - (r / 1000 - x))
        with ((x * 1000 + (1 # 2) - r) / 1000) by field.
      apply Qle_shift_div_l; lra.
  - repeat split; reflexivity.
  - intros p g [Hp Hpg]. unfold calculatePointPercentage.
    destruct (Qeq_bool g 0) eqn:E; [split; [apply Qle_refl | discriminate]|].
    apply Qeq_bool_neq in E.
    assert (Hg : 0 < g * 2).
    { apply Qle_lt_or_eq in Hp. destruct (Qlt_le_dec 0 (g * 2)) as [|Hle]; [assumption|].
      exfalso. apply E. lra. }
    assert (Hx0 : 0 <= p / (g * 2)) by (apply Qle_shift_div_l; lra).
    assert (Hx1 : p / (g * 2) <= 1) by (apply Qle_shift_div_r; lra).
    pose proof (Math_round_mono 0 (p / (g * 2) * 1000)) as Hlo.
    pose proof (Math_round_mono (p / (g * 2) * 1000) 1000) as Hhi.
    change (Math_round 0) with 0 in Hlo. 
    assert (E1000 : Math_round 1000 == 1000) by reflexivity.
    rewrite E1000 in Hhi. cbv zeta.
    split.
    + apply Qle_shift_div_l; [reflexivity|]. lra.
    + apply Qle_shift_div_r; [reflexivity|]. lra.
Qed.

Lemma calculatePointPercentage_spec_witness :
  0 <= calculatePointPercentage 33 40 /\ calculatePointPercentage 33 40 <= 1.
Proof.
  apply (proj2 (proj2 (proj2 calculatePointPercentage_spec)) 33 40).
  split; unfold Qle; simpl; lia.
Defined.

(** On every pair of integers within the validator's ranges (points up to
    164, games up to 82) the binary64 evaluation returns the double nearest
    to the exact three-decimal result. *)
Lemma binary64_agrees (p g : nat) :
  (p <= 164)%nat -> (g <= 82)%nat -> f64_matches_exact p g = true.
Proof.
  intros Hp Hg.
  assert (Hall : forallb (fun g => forallb (fun p => f64_matches_exact p g)
                                           (seq 0 165)) (seq 0 83) = true)
    by (vm_compute; reflexivity).
  rewrite forallb_forall in Hall.
  specialize (Hall g). rewrite forallb_forall in Hall.
  apply Hall; apply in_seq; lia.
Qed.

(** ** Projector *)

(** The three branches of the status rule, read off the two tests. *)
Lemma calculatePlayoffStats_cases (team : Team) (threshold : Q) :
  let r := calculatePlayoffStats team threshold in
  (playoffStatus r = clinched /\ requiredPointsPercentage r = None /\
   threshold <= points team) \/
  (playoffStatus r = eliminated /\ requiredPointsPercentage r = None /\
   points team < threshold /\ maxPossiblePoints r < threshold) \/
  (playoffStatus r = competing /\
   requiredPointsPercentage r = Some (pointsGap r / remainingPoints r * 100) /\
   points team < threshold /\ threshold <= maxPossiblePoints r /\
   0 < remainingPoints r).
Proof.
  unfold calculatePlayoffStats; cbv zeta.
  destruct (Qge_bool (points team) threshold) eqn:Ec; simpl.
  { left. apply Qge_bool_iff in Ec. auto. }
  apply Qge_bool_false_iff in Ec.
  match goal with |- context [Qlt_bool ?m threshold] =>
    destruct (Qlt_bool m threshold) eqn:Ee; simpl end.
  { right; left. apply Qlt_bool_iff in Ee. auto. }
  apply Qlt_bool_false_iff in Ee.
  right; right.
  match goal with |- context [Qgt_bool ?rp 0] =>
    assert (Hrp : 0 < rp) by lra;
    assert (Eg : Qgt_bool rp 0 = true) by (now apply Qlt_bool_iff);
    rewrite Eg end.
  auto.
Qed.

(** C2. The projector's four derived quantities follow the stated formulas,
    the status is chosen by the ordered rule (clinched, else eliminated, else
    competing with the required percentage), and the three documented
    end-to-end cases evaluate as stated. *)
Theorem calculatePlayoffStats_spec :
  (forall (team : Team) (threshold : Q),
     let r := calculatePlayoffStats team threshold in
     remainingGames r == Qmax 0 (82 - gamesPlayed team) /\
     remainingPoints r == remainingGames r * 2 /\
     maxPossiblePoints r == points team + remainingPoints r /\
     pointsGap r == threshold - points team /\
     (threshold <= points team -> playoffStatus r = clinched) /\
     (points team < threshold -> maxPossiblePoints r < threshold ->
      playoffStatus r = eliminated) /\
     (points team < threshold -> threshold <= maxPossiblePoints r ->
      playoffStatus r = competing /\
      exists q, requiredPointsPercentage r = Some q /\
                q == pointsGap r / remainingPoints r * 100)) /\
  (let r := calculatePlayoffStats (createTestTeam 95 70) 95 in
   playoffStatus r = clinched /\ remainingGames r == 12 /\
   remainingPoints r == 24 /\ maxPossiblePoints r == 119 /\ pointsGap r == 0) /\
  (let r := calculatePlayoffStats (createTestTeam 60 75) 95 in
   playoffStatus r = eliminated /\ maxPossiblePoints r == 74) /\
  (let r := calculatePlayoffStats (createTestTeam 80 70) 95 in
   playoffStatus r = competing /\ remainingPoints r == 24 /\ pointsGap r == 15 /\
   exists q, requiredPointsPercentage r = Some q /\ q == 62.5).
Proof.
  split; [|split; [|split]].
  - intros team threshold r.
    pose proof (calculatePlayoffStats_cases team threshold) as Hc.
    fold r in Hc. cbv zeta in Hc.
    split; [exact (Math_max_spec 0 (TOTAL_SEASON_GAMES - gamesPlayed team))|].
    split; [reflexivity|]. split; [reflexivity|]. split; [reflexivity|].
    split; [|split].
    + intro Hle.
      destruct Hc as [(S & _)|[(_ & _ & Hlt & _)|(_ & _ & Hlt & _)]];
        [assumption | lra | lra].
    + intros Hlt Hmax.
      destruct Hc as [(_ & _ & Hle)|[(S & _)|(_ & _ & _ & Hge & _)]];
        [lra | assumption | lra].
    + intros Hlt Hmax.
      destruct Hc as [(_ & _ & Hle)|[(_ & _ & _ & Hm)|(S & R & _)]];
        [lra | lra |].
      split; [assumption|]. eexists. split; [exact R | reflexivity].
  - cbv zeta. repeat split; reflexivity.
  - cbv zeta. repeat split; reflexivity.
  - cbv zeta. split; [reflexivity|]. split; [reflexivity|]. split; [reflexivity|].
    eexists. split; reflexivity.
Qed.

Lemma calculatePlayoffStats_spec_witness :
  playoffStatus (calculatePlayoffStats (createTestTeam 90 82) 95) = eliminated.
Proof.
  apply (proj1 calculatePlayoffStats_spec (createTestTeam 90 82) 95);
    unfold Qlt; simpl; lia.
Defined.

(** C7. A competing status implies that points remain to be won, so the
    division computing the required percentage has a positive divisor, and
    the required percentage is present exactly when the status is competing. *)
Theorem competing_has_remaining_points (team : Team) (threshold : Q) :
  let r := calculatePlayoffStats team threshold in
  (playoffStatus r = competing -> 0 < remainingPoints r) /\
  (requiredPointsPercentage r <> None <-> playoffStatus r = competing).
Proof.
  intro r. pose proof (calculatePlayoffStats_cases team threshold) as Hc.
  fold r in Hc. cbv zeta in Hc.
  destruct Hc as [(S & R & _)|[(S & R & _)|(S & R & _ & _ & Hrp)]];
    rewrite S, R; (split; [|split]); try congruence; intros; assumption.
Qed.

Lemma competing_has_remaining_points_witness :
  0 < remainingPoints (calculatePlayoffStats (createTestTeam 80 70) 95).
Proof.
  apply (proj1 (competing_has_remaining_points (createTestTeam 80 70) 95)).
  reflexivity.
Defined.

(** ** Stable sorting with a consistent comparator *)

Section ArraySortFacts.
Context {A : Type} (cmp : A -> A -> Z).

Let le (a b : A) : Prop := (cmp a b <= 0)%Z.

Lemma sort_insert_perm (x : A) (l : list A) :
  Permutation (x :: l) (sort_insert cmp x l).
Proof.
  induction l as [|y l IH]; simpl; [reflexivity|].
  destruct (cmp x y <=? 0)%Z; [reflexivity|].
  rewrite perm_swap. now apply perm_skip.
Qed.

Lemma Array_sort_perm (l : list A) : Permutation l (Array_sort cmp l).
Proof.
  induction l as [|x l IH]; simpl; [constructor|].
  rewrite <- sort_insert_perm. now apply perm_skip.
Qed.

Lemma Array_sort_length (l : list A) : length (Array_sort cmp l) = length l.
Proof. symmetry. apply Permutation_length, Array_sort_perm. Qed.

Lemma Array_sort_In (l : list A) (x : A) : In x (Array_sort cmp l) <-> In x l.
Proof.
  split; apply Permutation_in; [symmetry|]; apply Array_sort_perm.
Qed.

(** Sorting commutes with a field update the comparator does not see. *)
Lemma Array_sort_map (f : A -> A) (l : list A) :
  (forall a b, cmp (f a) (f b) = cmp a b) ->
  Array_sort cmp (map f l) = map f (Array_sort cmp l).
Proof.
  intro Hf.
  assert (Hins : forall x s, sort_insert cmp (f x) (map f s) = map f (sort_insert cmp x s)).
  { intros x s. induction s as [|y s IH]; simpl; [reflexivity|].
    rewrite Hf. destruct (cmp x y <=? 0)%Z; simpl; [reflexivity|]. now rewrite IH. }
  induction l as [|x l IH]; simpl; [reflexivity|].
  now rewrite IH, Hins.
Qed.

Lemma sort_insert_head (x : A) (l : list A) :
  Forall (le x) l -> sort_insert cmp x l = x :: l.
Proof.
  intro H. destruct l as [|y l]; simpl; [reflexivity|].
  inversion H as [|? ? Hxy _]; subst. unfold le in Hxy.
  apply Z.leb_le in Hxy. now rewrite Hxy.
Qed.

(** A list already in order is returned unchanged. *)
Lemma Array_sort_sorted_id (l : list A) :
  StronglySorted le l -> Array_sort cmp l = l.
Proof.
  induction 1 as [|x l Hs IH Hx]; simpl; [reflexivity|].
  rewrite IH. now apply sort_insert_head.
Qed.

Hypothesis cmp_trans : forall a b c, le a b -> le b c -> le a c.
Hypothesis cmp_total : forall a b, ~ le a b -> le b a.

Lemma sort_insert_sorted (x : A) (l : list A) :
  StronglySorted le l -> StronglySorted le (sort_insert cmp x l).
Proof.
  induction 1 as [|y l Hs IH Hy]; simpl.
  - repeat constructor.
  - destruct (cmp x y <=? 0)%Z eqn:E.
    + apply Z.leb_le in E. constructor; [now constructor|].
      constructor; [exact E|].
      eapply Forall_impl; [|exact Hy]. intros z Hz. now apply (cmp_trans x y z).
    + apply Z.leb_gt in E. constructor; [exact IH|].
      eapply Permutation_Forall; [apply sort_insert_perm|].
      constructor; [|exact Hy]. apply cmp_total. unfold le. lia.
Qed.

Lemma Array_sort_sorted (l : list A) : StronglySorted le (Array_sort cmp l).
Proof.
  induction l as [|x l IH]; simpl; [constructor|].
  now apply sort_insert_sorted.
Qed.

Lemma sort_insert_filter (p : A -> bool) (x : A) (l : list A) :
  StronglySorted le l ->
  filter p (sort_insert cmp x l) =
  if p x then sort_insert cmp x (filter p l) else filter p l.
Proof.
  induction 1 as [|y l Hs IH Hy].
  - simpl. now destruct (p x).
  - simpl sort_insert. destruct (cmp x y <=? 0)%Z eqn:E.
    + apply Z.leb_le in E. cbn [filter]. destruct (p x); [|reflexivity].
      symmetry. apply sort_insert_head.
      assert (Hall : Forall (le x) (y :: l)).
      { constructor; [exact E|]. eapply Forall_impl; [|exact Hy].
        intros z Hz. now apply (cmp_trans x y z). }
      rewrite Forall_forall in Hall |- *. intros z Hz.
      apply Hall. change (In z (filter p (y :: l))) in Hz.
      apply filter_In in Hz. tauto.
    + cbn [filter]. rewrite IH. destruct (p y), (p x); simpl; try reflexivity.
      now rewrite E.
Qed.

(** Sorting commutes with selecting a subset. *)
Lemma Array_sort_filter (p : A -> bool) (l : list A) :
  filter p (Array_sort cmp l) = Array_sort cmp (filter p l).
Proof.
  induction l as [|x l IH]; simpl; [reflexivity|].
  rewrite sort_insert_filter by apply Array_sort_sorted.
  rewrite IH. now destruct (p x).
Qed.

Hypothesis cmp_tie_sym : forall a b, cmp a b = 0%Z -> cmp b a = 0%Z.

(** Stability: the elements that tie with [x] keep their input order. *)
Lemma Array_sort_stable (x : A) (l : list A) :
  filter (fun y => (cmp x y =? 0)%Z) (Array_sort cmp l) =
  filter (fun y => (cmp x y =? 0)%Z) l.
Proof.
  rewrite Array_sort_filter. apply Array_sort_sorted_id.
  assert (Hall : Forall (fun y => cmp x y = 0%Z) (filter (fun y => (cmp x y =? 0)%Z) l)).
  { apply Forall_forall. intros y Hy. apply filter_In in Hy. now apply Z.eqb_eq. }
  induction Hall as [|y s Hy Hs IH]; constructor; [exact IH|].
  eapply Forall_impl; [|exact Hs]. intros z Hz.
  apply (cmp_trans y x z); unfold le.
  - rewrite (cmp_tie_sym x y Hy). lia.
  - rewrite Hz. lia.
Qed.

End ArraySortFacts.

(** Any stable sort agrees with the model: for a consistent comparator there
    is one sorted permutation of the input that keeps tied elements in input
    order. *)
Section StableSortUnique.
Context {A : Type} (cmp : A -> A -> Z).

Let le (a b : A) : Prop := (cmp a b <= 0)%Z.
Let tie (a b : A) : bool := (cmp a b =? 0)%Z.

Hypothesis cmp_trans : forall a b c, le a b -> le b c -> le a c.
Hypothesis cmp_total : forall a b, ~ le a b -> le b a.
Hypothesis cmp_tie_sym : forall a b, cmp a b = 0%Z -> cmp b a = 0%Z.
Hypothesis cmp_antisym : forall a b, le a b -> le b a -> cmp a b = 0%Z.

Lemma le_refl_of_total (a : A) : le a a.
Proof.
  destruct (Z_le_dec (cmp a a) 0) as [H|H]; [exact H | now apply cmp_total].
Qed.

Lemma sorted_head_le (a : A) (l : list A) (b : A) :
  StronglySorted le (a :: l) -> In b (a :: l) -> le a b.
Proof.
  intros Hs [<-|Hb]; [apply le_refl_of_total|].
  apply StronglySorted_inv in Hs. destruct Hs as [_ Hall].
  rewrite Forall_forall in Hall. now apply Hall.
Qed.

Lemma stable_sorted_unique (l1 l2 : list A) :
  Permutation l1 l2 ->
  StronglySorted le l1 -> StronglySorted le l2 ->
  (forall x, filter (tie x) l1 = filter (tie x) l2) ->
  l1 = l2.
Proof.
  revert l2. induction l1 as [|a l1 IH]; intros l2 Hp Hs1 Hs2 Hf.
  - apply Permutation_nil in Hp. now subst.
  - destruct l2 as [|b l2];
      [apply Permutation_sym, Permutation_nil in Hp; discriminate|].
    assert (Hab : le a b).
    { apply (sorted_head_le a l1 b Hs1).
      apply (Permutation_in _ (Permutation_sym Hp)). now left. }
    assert (Hba : le b a).
    { apply (sorted_head_le b l2 a Hs2).
      apply (Permutation_in _ Hp). now left. }
    assert (Haa : tie a a = true).
    { apply Z.eqb_eq, cmp_antisym; apply le_refl_of_total. }
    assert (Htab : tie a b = true) by (apply Z.eqb_eq; now apply cmp_antisym).
    pose proof (Hf a) as Hfa. cbn [filter] in Hfa. rewrite Haa, Htab in Hfa.
    injection Hfa as <- _.
    f_equal. apply IH.
    + now apply Permutation_cons_inv in Hp.
    + now apply StronglySorted_inv in Hs1.
    + now apply StronglySorted_inv in Hs2.
    + intro x. specialize (Hf x). cbn [filter] in Hf.
      destruct (tie x a); [now injection Hf | exact Hf].
Qed.

Lemma stable_sort_unique (l l' : list A) :
  Permutation l l' ->
  StronglySorted le l' ->
  (forall x, filter (tie x) l' = filter (tie x) l) ->
  l' = Array_sort cmp l.
Proof.
  intros Hp Hs Hf. apply stable_sorted_unique.
  - rewrite <- Hp. apply Array_sort_perm.
  - exact Hs.
  - now apply Array_sort_sorted.
  - intro x. rewrite Hf. symmetry. now apply Array_sort_stable.
Qed.

End StableSortUnique.

(** ** Ranking engine: the comparator realises the ranking rule *)

Ltac qbool_cases :=
  repeat match goal with
  | |- context [Qlt_bool ?a ?b] =>
      let E := fresh "E" in
      destruct (Qlt_bool a b) eqn:E;
      [apply Qlt_bool_iff in E | apply Qlt_bool_false_iff in E]
  end.

Lemma compareTeams_cases (a b : Team) :
  (compareTeams a b = (-1)%Z /\ outranks a b) \/
  (compareTeams a b = 0%Z /\ tied a b) \/
  (compareTeams a b = 1%Z /\ outranks b a).
Proof.
  unfold compareTeams, applyTiebreaker, Qgt_bool, outranks, tied.
  qbool_cases; simpl.
  all: first
    [ left; split; [reflexivity|]; lra
    | left; split; [reflexivity|]; right; split; [lra|]; left; lra
    | left; split; [reflexivity|]; right; split; [lra|]; right; split; lra
    | right; right; split; [reflexivity|]; lra
    | right; right; split; [reflexivity|]; right; split; [lra|]; left; lra
    | right; right; split; [reflexivity|]; right; split; [lra|]; right; split; lra
    | right; left; split; [reflexivity|]; repeat split; lra ].
Qed.

Lemma outranks_asym (a b : Team) : outranks a b -> ~ (outranks b a \/ tied b a).
Proof. unfold outranks, tied. intros H [H'|H']; intuition lra. Qed.

Lemma compareTeams_neg_iff (a b : Team) :
  (compareTeams a b < 0)%Z <-> outranks a b.
Proof.
  destruct (compareTeams_cases a b) as [[E H]|[[E H]|[E H]]]; rewrite E;
    split; intro H'; try lia; try assumption; exfalso.
  - unfold outranks, tied in *. intuition lra.
  - apply (outranks_asym _ _ H). now left.
Qed.

Lemma compareTeams_zero_iff (a b : Team) :
  compareTeams a b = 0%Z <-> tied a b.
Proof.
  destruct (compareTeams_cases a b) as [[E H]|[[E H]|[E H]]]; rewrite E;
    split; intro H'; try lia; try assumption; try reflexivity; exfalso;
    unfold outranks, tied in *; intuition lra.
Qed.

Lemma compareTeams_le_iff (a b : Team) :
  (compareTeams a b <= 0)%Z <-> outranks a b \/ tied a b.
Proof.
  rewrite <- compareTeams_neg_iff, <- compareTeams_zero_iff. lia.
Qed.

Lemma compareTeams_trans (a b c : Team) :
  (compareTeams a b <= 0)%Z -> (compareTeams b c <= 0)%Z ->
  (compareTeams a c <= 0)%Z.
Proof.
  rewrite !compareTeams_le_iff. unfold outranks, tied.
  intros H1 H2.
  destruct (Q_dec (pointPercentage a) (pointPercentage c)) as [[Hp|Hp]|Hp];
    [exfalso; intuition lra | left; left; exact Hp |].
  destruct (Q_dec (gamesPlayed a) (gamesPlayed c)) as [[Hg|Hg]|Hg];
    [left; right; split; [exact Hp|]; left; exact Hg
    | exfalso; intuition lra |].
  destruct (Q_dec (regulationWins a) (regulationWins c)) as [[Hr|Hr]|Hr];
    [exfalso; intuition lra
    | left; right; split; [exact Hp|]; right; split; assumption
    | right; repeat split; assumption].
Qed.

Lemma compareTeams_total (a b : Team) :
  ~ (compareTeams a b <= 0)%Z -> (compareTeams b a <= 0)%Z.
Proof.
  intro H. apply compareTeams_le_iff. left.
  destruct (compareTeams_cases a b) as [[E _]|[[E _]|[E Ho]]];
    [lia | lia | exact Ho].
Qed.

Lemma compareTeams_tie_sym (a b : Team) :
  compareTeams a b = 0%Z -> compareTeams b a = 0%Z.
Proof.
  rewrite !compareTeams_zero_iff. unfold tied. intuition lra.
Qed.

Lemma tiedb_compareTeams (a b : Team) :
  tiedb a b = (compareTeams a b =? 0)%Z.
Proof.
  destruct (compareTeams a b =? 0)%Z eqn:E.
  - apply Z.eqb_eq, compareTeams_zero_iff in E. destruct E as (E1 & E2 & E3).
    unfold tiedb. apply Qeq_bool_iff in E1, E2, E3. now rewrite E1, E2, E3.
  - destruct (tiedb a b) eqn:T; [|reflexivity]. exfalso.
    apply Z.eqb_neq in E. apply E, compareTeams_zero_iff.
    unfold tiedb in T. apply andb_prop in T. destruct T as [T T3].
    apply andb_prop in T. destruct T as [T1 T2].
    apply Qeq_bool_iff in T1, T2, T3. now repeat split.
Qed.

Lemma StronglySorted_placed_before {A : Type} (R : A -> A -> Prop) (l : list A) (a b : A) :
  StronglySorted R l -> placed_before l a b -> R a b.
Proof.
  intros Hs (l1 & l2 & l3 & ->).
  induction l1 as [|x l1 IH]; simpl in Hs.
  - apply StronglySorted_inv in Hs. destruct Hs as [_ Hall].
    rewrite Forall_forall in Hall. apply Hall. apply in_or_app. right. now left.
  - apply StronglySorted_inv in Hs. now apply IH.
Qed.

Lemma sortTeamsByStandings_sorted (teams : list Team) :
  StronglySorted (fun a b => outranks a b \/ tied a b) (sortTeamsByStandings teams).
Proof.
  eapply StronglySorted_ind with (P := StronglySorted (fun a b => outranks a b \/ tied a b)).
  3: exact (Array_sort_sorted compareTeams compareTeams_trans compareTeams_total teams).
  - constructor.
  - intros a l _ IH Hall. constructor; [exact IH|].
    eapply Forall_impl; [|exact Hall]. intros b. apply compareTeams_le_iff.
Qed.

Lemma compareTeams_antisym (a b : Team) :
  (compareTeams a b <= 0)%Z -> (compareTeams b a <= 0)%Z ->
  compareTeams a b = 0%Z.
Proof.
  intros Hab Hba.
  destruct (compareTeams_cases a b) as [[E Ho]|[[E _]|[E _]]]; [|exact E|lia].
  exfalso. apply (outranks_asym a b Ho). now apply compareTeams_le_iff.
Qed.

(** Whatever stable sort the engine runs, it returns what the model returns. *)
Lemma sortTeamsByStandings_unique (teams sorted : list Team) :
  Permutation teams sorted ->
  StronglySorted (fun a b => (compareTeams a b <= 0)%Z) sorted ->
  (forall t, filter (fun u => (compareTeams t u =? 0)%Z) sorted =
             filter (fun u => (compareTeams t u =? 0)%Z) teams) ->
  sorted = sortTeamsByStandings teams.
Proof.
  apply stable_sort_unique.
  - apply compareTeams_trans.
  - apply compareTeams_total.
  - apply compareTeams_tie_sym.
  - apply compareTeams_antisym.
Qed.

(** The orderings tests/calculations.test.ts expects. *)
Example sortTeamsByStandings_tests :
  map id (sortTeamsByStandings
            [createTeam 1 0.500 40 15; createTeam 2 0.700 40 15;
             createTeam 3 0.600 40 15]) = [2; 3; 1]%nat /\
  map id (sortTeamsByStandings
            [createTeam 1 0.600 40 15; createTeam 2 0.600 35 15;
             createTeam 3 0.600 38 15]) = [2; 3; 1]%nat /\
  map id (sortTeamsByStandings
            [createTeam 1 0.600 40 15; createTeam 2 0.600 40 20;
             createTeam 3 0.600 40 15]) = [2; 1; 3]%nat.
Proof. repeat split; reflexivity. Qed.

(** C3. [sortTeamsByStandings] returns its input reordered so that whenever
    [a] is placed before [b], [a] does not have the lower point percentage;
    at equal percentage it has not played more games; at equal percentage and
    games it does not have fewer regulation wins; and the teams equal on all
    three keys keep their input order, whatever their other fields hold. *)
Theorem sortTeamsByStandings_spec (teams : list Team) :
  let sorted := sortTeamsByStandings teams in
  Permutation teams sorted /\
  (forall a b, placed_before sorted a b ->
     pointPercentage b <= pointPercentage a /\
     (pointPercentage a == pointPercentage b ->
      gamesPlayed a <= gamesPlayed b) /\
     (pointPercentage a == pointPercentage b ->
      gamesPlayed a == gamesPlayed b ->
      regulationWins b <= regulationWins a)) /\
  (forall a b, outranks a b -> ~ placed_before sorted b a) /\
  (forall t, filter (tiedb t) sorted = filter (tiedb t) teams).
Proof.
  intro sorted. split; [apply Array_sort_perm|]. split; [|split].
  - intros a b Hab.
    pose proof (StronglySorted_placed_before _ _ a b
                  (sortTeamsByStandings_sorted teams) Hab) as H.
    unfold outranks, tied in H. repeat split; intros; intuition lra.
  - intros a b Ho Hba.
    pose proof (StronglySorted_placed_before _ _ b a
                  (sortTeamsByStandings_sorted teams) Hba) as H.
    exact (outranks_asym a b Ho H).
  - intro t. unfold sorted, sortTeamsByStandings.
    rewrite !(filter_ext (tiedb t) (fun y => (compareTeams t y =? 0)%Z)
                (tiedb_compareTeams t)).
    apply Array_sort_stable.
    + apply compareTeams_trans.
    + apply compareTeams_total.
    + apply compareTeams_tie_sym.
Qed.

(** ** Insertion-ordered grouping *)

Section Grouping.
Context {A : Type} (key : A -> string).

Let push (groups : list (string * list A)) (x : A) := group_push groups (key x) x.

Lemma group_members_push (k k' : string) (x : A) (groups : list (string * list A)) :
  group_members k (group_push groups k' x) =
  if String.eqb k' k then group_members k groups ++ [x]
  else group_members k groups.
Proof.
  unfold group_members.
  induction groups as [|[k0 ms] rest IH]; simpl.
  - now destruct (String.eqb k' k).
  - destruct (String.eqb k0 k') eqn:E0; simpl.
    + apply String.eqb_eq in E0. subst k0.
      now destruct (String.eqb k' k).
    + destruct (String.eqb k0 k) eqn:E1; [|exact IH].
      apply String.eqb_eq in E1. subst k0.
      rewrite String.eqb_sym in E0. now rewrite E0.
Qed.

Lemma group_keys_push (k k' : string) (x : A) (groups : list (string * list A)) :
  In k (map fst (group_push groups k' x)) <-> k = k' \/ In k (map fst groups).
Proof.
  induction groups as [|[k0 ms] rest IH]; simpl.
  - intuition.
  - destruct (String.eqb k0 k') eqn:E0; simpl.
    + apply String.eqb_eq in E0. subst k0. intuition.
    + rewrite IH. intuition.
Qed.

Lemma group_push_NoDup (k : string) (x : A) (groups : list (string * list A)) :
  NoDup (map fst groups) -> NoDup (map fst (group_push groups k x)).
Proof.
  induction groups as [|[k0 ms] rest IH]; simpl; intro H.
  - repeat constructor. intros [].
  - inversion H as [|? ? Hnotin Hrest]; subst.
    destruct (String.eqb k0 k) eqn:E0; simpl.
    + now constructor.
    + constructor; [|now apply IH].
      rewrite group_keys_push. intros [->|Hin]; [|contradiction].
      now rewrite String.eqb_refl in E0.
Qed.

Lemma group_push_perm (k : string) (x : A) (groups : list (string * list A)) :
  Permutation (concat (map snd (group_push groups k x)))
              (concat (map snd groups) ++ [x]).
Proof.
  induction groups as [|[k0 ms] rest IH]; simpl; [reflexivity|].
  destruct (String.eqb k0 k); simpl.
  - rewrite <- !app_assoc. apply Permutation_app_head, Permutation_app_comm.
  - rewrite <- app_assoc. now apply Permutation_app_head.
Qed.

Lemma group_push_keyed (k : string) (x : A) (groups : list (string * list A)) :
  key x = k ->
  Forall (fun g => Forall (fun y => key y = fst g) (snd g)) groups ->
  Forall (fun g => Forall (fun y => key y = fst g) (snd g)) (group_push groups k x).
Proof.
  intros Hk. induction 1 as [|[k0 ms] rest Hg Hrest IH]; simpl.
  - repeat constructor. exact Hk.
  - destruct (String.eqb k0 k) eqn:E0.
    + apply String.eqb_eq in E0. subst k0. constructor; [|exact Hrest].
      simpl in *. apply Forall_app. split; [exact Hg|]. now repeat constructor.
    + now constructor.
Qed.

Lemma fold_push_members (k : string) (l : list A) (groups : list (string * list A)) :
  group_members k (fold_left push l groups) =
  group_members k groups ++ filter (fun x => String.eqb (key x) k) l.
Proof.
  revert groups. induction l as [|x l IH]; intro groups; simpl.
  - now rewrite app_nil_r.
  - rewrite IH. unfold push. rewrite group_members_push.
    destruct (String.eqb (key x) k); [now rewrite <- app_assoc | reflexivity].
Qed.

Lemma fold_push_NoDup (l : list A) (groups : list (string * list A)) :
  NoDup (map fst groups) -> NoDup (map fst (fold_left push l groups)).
Proof.
  revert groups. induction l as [|x l IH]; intros groups H; simpl; [exact H|].
  apply IH. now apply group_push_NoDup.
Qed.

Lemma fold_push_perm (l : list A) (groups : list (string * list A)) :
  Permutation (concat (map snd (fold_left push l groups)))
              (concat (map snd groups) ++ l).
Proof.
  revert groups. induction l as [|x l IH]; intro groups; simpl.
  - now rewrite app_nil_r.
  - rewrite IH. unfold push. rewrite group_push_perm.
    now rewrite <- app_assoc.
Qed.

Lemma fold_push_keyed (l : list A) (groups : list (string * list A)) :
  Forall (fun g => Forall (fun y => key y = fst g) (snd g)) groups ->
  Forall (fun g => Forall (fun y => key y = fst g) (snd g)) (fold_left push l groups).
Proof.
  revert groups. induction l as [|x l IH]; intros groups H; simpl; [exact H|].
  apply IH. now apply group_push_keyed.
Qed.

Lemma groupBy_NoDup (l : list A) : NoDup (map fst (groupBy key l)).
Proof. apply fold_push_NoDup. constructor. Qed.

Lemma groupBy_members (k : string) (l : list A) :
  group_members k (groupBy key l) = filter (fun x => String.eqb (key x) k) l.
Proof. exact (fold_push_members k l []). Qed.

Lemma groupBy_perm (l : list A) :
  Permutation (concat (map snd (groupBy key l))) l.
Proof. exact (fold_push_perm l []). Qed.

Lemma groupBy_keyed (l : list A) :
  Forall (fun g => Forall (fun y => key y = fst g) (snd g)) (groupBy key l).
Proof. apply fold_push_keyed. constructor. Qed.

Lemma group_members_absent {B : Type} (k : string) (groups : list (string * list B)) :
  ~ In k (map fst groups) -> group_members k groups = [].
Proof.
  unfold group_members. induction groups as [|[k0 ms] rest IH]; simpl; intro H.
  - reflexivity.
  - destruct (String.eqb k0 k) eqn:E; [|apply IH; tauto].
    apply String.eqb_eq in E. tauto.
Qed.

Section PerGroup.
Context {B : Type} (keyB : B -> string) (treat : list A -> list B).
Hypothesis treat_nil : treat [] = [].
Hypothesis treat_keyed :
  forall k members, Forall (fun x => key x = k) members ->
                    Forall (fun y => keyB y = k) (treat members).

Lemma filter_all_true {C : Type} (p : C -> bool) (l : list C) :
  Forall (fun x => p x = true) l -> filter p l = l.
Proof.
  induction 1 as [|x l Hx _ IH]; simpl; [reflexivity|]. now rewrite Hx, IH.
Qed.

Lemma filter_all_false {C : Type} (p : C -> bool) (l : list C) :
  Forall (fun x => p x = false) l -> filter p l = [].
Proof.
  induction 1 as [|x l Hx _ IH]; simpl; [reflexivity|]. now rewrite Hx, IH.
Qed.

Lemma filter_treated_groups (k : string) (groups : list (string * list A)) :
  NoDup (map fst groups) ->
  Forall (fun g => Forall (fun y => key y = fst g) (snd g)) groups ->
  filter (fun y => String.eqb (keyB y) k)
         (flat_map (fun '(_, members) => treat members) groups) =
  treat (group_members k groups).
Proof.
  intros Hnd Hk. induction Hk as [|[k0 ms] rest Hg Hrest IH]; simpl.
  - symmetry. exact treat_nil.
  - inversion Hnd as [|? ? Hnotin Hnd']; subst. simpl in *.
    rewrite filter_app, (IH Hnd').
    unfold group_members at 2. simpl.
    destruct (String.eqb k0 k) eqn:E.
    + apply String.eqb_eq in E. subst k0.
      rewrite (group_members_absent k rest Hnotin), treat_nil, app_nil_r.
      apply filter_all_true.
      eapply Forall_impl; [|exact (treat_keyed k ms Hg)].
      intros y Hy. simpl in Hy. rewrite Hy. apply String.eqb_refl.
    + fold (group_members k rest).
      rewrite filter_all_false; [reflexivity|].
      eapply Forall_impl; [|exact (treat_keyed k0 ms Hg)].
      intros y Hy. simpl in Hy. now rewrite Hy.
Qed.

(** Selecting one key of the treated groups yields that group, treated. *)
Lemma per_group_filter (k : string) (l : list A) :
  filter (fun y => String.eqb (keyB y) k) (per_group key treat l) =
  treat (filter (fun x => String.eqb (key x) k) l).
Proof.
  unfold per_group.
  rewrite filter_treated_groups by (apply groupBy_NoDup || apply groupBy_keyed).
  now rewrite groupBy_members.
Qed.

End PerGroup.

(** Treating each group by a permutation (up to [erase]) permutes the whole. *)
Lemma per_group_perm {B C : Type} (treat : list A -> list B)
  (eraseA : A -> C) (eraseB : B -> C) (l : list A) :
  (forall members, Permutation (map eraseB (treat members)) (map eraseA members)) ->
  Permutation (map eraseB (per_group key treat l)) (map eraseA l).
Proof.
  intro Ht. unfold per_group.
  rewrite <- (groupBy_perm l) at 2.
  induction (groupBy key l) as [|[k ms] rest IH]; simpl; [constructor|].
  rewrite !map_app. now apply Permutation_app.
Qed.

End Grouping.

(** ** List facts used by the classifier *)

Lemma Permutation_filter {A : Type} (p : A -> bool) (l l' : list A) :
  Permutation l l' -> Permutation (filter p l) (filter p l').
Proof.
  induction 1 as [|x l l' _ IH|x y l|l l' l'' _ IH1 _ IH2]; simpl.
  - constructor.
  - destruct (p x); [now constructor | exact IH].
  - destruct (p x), (p y); try reflexivity. apply perm_swap.
  - now transitivity (filter p l').
Qed.

Lemma filter_map_swap {A B : Type} (p : B -> bool) (f : A -> B) (l : list A) :
  filter p (map f l) = map f (filter (fun x => p (f x)) l).
Proof.
  induction l as [|x l IH]; simpl; [reflexivity|].
  destruct (p (f x)); simpl; now rewrite IH.
Qed.

Lemma filter_andb {A : Type} (p q : A -> bool) (l : list A) :
  filter (fun x => p x && q x) l = filter p (filter q l).
Proof.
  induction l as [|x l IH]; simpl; [reflexivity|].
  destruct (q x); simpl; rewrite ?andb_true_r, ?andb_false_r;
    [destruct (p x)|]; now rewrite IH.
Qed.

Lemma StronglySorted_filter {A : Type} (R : A -> A -> Prop) (p : A -> bool) (l : list A) :
  StronglySorted R l -> StronglySorted R (filter p l).
Proof.
  induction 1 as [|x l Hs IH Hx]; simpl; [constructor|].
  destruct (p x); [|exact IH]. constructor; [exact IH|].
  rewrite Forall_forall in Hx |- *. intros y Hy. apply Hx.
  apply filter_In in Hy. tauto.
Qed.

Lemma NoDup_map_inj {A B : Type} (f : A -> B) (l : list A) (a b : A) :
  NoDup (map f l) -> In a l -> In b l -> f a = f b -> a = b.
Proof.
  induction l as [|x l IH]; simpl; intros Hnd Ha Hb Hf; [contradiction|].
  inversion Hnd as [|? ? Hnotin Hnd']; subst.
  destruct Ha as [->|Ha], Hb as [->|Hb]; try reflexivity.
  - exfalso. apply Hnotin. rewrite Hf. now apply in_map.
  - exfalso. apply Hnotin. rewrite <- Hf. now apply in_map.
  - now apply IH.
Qed.

Lemma NoDup_map_filter {K T : Type} (key : T -> K) (keep : T -> bool)
  (items : list T) (Hnd : NoDup (map key items)) :
  NoDup (map key (filter keep items)).
Proof.
  induction items as [|x rest IH]; simpl in *; [constructor|].
  apply NoDup_cons_iff in Hnd. destruct Hnd as [Hfresh Hrest].
  destruct (keep x); simpl; [|now apply IH].
  apply NoDup_cons_iff. split; [|now apply IH].
  rewrite in_map_iff in *. intros (y & Hy & Hin).
  apply Hfresh. exists y. apply filter_In in Hin. tauto.
Qed.

Lemma Forall2_firstn {A B : Type} (R : A -> B -> Prop) (n : nat) (l : list A) (l' : list B) :
  Forall2 R l l' -> Forall2 R (firstn n l) (firstn n l').
Proof.
  intro H. revert n. induction H as [|x y l l' Hxy _ IH]; intro n.
  - rewrite !firstn_nil. constructor.
  - destruct n; simpl; constructor; [exact Hxy | apply IH].
Qed.

Lemma Forall2_In_l {A B : Type} (R : A -> B -> Prop) (l : list A) (l' : list B) (x : A) :
  Forall2 R l l' -> In x l -> exists y, In y l' /\ R x y.
Proof.
  induction 1 as [|a b l l' Hab _ IH]; simpl; [contradiction|].
  intros [->|Hin]; [exists b; auto|].
  destruct (IH Hin) as (y & Hy & HR). exists y; auto.
Qed.

Lemma Forall2_In_r {A B : Type} (R : A -> B -> Prop) (l : list A) (l' : list B) (y : B) :
  Forall2 R l l' -> In y l' -> exists x, In x l /\ R x y.
Proof.
  induction 1 as [|a b l l' Hab _ IH]; simpl; [contradiction|].
  intros [->|Hin]; [exists a; auto|].
  destruct (IH Hin) as (x & Hx & HR). exists x; auto.
Qed.

Lemma In_firstn {A : Type} (n : nat) (l : list A) (x : A) :
  In x (firstn n l) -> In x l.
Proof.
  intro H. rewrite <- (firstn_skipn n l). apply in_or_app. now left.
Qed.

(** *** Indexed maps *)

Section Mapi.
Context {A B : Type} (f : nat -> A -> B).

Lemma mapi_from_length (s : nat) (l : list A) :
  length (mapi_from s f l) = length l.
Proof. revert s. induction l as [|x l IH]; intro s; simpl; [|rewrite IH]; reflexivity. Qed.

Lemma mapi_from_rel (s : nat) (l : list A) :
  Forall2 (fun x y => exists i, y = f i x) l (mapi_from s f l).
Proof.
  revert s. induction l as [|x l IH]; intro s; simpl; constructor; [|apply IH].
  now exists s.
Qed.

Lemma mapi_from_map_const {C : Type} (g : B -> C) (h : A -> C) (s : nat) (l : list A) :
  (forall i x, g (f i x) = h x) ->
  map g (mapi_from s f l) = map h l.
Proof.
  intro H. revert s. induction l as [|x l IH]; intro s; simpl; [reflexivity|].
  now rewrite H, IH.
Qed.

Lemma mapi_from_map_index (g : B -> nat) (s : nat) (l : list A) :
  (forall i x, g (f i x) = (i + 1)%nat) ->
  map g (mapi_from s f l) = seq (s + 1) (length l).
Proof.
  intro H. revert s. induction l as [|x l IH]; intro s; simpl; [reflexivity|].
  rewrite H, IH. reflexivity.
Qed.

Lemma mapi_from_filter (p : B -> bool) (q : A -> bool) (s : nat) (l : list A) :
  (forall i x, p (f i x) = q x) ->
  Forall2 (fun x y => exists i, y = f i x) (filter q l) (filter p (mapi_from s f l)).
Proof.
  intro H. revert s. induction l as [|x l IH]; intro s; simpl; [constructor|].
  rewrite H. destruct (q x); [constructor; [now exists s | apply IH] | apply IH].
Qed.

Lemma mapi_from_index_lower (g : B -> nat) (s : nat) (l : list A) :
  (forall i x, g (f i x) = (i + 1)%nat) ->
  Forall (fun y => (s + 1 <= g y)%nat) (mapi_from s f l).
Proof.
  intro Hg. revert s. induction l as [|x l IH]; intro s; simpl; constructor.
  - rewrite Hg. lia.
  - eapply Forall_impl; [|apply (IH (S s))]. intros y Hy. simpl in Hy. lia.
Qed.

(** The images of a sorted list, with their indices, are in index order. *)
Lemma mapi_from_sorted (R : A -> A -> Prop) (R' : B -> B -> Prop) (g : B -> nat)
  (s : nat) (l : list A) :
  (forall i x, g (f i x) = (i + 1)%nat) ->
  (forall i j a b, R a b -> R' (f i a) (f j b)) ->
  StronglySorted R l ->
  StronglySorted (fun y1 y2 => (g y1 < g y2)%nat /\ R' y1 y2) (mapi_from s f l).
Proof.
  intros Hg HR Hs. revert s.
  induction Hs as [|x l Hs IH Hx]; intro s; simpl; constructor; [apply IH|].
  pose proof (mapi_from_index_lower g (S s) l Hg) as Hge.
  pose proof (mapi_from_rel (S s) l) as Hrel.
  apply Forall_forall. intros y Hy.
  rewrite Forall_forall in Hge. split; [rewrite Hg; apply Hge in Hy; lia|].
  destruct (Forall2_In_r _ _ _ y Hrel Hy) as (x' & Hx' & j & ->).
  apply HR. rewrite Forall_forall in Hx. now apply Hx.
Qed.

End Mapi.

Lemma mapi_from_map {A B C : Type} (f : nat -> B -> C) (h : A -> B) (s : nat) (l : list A) :
  mapi_from s f (map h l) = mapi_from s (fun i x => f i (h x)) l.
Proof.
  revert s. induction l as [|x l IH]; intro s; simpl; [reflexivity|]. now rewrite IH.
Qed.

(** In a list ordered by a strictly increasing rank, a lower rank means an
    earlier position. *)
Lemma ranked_sorted_pairwise {A : Type} (g : A -> nat) (R : A -> A -> Prop) (l : list A) :
  StronglySorted (fun y1 y2 => (g y1 < g y2)%nat /\ R y1 y2) l ->
  forall a b, In a l -> In b l -> (g a < g b)%nat -> R a b.
Proof.
  induction 1 as [|x l Hs IH Hx]; intros a b Ha Hb Hlt; [contradiction|].
  rewrite Forall_forall in Hx.
  destruct Ha as [->|Ha], Hb as [->|Hb].
  - lia.
  - now apply Hx.
  - apply Hx in Ha. lia.
  - now apply IH.
Qed.

(** ** Classifier *)

Lemma compareTeams_keys (a a' b b' : Team) :
  pointPercentage a = pointPercentage a' ->
  gamesPlayed a = gamesPlayed a' ->
  regulationWins a = regulationWins a' ->
  pointPercentage b = pointPercentage b' ->
  gamesPlayed b = gamesPlayed b' ->
  regulationWins b = regulationWins b' ->
  compareTeams a b = compareTeams a' b'.
Proof.
  intros H1 H2 H3 H4 H5 H6. unfold compareTeams, applyTiebreaker.
  now rewrite H1, H2, H3, H4, H5, H6.
Qed.

Lemma identifyDivisionLeaders_per_group (teams : list Team) :
  identifyDivisionLeaders teams = per_group division rankDivision teams.
Proof. reflexivity. Qed.

Lemma identifyWildCards_per_group (teams : list Team) :
  identifyWildCards teams = per_group conference flagWildCards teams.
Proof. reflexivity. Qed.

Lemma calculateConferenceRanks_per_group (teams : list Team) :
  calculateConferenceRanks teams = per_group conference rankConference teams.
Proof. reflexivity. Qed.

(** Each pass keeps whatever its overrides do not touch. *)
Section Erasure.
Context {C : Type} (erase : Team -> C).

Lemma rankDivision_perm (members : list Team) :
  (forall b r t, erase (set_division b r t) = erase t) ->
  Permutation (map erase (rankDivision members)) (map erase members).
Proof.
  intro He. unfold rankDivision, mapi.
  rewrite (mapi_from_map_const _ erase erase) by (intros; apply He).
  apply Permutation_map. symmetry. apply Array_sort_perm.
Qed.

Lemma flagWildCards_perm (members : list Team) :
  (forall b t, erase (set_isWildCard b t) = erase t) ->
  Permutation (map erase (flagWildCards members)) (map erase members).
Proof.
  intro He. unfold flagWildCards. rewrite map_map.
  erewrite map_ext; [reflexivity|]. intro t. apply He.
Qed.

Lemma rankConference_perm (members : list Team) :
  (forall r t, erase (set_conferenceRank r t) = erase t) ->
  Permutation (map erase (rankConference members)) (map erase members).
Proof.
  intro He. unfold rankConference, mapi.
  rewrite (mapi_from_map_const _ erase erase) by (intros; apply He).
  apply Permutation_map. symmetry. apply Array_sort_perm.
Qed.

Lemma identifyDivisionLeaders_perm (teams : list Team) :
  (forall b r t, erase (set_division b r t) = erase t) ->
  Permutation (map erase (identifyDivisionLeaders teams)) (map erase teams).
Proof.
  intro He. apply per_group_perm. intro ms. now apply rankDivision_perm.
Qed.

Lemma identifyWildCards_perm (teams : list Team) :
  (forall b t, erase (set_isWildCard b t) = erase t) ->
  Permutation (map erase (identifyWildCards teams)) (map erase teams).
Proof.
  intro He. apply per_group_perm. intro ms. now apply flagWildCards_perm.
Qed.

Lemma calculateConferenceRanks_perm (teams : list Team) :
  (forall r t, erase (set_conferenceRank r t) = erase t) ->
  Permutation (map erase (calculateConferenceRanks teams)) (map erase teams).
Proof.
  intro He. apply per_group_perm. intro ms. now apply rankConference_perm.
Qed.

End Erasure.

Lemma classifyTeams_late (teams : list Team) :
  Permutation (map eraseLate (classifyTeams teams))
              (map eraseLate (identifyDivisionLeaders teams)).
Proof.
  unfold classifyTeams.
  rewrite (calculateConferenceRanks_perm eraseLate) by reflexivity.
  apply identifyWildCards_perm. reflexivity.
Qed.

(** The passes keep each group's key. *)
Lemma rankDivision_keyed (k : string) (members : list Team) :
  Forall (fun x => division x = k) members ->
  Forall (fun y => division y = k) (rankDivision members).
Proof.
  intro H. apply Forall_forall. intros y Hy.
  destruct (Forall2_In_r _ _ _ y (mapi_from_rel _ 0 _) Hy) as (x & Hx & i & ->).
  apply Array_sort_In in Hx. rewrite Forall_forall in H. exact (H x Hx).
Qed.

Lemma flagWildCards_keyed (k : string) (members : list Team) :
  Forall (fun x => conference x = k) members ->
  Forall (fun y => conference y = k) (flagWildCards members).
Proof.
  intro H. unfold flagWildCards. apply Forall_map.
  eapply Forall_impl; [|exact H]. intros t Ht. exact Ht.
Qed.

Lemma rankConference_keyed (k : string) (members : list Team) :
  Forall (fun x => conference x = k) members ->
  Forall (fun y => conference y = k) (rankConference members).
Proof.
  intro H. apply Forall_forall. intros y Hy.
  destruct (Forall2_In_r _ _ _ y (mapi_from_rel _ 0 _) Hy) as (x & Hx & i & ->).
  apply Array_sort_In in Hx. rewrite Forall_forall in H. exact (H x Hx).
Qed.

Lemma identifyDivisionLeaders_division (d : string) (teams : list Team) :
  filter (fun t => String.eqb (division t) d) (identifyDivisionLeaders teams) =
  rankDivision (filter (fun t => String.eqb (division t) d) teams).
Proof.
  apply (per_group_filter division division rankDivision); [reflexivity|].
  apply rankDivision_keyed.
Qed.

Lemma identifyWildCards_conference (c : string) (teams : list Team) :
  filter (fun t => String.eqb (conference t) c) (identifyWildCards teams) =
  flagWildCards (filter (fun t => String.eqb (conference t) c) teams).
Proof.
  apply (per_group_filter conference conference flagWildCards); [reflexivity|].
  apply flagWildCards_keyed.
Qed.

Lemma calculateConferenceRanks_conference (c : string) (teams : list Team) :
  filter (fun t => String.eqb (conference t) c) (calculateConferenceRanks teams) =
  rankConference (filter (fun t => String.eqb (conference t) c) teams).
Proof.
  apply (per_group_filter conference conference rankConference); [reflexivity|].
  apply rankConference_keyed.
Qed.

(** Within one treated division, ranks are 1..N down the sorted list. *)
Lemma rankDivision_ranks (members : list Team) :
  map divisionRank (rankDivision members) = seq 1 (length members).
Proof.
  unfold rankDivision, mapi.
  rewrite (mapi_from_map_index _ divisionRank) by reflexivity.
  unfold sortTeamsByStandings. now rewrite Array_sort_length.
Qed.

Lemma rankDivision_sorted (members : list Team) :
  StronglySorted (fun a b => (divisionRank a < divisionRank b)%nat /\
                             (compareTeams a b <= 0)%Z)
                 (rankDivision members).
Proof.
  unfold rankDivision, mapi.
  apply (mapi_from_sorted _ (fun a b => (compareTeams a b <= 0)%Z)).
  - reflexivity.
  - intros i j a b H. exact H.
  - apply Array_sort_sorted; [apply compareTeams_trans | apply compareTeams_total].
Qed.

Lemma rankDivision_leader (members : list Team) (t : Team) :
  In t (rankDivision members) ->
  isDivisionLeader t = (divisionRank t <=? 3)%nat.
Proof.
  intro H.
  destruct (Forall2_In_r _ _ _ t (mapi_from_rel _ 0 _) H) as (x & _ & i & ->).
  simpl. destruct (Nat.ltb_spec i 3), (Nat.leb_spec (i + 1) 3); try reflexivity; lia.
Qed.

Lemma rankConference_ranks (members : list Team) :
  map conferenceRank (rankConference members) = seq 1 (length members).
Proof.
  unfold rankConference, mapi.
  rewrite (mapi_from_map_index _ conferenceRank) by reflexivity.
  unfold sortTeamsByStandings. now rewrite Array_sort_length.
Qed.

Lemma rankConference_sorted (members : list Team) :
  StronglySorted (fun a b => (conferenceRank a < conferenceRank b)%nat /\
                             (compareTeams a b <= 0)%Z)
                 (rankConference members).
Proof.
  unfold rankConference, mapi.
  apply (mapi_from_sorted _ (fun a b => (compareTeams a b <= 0)%Z)).
  - reflexivity.
  - intros i j a b H. exact H.
  - apply Array_sort_sorted; [apply compareTeams_trans | apply compareTeams_total].
Qed.

Lemma classifyTeams_division (d : string) (teams : list Team) :
  Permutation
    (map eraseLate
       (filter (fun t => String.eqb (division t) d) (classifyTeams teams)))
    (map eraseLate
       (rankDivision (filter (fun t => String.eqb (division t) d) teams))).
Proof.
  rewrite <- identifyDivisionLeaders_division.
  pose proof (filter_map_swap (fun t => String.eqb (division t) d) eraseLate) as Hswap.
  simpl in Hswap. rewrite <- !Hswap.
  apply Permutation_filter, classifyTeams_late.
Qed.

Lemma classifyTeams_conference (c : string) (teams : list Team) :
  filter (fun t => String.eqb (conference t) c) (classifyTeams teams) =
  rankConference
    (flagWildCards
       (filter (fun t => String.eqb (conference t) c)
               (identifyDivisionLeaders teams))).
Proof.
  unfold classifyTeams.
  now rewrite calculateConferenceRanks_conference, identifyWildCards_conference.
Qed.

Lemma classifyTeams_from_division (teams : list Team) (t : Team) :
  In t (classifyTeams teams) ->
  exists d, In d (rankDivision
                    (filter (fun x => String.eqb (division x) (division t)) teams)) /\
            eraseLate d = eraseLate t.
Proof.
  intro Ht.
  assert (Hin : In (eraseLate t)
                   (map eraseLate
                      (filter (fun x => String.eqb (division x) (division t))
                              (classifyTeams teams)))).
  { apply in_map, filter_In. split; [exact Ht | apply String.eqb_refl]. }
  apply (Permutation_in _ (classifyTeams_division (division t) teams)) in Hin.
  apply in_map_iff in Hin. destruct Hin as (d & Hd & Hin). now exists d.
Qed.

(** The shape of one classified conference: the sorted conference, each team
    carrying its wild-card flag and its position. *)
Lemma rankConference_flagWildCards (members : list Team) :
  rankConference (flagWildCards members) =
  mapi (fun index team =>
          set_conferenceRank (index + 1)%nat
            (set_isWildCard
               (existsb (Nat.eqb (id team)) (wildCardIdsOf members)) team))
       (sortTeamsByStandings members).
Proof.
  unfold rankConference, flagWildCards, sortTeamsByStandings, mapi.
  rewrite Array_sort_map by (intros; reflexivity).
  now rewrite mapi_from_map.
Qed.

Lemma rankConference_le_sorted (members : list Team) :
  StronglySorted (fun a b => (compareTeams a b <= 0)%Z) (rankConference members).
Proof.
  pose proof (rankConference_sorted members) as H.
  induction H as [|x l _ IH Hx]; constructor; [exact IH|].
  eapply Forall_impl; [|exact Hx]. intros y [_ Hy]. exact Hy.
Qed.

Lemma wildcard_flag_conference (members : list Team) (t : Team) :
  NoDup (map id members) ->
  let ranked := rankConference (flagWildCards members) in
  In t ranked ->
  (isWildCard t = true <->
   In t (firstn 2
           (sortTeamsByStandings
              (filter (fun u => negb (isDivisionLeader u)) ranked)))).
Proof.
  intros Hnd ranked Ht.
  set (nl := fun u : Team => negb (isDivisionLeader u)).
  set (S := sortTeamsByStandings members).
  set (g := fun (index : nat) (team : Team) =>
              set_conferenceRank (index + 1)%nat
                (set_isWildCard
                   (existsb (Nat.eqb (id team)) (wildCardIdsOf members)) team)).
  assert (Hshape : ranked = mapi_from 0 g S)
    by (apply rankConference_flagWildCards).
  assert (Hsorted : sortTeamsByStandings (filter nl ranked) = filter nl ranked).
  { apply Array_sort_sorted_id, StronglySorted_filter, rankConference_le_sorted. }
  rewrite Hsorted.
  assert (Hrel : Forall2 (fun x y => exists i, y = g i x)
                         (filter nl S) (filter nl ranked)).
  { rewrite Hshape. apply mapi_from_filter. reflexivity. }
  assert (Hwt : filter nl S = sortTeamsByStandings (filter nl members)).
  { apply Array_sort_filter; [apply compareTeams_trans | apply compareTeams_total]. }
  apply (Forall2_firstn _ 2) in Hrel. rewrite Hwt in Hrel.
  assert (HndS : NoDup (map id S)).
  { eapply Permutation_NoDup; [|exact Hnd].
    apply Permutation_map, Array_sort_perm. }
  assert (HndR : NoDup (map id ranked)).
  { rewrite Hshape. rewrite (mapi_from_map_const g id id) by reflexivity.
    exact HndS. }
  split.
  - intro Hflag.
    assert (Ht' := Ht). rewrite Hshape in Ht'.
    destruct (Forall2_In_r _ _ _ t (mapi_from_rel g 0 S) Ht') as (s & Hs & i & Hts).
    subst t. simpl in Hflag.
    apply existsb_exists in Hflag. destruct Hflag as (n & Hn & Hsn).
    apply Nat.eqb_eq in Hsn. subst n.
    unfold wildCardIdsOf in Hn. apply in_map_iff in Hn.
    destruct Hn as (w & Hid & Hw).
    assert (HwS : In w S).
    { apply In_firstn in Hw. fold nl in Hw. rewrite <- Hwt in Hw.
      apply filter_In in Hw. tauto. }
    assert (w = s) by (apply (NoDup_map_inj id S); assumption). subst w.
    destruct (Forall2_In_l _ _ _ s Hrel Hw) as (u & Hu & i' & Hus).
    assert (HuR : In u ranked).
    { apply In_firstn in Hu. apply filter_In in Hu. tauto. }
    assert (Heq : u = g i s); [|rewrite <- Heq; exact Hu].
    apply (NoDup_map_inj id ranked); try assumption.
    rewrite Hus. reflexivity.
  - intro Hin.
    destruct (Forall2_In_r _ _ _ t Hrel Hin) as (w & Hw & i & ->).
    simpl. apply existsb_exists. exists (id w). split; [|apply Nat.eqb_refl].
    unfold wildCardIdsOf. now apply in_map.
Qed.

(** The division ranks of the classified teams. *)
Lemma classified_division_ranking (teams : list Team) (d : string) :
  let group := filter (fun t => String.eqb (division t) d) (classifyTeams teams) in
  Permutation (map divisionRank group) (seq 1 (length group)) /\
  length group = length (filter (fun t => String.eqb (division t) d) teams) /\
  (forall a b, In a group -> In b group ->
               (divisionRank a < divisionRank b)%nat ->
               outranks a b \/ tied a b).
Proof.
  intro group.
  pose proof (classifyTeams_division d teams) as Hperm. fold group in Hperm.
  set (ranked := rankDivision (filter (fun t => String.eqb (division t) d) teams)) in *.
  assert (Hranks : Permutation (map divisionRank group) (map divisionRank ranked)).
  { apply (Permutation_map divisionRank) in Hperm.
    rewrite !map_map in Hperm. exact Hperm. }
  assert (Hlen : length group =
                 length (filter (fun t => String.eqb (division t) d) teams)).
  { apply Permutation_length in Hranks. rewrite !length_map in Hranks.
    rewrite Hranks. unfold ranked, rankDivision, mapi, sortTeamsByStandings.
    now rewrite mapi_from_length, Array_sort_length. }
  split; [|split; [exact Hlen|]].
  - rewrite Hranks. unfold ranked. rewrite rankDivision_ranks. now rewrite Hlen.
  - intros a b Ha Hb Hlt.
    assert (Hin : forall x, In x group ->
              exists x', In x' ranked /\ eraseLate x' = eraseLate x).
    { intros x Hx. apply (in_map eraseLate) in Hx.
      apply (Permutation_in _ Hperm) in Hx. apply in_map_iff in Hx.
      destruct Hx as (x' & E & Hx'). now exists x'. }
    destruct (Hin a Ha) as (a' & Ha' & Ea), (Hin b Hb) as (b' & Hb' & Eb).
    apply compareTeams_le_iff.
    rewrite (compareTeams_keys a a' b b');
      try (now apply (f_equal pointPercentage) in Ea)
      || (now apply (f_equal pointPercentage) in Eb)
      || (now apply (f_equal gamesPlayed) in Ea)
      || (now apply (f_equal gamesPlayed) in Eb)
      || (now apply (f_equal regulationWins) in Ea)
      || (now apply (f_equal regulationWins) in Eb).
    apply (ranked_sorted_pairwise divisionRank _ ranked (rankDivision_sorted _));
      try assumption.
    apply (f_equal divisionRank) in Ea, Eb. simpl in Ea, Eb. lia.
Qed.

(** The conference ranks of the classified teams. *)
Lemma classified_conference_ranking (teams : list Team) (c : string) :
  let group := filter (fun t => String.eqb (conference t) c) (classifyTeams teams) in
  map conferenceRank group = seq 1 (length group) /\
  length group = length (filter (fun t => String.eqb (conference t) c) teams) /\
  (forall a b, In a group -> In b group ->
               (conferenceRank a < conferenceRank b)%nat ->
               outranks a b \/ tied a b).
Proof.
  intro group.
  assert (Hlen : length group =
                 length (filter (fun t => String.eqb (conference t) c) teams)).
  { unfold group.
    pose proof (classifyTeams_late teams) as P1.
    pose proof (identifyDivisionLeaders_perm conference teams
                  (fun _ _ _ => eq_refl)) as P2.
    apply (Permutation_map conference) in P1. rewrite !map_map in P1.
    cbn [eraseLate conference set_isWildCard set_conferenceRank] in P1.
    rewrite P2 in P1.
    apply (Permutation_filter (fun k => String.eqb k c)) in P1.
    apply Permutation_length in P1.
    now rewrite !filter_map_swap, !length_map in P1. }
  split; [|split; [exact Hlen|]].
  - unfold group. rewrite classifyTeams_conference.
    rewrite rankConference_ranks. unfold rankConference, mapi, sortTeamsByStandings.
    now rewrite mapi_from_length, Array_sort_length.
  - unfold group. rewrite classifyTeams_conference.
    set (members := flagWildCards _).
    intros a b Ha Hb Hlt. apply compareTeams_le_iff.
    now apply (ranked_sorted_pairwise conferenceRank _ _ (rankConference_sorted members)).
Qed.

(** The wild-card flag of a classified team. *)
Lemma classified_wild_card_iff (teams : list Team) (t : Team) :
  NoDup (map id teams) ->
  In t (classifyTeams teams) ->
  (isWildCard t = true <->
   In t (firstn 2
           (sortTeamsByStandings
              (filter (fun u => negb (isDivisionLeader u) &&
                                String.eqb (conference u) (conference t))
                      (classifyTeams teams))))).
Proof.
  intros Hnd Ht. rewrite filter_andb.
  rewrite classifyTeams_conference.
  apply wildcard_flag_conference.
  - apply NoDup_map_filter.
    eapply Permutation_NoDup; [|exact Hnd].
    symmetry. apply identifyDivisionLeaders_perm. reflexivity.
  - rewrite <- classifyTeams_conference. apply filter_In.
    split; [exact Ht | apply String.eqb_refl].
Qed.

(** The passes rewrite the four classification fields and nothing else. *)
Lemma classified_inputs (teams : list Team) :
  Permutation (map eraseClassification (classifyTeams teams))
              (map eraseClassification teams).
Proof.
  unfold classifyTeams.
  rewrite (calculateConferenceRanks_perm eraseClassification) by reflexivity.
  rewrite (identifyWildCards_perm eraseClassification) by reflexivity.
  now apply identifyDivisionLeaders_perm.
Qed.

(** C4. After the three classification passes on teams with distinct ids,
    the classified teams are the given teams, each once, with nothing but
    the four classification fields rewritten.  Within every division the
    division ranks are a permutation of 1..N, N being the number of given
    teams of the division, and follow the standing order; within every
    conference the conference ranks are 1..N down the standing order; a
    team is a division leader exactly when its division rank is at most 3;
    and it is a wild card exactly when it is one of the first two
    non-leaders of its conference in standing order. *)
Theorem classifyTeams_spec (teams : list Team) :
  NoDup (map id teams) ->
  let classified := classifyTeams teams in
  Permutation (map eraseClassification classified) (map eraseClassification teams) /\
  (forall d,
     let group := filter (fun t => String.eqb (division t) d) classified in
     Permutation (map divisionRank group) (seq 1 (length group)) /\
     length group = length (filter (fun t => String.eqb (division t) d) teams) /\
     (forall a b, In a group -> In b group ->
                  (divisionRank a < divisionRank b)%nat ->
                  outranks a b \/ tied a b)) /\
  (forall c,
     let group := filter (fun t => String.eqb (conference t) c) classified in
     map conferenceRank group = seq 1 (length group) /\
     length group = length (filter (fun t => String.eqb (conference t) c) teams) /\
     (forall a b, In a group -> In b group ->
                  (conferenceRank a < conferenceRank b)%nat ->
                  outranks a b \/ tied a b)) /\
  (forall t, In t classified ->
     (isDivisionLeader t = true <-> (divisionRank t <= 3)%nat)) /\
  (forall t, In t classified ->
     (isWildCard t = true <->
      In t (firstn 2
              (sortTeamsByStandings
                 (filter (fun u => negb (isDivisionLeader u) &&
                                   String.eqb (conference u) (conference t))
                         classified))))).
Proof.
  intros Hnd classified. split; [|split; [|split; [|split]]].
  - apply classified_inputs.
  - intro d. apply classified_division_ranking.
  - intro c. apply classified_conference_ranking.
  - intros t Ht.
    destruct (classifyTeams_from_division teams t Ht) as (d & Hd & E).
    apply rankDivision_leader in Hd.
    pose proof (f_equal isDivisionLeader E) as E1.
    pose proof (f_equal divisionRank E) as E2. simpl in E1, E2.
    rewrite <- E1, <- E2, Hd. apply Nat.leb_le.
  - intros t Ht. now apply classified_wild_card_iff.
Qed.

(** ** Validator *)

Lemma bind_Return {A B : Type} (c : Completion A) (k : A -> Completion B) (b : B) :
  bind c k = Return b -> exists a, c = Return a /\ k a = Return b.
Proof. destruct c as [a|m]; [eauto | discriminate]. Qed.

Lemma bind_Throws {A B : Type} (c : Completion A) (k : A -> Completion B) (m : string) :
  bind c k = Throws m ->
  c = Throws m \/ exists a, c = Return a /\ k a = Throws m.
Proof.
  destruct c as [a|m']; cbn [bind]; [eauto|].
  intro H. injection H as ->. now left.
Qed.

(** Take a [Return] of sequenced steps apart. *)
Ltac unbind H :=
  repeat match type of H with
  | bind ?c ?k = Return _ =>
      let v := fresh "v" in
      let E := fresh "E" in
      apply bind_Return in H; destruct H as (v & E & H); cbv beta in H
  end.

Section ValidatorFacts.
Variable coerce : Coercions.

(** Primitives are converted without a call to the engine. *)
Lemma ToPrimitive_primitive (hint : Hint) (v : JsValue) :
  primitive v = true -> ToPrimitive coerce hint v = Return v.
Proof. unfold ToPrimitive. now intros ->. Qed.

Lemma js_add_primitive (a b : JsValue) :
  primitive a = true -> primitive b = true ->
  exists v, js_add coerce a b = Return v /\ primitive v = true.
Proof.
  intros Ha Hb. unfold js_add. rewrite !ToPrimitive_primitive by assumption.
  cbn [bind]. eexists. split; [reflexivity|].
  destruct a, b; try reflexivity; try discriminate;
    destruct (add_mixed coerce _ _); reflexivity.
Qed.

Lemma js_mul_primitive (a b : JsValue) :
  primitive a = true -> primitive b = true ->
  exists n, js_mul coerce a b = Return (JsNumber n).
Proof.
  intros Ha Hb. unfold js_mul, ToNumber. rewrite !ToPrimitive_primitive by assumption.
  cbn [bind]. eexists. reflexivity.
Qed.

Lemma js_gt_primitive (a b : JsValue) :
  primitive a = true -> primitive b = true ->
  exists r, js_gt coerce a b = Return r.
Proof.
  intros Ha Hb. unfold js_gt. rewrite !ToPrimitive_primitive by assumption.
  cbn [bind]. eexists. reflexivity.
Qed.

Lemma substitute_primitive (v : JsValue) :
  primitive v = true -> substitute coerce v = Return (Subst v).
Proof.
  intro H. unfold substitute. now rewrite ToPrimitive_primitive.
Qed.

(** On numbers the operators are those of binary64. *)
Lemma js_add_numbers (x y : JsNum) :
  js_add coerce (JsNumber x) (JsNumber y) = Return (JsNumber (PrimFloat.add x y)).
Proof. reflexivity. Qed.

Lemma js_mul_numbers (x y : JsNum) :
  js_mul coerce (JsNumber x) (JsNumber y) = Return (JsNumber (PrimFloat.mul x y)).
Proof. reflexivity. Qed.

Lemma js_gt_numbers (x y : JsNum) :
  js_gt coerce (JsNumber x) (JsNumber y) = Return (PrimFloat.ltb y x).
Proof. reflexivity. Qed.

(** What a check that returns no error has established. *)
Lemma checkListed_nil (prefix fieldName what : string) (valid : list string)
  (team : JsValue) :
  checkListed coerce prefix fieldName what valid team = Return [] <->
  includes valid (member team fieldName) = true.
Proof.
  unfold checkListed. destruct (includes valid (member team fieldName)); cbn [negb].
  - tauto.
  - split; [|discriminate]. intro H. unbind H. discriminate.
Qed.

Lemma checkGames_nil (prefix : string) (team : JsValue) :
  checkGames coerce prefix team = Return [] <->
  exists partial totalGames,
    js_add coerce (member team "wins") (member team "losses") = Return partial /\
    js_add coerce partial (member team "otLosses") = Return totalGames /\
    strict_eq (member team "gamesPlayed") totalGames = true.
Proof.
  unfold checkGames. split.
  - intro H. unbind H. exists v, v0. split; [exact E|]. split; [exact E0|].
    destruct (strict_eq _ v0); [reflexivity|].
    cbn [negb] in H. unbind H. discriminate.
  - intros (partial & totalGames & -> & E & Heq). cbn [bind]. rewrite E. cbn [bind].
    now rewrite Heq.
Qed.

Lemma checkPoints_nil (prefix : string) (team : JsValue) :
  checkPoints coerce prefix team = Return [] <->
  exists doubled expectedPoints,
    js_mul coerce (member team "wins") (JsNumber (f64_of_Z 2)) = Return doubled /\
    js_add coerce doubled (member team "otLosses") = Return expectedPoints /\
    strict_eq (member team "points") expectedPoints = true.
Proof.
  unfold checkPoints. split.
  - intro H. unbind H. exists v, v0. split; [exact E|]. split; [exact E0|].
    destruct (strict_eq _ v0); [reflexivity|].
    cbn [negb] in H. unbind H. discriminate.
  - intros (doubled & expectedPoints & -> & E & Heq). cbn [bind]. rewrite E. cbn [bind].
    now rewrite Heq.
Qed.

Lemma checkRegulation_nil (prefix : string) (team : JsValue) :
  checkRegulation coerce prefix team = Return [] <->
  js_gt coerce (member team "regulationWins") (member team "wins") = Return false.
Proof.
  unfold checkRegulation. split.
  - intro H. unbind H. destruct v; [|exact E]. unbind H. discriminate.
  - intros ->. reflexivity.
Qed.

(** The two ways [validateTeamEntry] returns: with the missing fields, or
    with what the eight checks after them report. *)
Lemma validateTeamEntry_inv (team : JsValue) (index : nat)
  (es : list ValidationError) :
  validateTeamEntry coerce team index = Return es ->
  let prefix := ("standings[" ++ string_of_nat index ++ "]")%string in
  nullish team = false /\
  ((checkRequired prefix team <> [] /\ es = checkRequired prefix team) \/
   (checkRequired prefix team = [] /\
    exists games pointsCheck regulation divisionCheck conferenceCheck,
      checkGames coerce prefix team = Return games /\
      checkPoints coerce prefix team = Return pointsCheck /\
      checkRegulation coerce prefix team = Return regulation /\
      checkListed coerce prefix "divisionName" "division" VALID_DIVISIONS team =
        Return divisionCheck /\
      checkListed coerce prefix "conferenceName" "conference" VALID_CONFERENCES team =
        Return conferenceCheck /\
      es = flat_map (checkNumeric prefix team) numericValidations
           ++ games ++ pointsCheck ++ regulation ++ divisionCheck ++ conferenceCheck
           ++ checkDefault prefix "teamName"
                "Team name must have a default string property" team
           ++ checkDefault prefix "teamAbbrev"
                "Team abbreviation must have a default string property" team)).
Proof.
  unfold validateTeamEntry. cbv zeta. intro H.
  destruct (nullish team); [discriminate|]. split; [reflexivity|].
  match type of H with context [(0 <? length ?m)%nat] =>
    destruct m as [|e missing] eqn:Hm end.
  - right. split; [reflexivity|]. cbn [length Nat.ltb Nat.leb] in H.
    unbind H. injection H as <-.
    exists v, v0, v1, v2, v3. repeat split; assumption.
  - left. cbn [length Nat.ltb Nat.leb] in H. injection H as <-.
    split; [discriminate | reflexivity].
Qed.

Lemma validateTeamEntry_accepts (team : JsValue) (index : nat) :
  validateTeamEntry coerce team index = Return [] ->
  includes VALID_DIVISIONS (member team "divisionName") = true /\
  includes VALID_CONFERENCES (member team "conferenceName") = true.
Proof.
  intro H. apply validateTeamEntry_inv in H. cbv zeta in H.
  destruct H as (_ & [(Hne & E) | (_ & g & p & r & d & c & _ & _ & _ & Hd & Hc & E)]).
  - symmetry in E. contradiction.
  - symmetry in E.
    do 4 (apply app_eq_nil in E; destruct E as [_ E]).
    apply app_eq_nil in E. destruct E as [-> E].
    apply app_eq_nil in E. destruct E as [-> _].
    split; [exact (proj1 (checkListed_nil _ _ _ _ _) Hd)
           | exact (proj1 (checkListed_nil _ _ _ _ _) Hc)].
Qed.

Lemma validateEntries_accepts (index : nat) (entries : list JsValue) :
  validateEntries coerce index entries = Return [] ->
  Forall (fun team =>
            includes VALID_DIVISIONS (member team "divisionName") = true /\
            includes VALID_CONFERENCES (member team "conferenceName") = true)
         entries.
Proof.
  revert index. induction entries as [|team rest IH]; intros index H; [constructor|].
  simpl in H.
  destruct (validateTeamEntry coerce team index) as [es|] eqn:E; [|discriminate].
  destruct (validateEntries coerce (S index) rest) as [more|] eqn:E'; [|discriminate].
  injection H as H. apply app_eq_nil in H. destruct H as [-> ->].
  constructor; [now apply (validateTeamEntry_accepts team index) | now apply (IH (S index))].
Qed.

Lemma validateNHLApiResponse_accepts (data : JsValue) (r : ValidationResult) :
  validateNHLApiResponse coerce data = Return r ->
  isValid r = true ->
  exists entries,
    member data "standings" = JsArray entries /\
    length entries = 32%nat /\
    validateEntries coerce 0 entries = Return [].
Proof.
  unfold validateNHLApiResponse.
  destruct (negb (truthy data)); [intros H; injection H as <-; discriminate|].
  destruct (negb (truthy (member data "standings")));
    [intros H; injection H as <-; discriminate|].
  destruct (member data "standings") as [| | | | |entries|];
    try (intros H; injection H as <-; discriminate).
  cbv zeta.
  destruct (validateEntries coerce 0 entries) as [es|] eqn:E; [|discriminate].
  intros H Hv. injection H as <-. simpl in Hv.
  apply Nat.eqb_eq in Hv. apply length_zero_iff_nil in Hv.
  apply app_eq_nil in Hv. destruct Hv as [Hcount ->].
  exists entries. split; [reflexivity|]. split; [|exact E].
  destruct (length entries =? EXPECTED_TEAM_COUNT)%nat eqn:En; [|discriminate].
  now apply Nat.eqb_eq in En.
Qed.

End ValidatorFacts.

Lemma includes_In (l : list string) (v : JsValue) :
  includes l v = true <-> exists s, v = JsString s /\ In s l.
Proof.
  split.
  - destruct v; simpl; try discriminate. intro H.
    apply existsb_exists in H. destruct H as (x & Hx & E).
    apply String.eqb_eq in E. subst x. eauto.
  - intros (s & -> & Hs). simpl. apply existsb_exists. exists s.
    split; [exact Hs | apply String.eqb_refl].
Qed.

(** Decide the comparisons of string literals in the goal. *)
Ltac eqb_literals :=
  repeat match goal with
  | |- context [String.eqb ?a ?b] =>
      let r := eval vm_compute in (String.eqb a b) in
      match r with true => idtac | false => idtac end;
      change (String.eqb a b) with r
  end.

Lemma division_counts_total (entries : list JsValue) :
  Forall (fun team => includes VALID_DIVISIONS (member team "divisionName") = true)
         entries ->
  (length (filter (has_name "divisionName" "Atlantic") entries) +
   length (filter (has_name "divisionName" "Metropolitan") entries) +
   length (filter (has_name "divisionName" "Central") entries) +
   length (filter (has_name "divisionName" "Pacific") entries))%nat = length entries.
Proof.
  induction 1 as [|team rest Hteam _ IH]; [reflexivity|].
  apply includes_In in Hteam. destruct Hteam as (s & Hs & Hin).
  assert (Hn : forall d, has_name "divisionName" d team = String.eqb s d)
    by (intro; unfold has_name; now rewrite Hs).
  cbn [filter]. rewrite !Hn.
  simpl in Hin. destruct Hin as [<-|[<-|[<-|[<-|[]]]]]; eqb_literals; cbn [length]; lia.
Qed.

Lemma conference_counts_total (entries : list JsValue) :
  Forall (fun team => includes VALID_CONFERENCES (member team "conferenceName") = true)
         entries ->
  (length (filter (has_name "conferenceName" "Eastern") entries) +
   length (filter (has_name "conferenceName" "Western") entries))%nat = length entries.
Proof.
  induction 1 as [|team rest Hteam _ IH]; [reflexivity|].
  apply includes_In in Hteam. destruct Hteam as (s & Hs & Hin).
  assert (Hn : forall c, has_name "conferenceName" c team = String.eqb s c)
    by (intro; unfold has_name; now rewrite Hs).
  cbn [filter]. rewrite !Hn.
  simpl in Hin. destruct Hin as [<-|[<-|[]]]; eqb_literals; cbn [length]; lia.
Qed.

(** The counting object of the distribution checks holds, for each name, the
    number of entries carrying it. *)
Lemma count_of_push (counts : list (string * nat)) (k k' : string) :
  count_of (count_push counts k') k =
  if String.eqb k' k then S (count_of counts k) else count_of counts k.
Proof.
  induction counts as [|[k0 n] rest IH]; simpl.
  - now destruct (String.eqb k' k).
  - destruct (String.eqb k0 k') eqn:E0; simpl.
    + apply String.eqb_eq in E0. subst k0. now destruct (String.eqb k' k).
    + destruct (String.eqb k0 k) eqn:E1; [|exact IH].
      apply String.eqb_eq in E1. subst k0.
      rewrite String.eqb_sym in E0. now rewrite E0.
Qed.

Lemma count_of_fold {A : Type} (key : A -> string) (l : list A)
  (counts : list (string * nat)) (k : string) :
  count_of (fold_left (fun counts x => count_push counts (key x)) l counts) k =
  (count_of counts k + length (filter (fun x => String.eqb (key x) k) l))%nat.
Proof.
  revert counts. induction l as [|x l IH]; intro counts; simpl; [lia|].
  rewrite IH, count_of_push. destruct (String.eqb (key x) k); simpl; lia.
Qed.

Lemma validateDivisionDistribution_spec (data : NHL.ApiResponse) :
  isValid (validateDivisionDistribution data) = true <->
  forall d, In d VALID_DIVISIONS ->
    length (filter (fun e => String.eqb (NHL.divisionName e) d) (NHL.standings data)) = 8%nat.
Proof.
  unfold validateDivisionDistribution. cbv zeta. cbn [isValid].
  rewrite Nat.eqb_eq, length_zero_iff_nil.
  unfold VALID_DIVISIONS. cbn [flat_map]. rewrite !count_of_fold. simpl count_of.
  rewrite !Nat.add_0_l, app_nil_r.
  split.
  - intros H d Hd.
    repeat match type of H with
    | (if negb (?n =? 8)%nat then _ else _) ++ _ = [] =>
        destruct (Nat.eqb_spec n 8); simpl in H; [|discriminate]
    | (if negb (?n =? 8)%nat then _ else _) = [] =>
        destruct (Nat.eqb_spec n 8); simpl in H; [|discriminate]
    end.
    simpl in Hd. destruct Hd as [<-|[<-|[<-|[<-|[]]]]]; assumption.
  - intro H.
    rewrite !H by (simpl; tauto). reflexivity.
Qed.

Lemma validateConferenceDistribution_spec (data : NHL.ApiResponse) :
  isValid (validateConferenceDistribution data) = true <->
  forall c, In c VALID_CONFERENCES ->
    length (filter (fun e => String.eqb (NHL.conferenceName e) c) (NHL.standings data)) = 16%nat.
Proof.
  unfold validateConferenceDistribution. cbv zeta. cbn [isValid].
  rewrite Nat.eqb_eq, length_zero_iff_nil.
  unfold VALID_CONFERENCES. cbn [flat_map]. rewrite !count_of_fold. simpl count_of.
  rewrite !Nat.add_0_l, app_nil_r.
  split.
  - intros H c Hc.
    repeat match type of H with
    | (if negb (?n =? 16)%nat then _ else _) ++ _ = [] =>
        destruct (Nat.eqb_spec n 16); simpl in H; [|discriminate]
    | (if negb (?n =? 16)%nat then _ else _) = [] =>
        destruct (Nat.eqb_spec n 16); simpl in H; [|discriminate]
    end.
    simpl in Hc. destruct Hc as [<-|[<-|[]]]; assumption.
  - intro H.
    rewrite !H by (simpl; tauto). reflexivity.
Qed.

(** C1, as the code has it.  A snapshot [validateNHLApiResponse] accepts has
    exactly 32 teams, each in one of the 4 known divisions and one of the 2
    known conferences (so the division counts add up to 32, and so do the
    conference counts).  How the teams are spread is checked only by the
    separate [validateDivisionDistribution] and
    [validateConferenceDistribution], which accept exactly the snapshots
    with 8 teams in every known division, 16 in every known conference. *)
Theorem accepted_snapshot_invariants :
  (forall coerce data r,
     validateNHLApiResponse coerce data = Return r ->
     isValid r = true ->
     length (snapshot_entries data) = 32%nat /\
     Forall (fun team =>
               (exists d, member team "divisionName" = JsString d /\
                          In d VALID_DIVISIONS) /\
               (exists c, member team "conferenceName" = JsString c /\
                          In c VALID_CONFERENCES))
            (snapshot_entries data) /\
     (divisionCount "Atlantic" data + divisionCount "Metropolitan" data +
      divisionCount "Central" data + divisionCount "Pacific" data = 32)%nat /\
     (conferenceCount "Eastern" data + conferenceCount "Western" data = 32)%nat) /\
  (forall data : NHL.ApiResponse,
     isValid (validateDivisionDistribution data) = true <->
     forall d, In d VALID_DIVISIONS ->
       length (filter (fun e => String.eqb (NHL.divisionName e) d)
                      (NHL.standings data)) = 8%nat) /\
  (forall data : NHL.ApiResponse,
     isValid (validateConferenceDistribution data) = true <->
     forall c, In c VALID_CONFERENCES ->
       length (filter (fun e => String.eqb (NHL.conferenceName e) c)
                      (NHL.standings data)) = 16%nat).
Proof.
  split; [|split;
    [exact validateDivisionDistribution_spec
    | exact validateConferenceDistribution_spec]].
  intros coerce data r Hr Hv.
  destruct (validateNHLApiResponse_accepts coerce data r Hr Hv)
    as (entries & Hst & Hlen & Hes).
  apply validateEntries_accepts in Hes.
  unfold divisionCount, conferenceCount, snapshot_entries. rewrite Hst.
  split; [exact Hlen|]. split; [|split].
  - eapply Forall_impl; [|exact Hes]. intros team [Hd Hc].
    apply includes_In in Hd, Hc. split; assumption.
  - rewrite division_counts_total; [exact Hlen|].
    eapply Forall_impl; [|exact Hes]. intros team [Hd _]. exact Hd.
  - rewrite conference_counts_total; [exact Hlen|].
    eapply Forall_impl; [|exact Hes]. intros team [_ Hc]. exact Hc.
Qed.

Lemma accepted_snapshot_invariants_witness :
  length (snapshot_entries (js_of_response thirtyTwoAtlantic)) = 32%nat.
Proof.
  apply (proj1 accepted_snapshot_invariants no_coercion
               (js_of_response thirtyTwoAtlantic)
               {| isValid := true; errors := [] |});
    reflexivity.
Defined.

(** C1 as stated fails: the validator accepts the 32-team snapshot of its own
    test, in which every team is in the Atlantic division of the Eastern
    conference. *)
Lemma accepted_snapshot_unbalanced :
  validateNHLApiResponse no_coercion (js_of_response thirtyTwoAtlantic) =
    Return {| isValid := true; errors := [] |} /\
  divisionCount "Atlantic" (js_of_response thirtyTwoAtlantic) = 32%nat /\
  divisionCount "Metropolitan" (js_of_response thirtyTwoAtlantic) = 0%nat /\
  conferenceCount "Eastern" (js_of_response thirtyTwoAtlantic) = 32%nat /\
  ~ (forall coerce data r,
       validateNHLApiResponse coerce data = Return r ->
       isValid r = true ->
       (forall d, In d VALID_DIVISIONS -> divisionCount d data = 8%nat) /\
       (forall c, In c VALID_CONFERENCES -> conferenceCount c data = 16%nat)).
Proof.
  repeat split; try reflexivity.
  intro H.
  destruct (H no_coercion (js_of_response thirtyTwoAtlantic) _ eq_refl eq_refl)
    as [Hd _].
  specialize (Hd "Atlantic"%string (or_introl eq_refl)).
  vm_compute in Hd. discriminate.
Qed.

(** *** The nested [default] check *)

Section NestedDefault.
Variable coerce : Coercions.

Lemma checkRequired_present (prefix : string) (team : JsValue) :
  Forall (fun f => nullish (member team f) = false) requiredFields ->
  checkRequired prefix team = [].
Proof.
  unfold checkRequired. induction 1 as [|f fs Hf _ IH]; [reflexivity|].
  cbn [flat_map]. now rewrite Hf, IH.
Qed.

(** With every required field present, what [validateTeamEntry] returns ends
    with the reports of the two nested checks. *)
Lemma validateTeamEntry_present (team : JsValue) (index : nat)
  (es : list ValidationError) :
  Forall (fun f => nullish (member team f) = false) requiredFields ->
  validateTeamEntry coerce team index = Return es ->
  let prefix := ("standings[" ++ string_of_nat index ++ "]")%string in
  exists front,
    es = front
         ++ checkDefault prefix "teamName"
              "Team name must have a default string property" team
         ++ checkDefault prefix "teamAbbrev"
              "Team abbreviation must have a default string property" team.
Proof.
  intros Hreq H prefix. apply validateTeamEntry_inv in H. cbv zeta in H.
  fold prefix in H.
  destruct H as (_ & [(Hne & _) | (_ & g & p & r & d & c & _ & _ & _ & _ & _ & ->)]).
  - exfalso. apply Hne. now apply checkRequired_present.
  - exists (flat_map (checkNumeric prefix team) numericValidations
            ++ g ++ p ++ r ++ d ++ c).
    now rewrite <- !app_assoc.
Qed.

Lemma checkDefault_reports (prefix fieldName text : string) (team : JsValue) :
  typeof (member team fieldName) = "object"%string ->
  nullish (member team fieldName) = false ->
  ~ exposes_default (member team fieldName) ->
  checkDefault prefix fieldName text team =
  [ {| field := (prefix ++ "." ++ fieldName ++ ".default")%string;
       message := [Lit text]; value := None |} ].
Proof.
  intros Hty Hnn Hno. unfold checkDefault. cbv zeta. rewrite Hty.
  assert (Htruthy : truthy (member team fieldName) = true)
    by (destruct (member team fieldName); try discriminate; reflexivity).
  rewrite Htruthy. cbn [andb]. eqb_literals. cbv iota.
  destruct (member (member team fieldName) "default") as [| |b|n|s|l|l] eqn:Ed;
    cbn [truthy typeof]; eqb_literals; cbn [negb]; rewrite ?orb_true_r;
    try reflexivity.
  destruct (String.eqb s "") eqn:Es; [reflexivity|].
  exfalso. apply Hno. exists s. split; [exact Ed|].
  now apply String.eqb_neq.
Qed.

(** What is returned for a list of entries holds what is returned for each
    of them. *)
Lemma validateEntries_member (index : nat) (entries : list JsValue)
  (errs : list ValidationError) :
  validateEntries coerce index entries = Return errs ->
  forall i team,
    nth_error entries i = Some team ->
    exists es, validateTeamEntry coerce team (index + i) = Return es /\ incl es errs.
Proof.
  revert index errs. induction entries as [|t rest IH]; intros index errs H i team Hn.
  - destruct i; discriminate.
  - cbn [validateEntries] in H.
    destruct (validateTeamEntry coerce t index) as [es0|] eqn:E0; [|discriminate].
    destruct (validateEntries coerce (S index) rest) as [more|] eqn:E1; [|discriminate].
    injection H as <-. destruct i as [|i].
    + injection Hn as <-. rewrite Nat.add_0_r. exists es0.
      split; [exact E0 | now apply incl_appl].
    + destruct (IH (S index) more E1 i team Hn) as (es & Hes & Hincl).
      exists es. rewrite Nat.add_succ_r. split; [exact Hes | now apply incl_appr].
Qed.

(** The checks return on an entry whose operands are primitives. *)
Lemma validateTeamEntry_plain (team : JsValue) (index : nat) :
  plain_entry team -> exists es, validateTeamEntry coerce team index = Return es.
Proof.
  intros (Hn & Hplain). unfold validateTeamEntry. cbv zeta. rewrite Hn.
  destruct (0 <? length _)%nat; [eauto|].
  unfold operandFields in Hplain.
  repeat match goal with
  | H : Forall _ (_ :: _) |- _ => inversion H; subst; clear H
  end.
  assert (Hgames : exists es, checkGames coerce ("standings[" ++ string_of_nat index ++ "]")
                                          team = Return es).
  { unfold checkGames.
    destruct (js_add_primitive coerce (member team "wins") (member team "losses"))
      as (partial & -> & Hp); [assumption..|]. cbn [bind].
    destruct (js_add_primitive coerce partial (member team "otLosses"))
      as (total & -> & Ht); [assumption..|]. cbn [bind].
    destruct (negb _); [|eauto].
    rewrite !(substitute_primitive coerce) by assumption. cbn [bind]. eauto. }
  assert (Hpoints : exists es, checkPoints coerce ("standings[" ++ string_of_nat index ++ "]")
                                           team = Return es).
  { unfold checkPoints.
    destruct (js_mul_primitive coerce (member team "wins") (JsNumber (f64_of_Z 2)))
      as (doubled & ->); [assumption | reflexivity |]. cbn [bind].
    destruct (js_add_primitive coerce (JsNumber doubled) (member team "otLosses"))
      as (expected & -> & He); [reflexivity | assumption |]. cbn [bind].
    destruct (negb _); [|eauto].
    rewrite !(substitute_primitive coerce) by assumption. cbn [bind]. eauto. }
  assert (Hreg : exists es, checkRegulation coerce
                              ("standings[" ++ string_of_nat index ++ "]") team = Return es).
  { unfold checkRegulation.
    destruct (js_gt_primitive coerce (member team "regulationWins") (member team "wins"))
      as (r & ->); [assumption..|]. cbn [bind].
    destruct r; [|eauto].
    rewrite !(substitute_primitive coerce) by assumption. cbn [bind]. eauto. }
  assert (Hlisted : forall fieldName what valid,
            primitive (member team fieldName) = true ->
            exists es, checkListed coerce ("standings[" ++ string_of_nat index ++ "]")
                                   fieldName what valid team = Return es).
  { intros fieldName what valid Hp. unfold checkListed.
    destruct (negb _); [|eauto].
    rewrite (substitute_primitive coerce) by assumption. cbn [bind]. eauto. }
  destruct Hgames as (g & ->), Hpoints as (p & ->), Hreg as (r & ->). cbn [bind].
  destruct (Hlisted "divisionName"%string "division"%string VALID_DIVISIONS)
    as (d & ->); [assumption|].
  destruct (Hlisted "conferenceName"%string "conference"%string VALID_CONFERENCES)
    as (c & ->); [assumption|].
  cbn [bind]. eauto.
Qed.

Lemma validateEntries_plain (index : nat) (entries : list JsValue) :
  Forall plain_entry entries ->
  exists errs, validateEntries coerce index entries = Return errs.
Proof.
  intro H. revert index.
  induction H as [|team rest Hteam _ IH]; intro index; [now exists []|].
  cbn [validateEntries].
  destruct (validateTeamEntry_plain team index Hteam) as (es & ->).
  destruct (IH (S index)) as (more & ->). eauto.
Qed.

End NestedDefault.

(** C9, as the code has it.  Take an entry with all required fields present
    whose [teamName] (or [teamAbbrev]) is an object that exposes no
    non-empty string [default].  Whenever the validator returns, the result
    is invalid and holds an error for that entry's [teamName.default] (or
    [teamAbbrev.default]).  It does return when every entry of the snapshot
    is plain: neither null nor undefined, with no object among the fields it
    computes with.  (On other entries the arithmetic checks can throw a
    TypeError instead: see [opaque_operand_throws].) *)
Theorem nested_default_checked
  (coerce : Coercions) (data : JsValue) (entries : list JsValue)
  (i : nat) (team : JsValue) (fieldName : string) :
  member data "standings" = JsArray entries ->
  nth_error entries i = Some team ->
  Forall (fun f => nullish (member team f) = false) requiredFields ->
  fieldName = "teamName"%string \/ fieldName = "teamAbbrev"%string ->
  typeof (member team fieldName) = "object"%string ->
  ~ exposes_default (member team fieldName) ->
  let reported (r : ValidationResult) :=
    isValid r = false /\
    exists e, In e (errors r) /\
              field e = (("standings[" ++ string_of_nat i ++ "]") ++ "."
                         ++ fieldName ++ ".default")%string in
  (forall r, validateNHLApiResponse coerce data = Return r -> reported r) /\
  (Forall plain_entry entries ->
   exists r, validateNHLApiResponse coerce data = Return r /\ reported r).
Proof.
  intros Hst Hnth Hreq Hfield Hty Hno reported.
  assert (Hnull : nullish (member team fieldName) = false).
  { rewrite Forall_forall in Hreq. apply Hreq.
    destruct Hfield as [-> | ->]; simpl; tauto. }
  assert (Hdata : truthy data = true).
  { destruct data; try discriminate; reflexivity. }
  assert (Hgeneral : forall r, validateNHLApiResponse coerce data = Return r -> reported r).
  { intros r Hr. unfold validateNHLApiResponse in Hr.
    rewrite Hdata, Hst in Hr. cbn [negb truthy] in Hr. cbv zeta in Hr.
    destruct (validateEntries coerce 0 entries) as [errs|] eqn:Eerrs; [|discriminate].
    injection Hr as <-.
    destruct (validateEntries_member coerce 0 entries errs Eerrs i team Hnth)
      as (es & Hes & Hincl).
    destruct (validateTeamEntry_present coerce team i es Hreq Hes) as (front & ->).
    set (err := {| field := (("standings[" ++ string_of_nat i ++ "]") ++ "."
                             ++ fieldName ++ ".default")%string;
                   message := [Lit (if String.eqb fieldName "teamName"
                                    then "Team name must have a default string property"
                                    else "Team abbreviation must have a default string property")%string];
                   value := None |}).
    assert (Herr : In err errs).
    { apply Hincl. apply in_or_app. right.
      destruct Hfield as [-> | ->].
      - rewrite (checkDefault_reports _ "teamName" _ team Hty Hnull Hno).
        apply in_or_app. left. left. reflexivity.
      - rewrite (checkDefault_reports _ "teamAbbrev" _ team Hty Hnull Hno).
        apply in_or_app. right. left. reflexivity. }
    unfold reported. cbn [isValid errors]. split.
    - apply Nat.eqb_neq. intro Hlen. apply length_zero_iff_nil in Hlen.
      apply app_eq_nil in Hlen. destruct Hlen as [_ ->]. contradiction.
    - exists err. split; [|reflexivity]. apply in_or_app. now right. }
  split; [exact Hgeneral|].
  intro Hplain.
  destruct (validateEntries_plain coerce 0 entries Hplain) as (errs & Eerrs).
  assert (Hr : exists r, validateNHLApiResponse coerce data = Return r).
  { unfold validateNHLApiResponse. rewrite Hdata, Hst. cbn [negb truthy]. cbv zeta.
    rewrite Eerrs. eauto. }
  destruct Hr as (r & Hr). exists r. split; [exact Hr | now apply Hgeneral].
Qed.

Lemma nested_default_checked_witness :
  exists r,
    validateNHLApiResponse no_coercion snapshotWithoutDefault = Return r /\
    isValid r = false /\
    exists e, In e (errors r) /\
              field e = "standings[0].teamName.default"%string.
Proof.
  apply (nested_default_checked no_coercion snapshotWithoutDefault
           [entryWithoutDefault] 0 entryWithoutDefault "teamName").
  - reflexivity.
  - reflexivity.
  - repeat constructor.
  - left. reflexivity.
  - reflexivity.
  - intros (s & Hs & _). discriminate Hs.
  - repeat constructor.
Defined.

(** The arithmetic checks come before the nested ones: on an entry whose
    [wins] cannot be made a primitive, [team.wins + team.losses] throws and
    the validator returns nothing, whatever the entry's [teamName]. *)
Example opaque_operand_throws :
  validateNHLApiResponse strict_coercion
    (JsObject [("standings"%string, JsArray [entryWithOpaqueWins])]) =
  Throws "Cannot convert object to primitive value".
Proof. reflexivity. Qed.

(** C9 as stated fails: an entry whose [teamName] is a plain string exposes
    no [default], has every required field, and draws no error; the
    snapshot made of 32 such entries is accepted. *)
Lemma string_team_name_not_checked :
  validateNHLApiResponse no_coercion snapshotWithStringNames =
    Return {| isValid := true; errors := [] |} /\
  nth_error (snapshot_entries snapshotWithStringNames) 0 = Some entryWithStringName /\
  Forall (fun f => nullish (member entryWithStringName f) = false) requiredFields /\
  ~ exposes_default (member entryWithStringName "teamName") /\
  ~ (forall coerce data entries i team fieldName,
       member data "standings" = JsArray entries ->
       nth_error entries i = Some team ->
       Forall (fun f => nullish (member team f) = false) requiredFields ->
       fieldName = "teamName"%string \/ fieldName = "teamAbbrev"%string ->
       ~ exposes_default (member team fieldName) ->
       exists r,
         validateNHLApiResponse coerce data = Return r /\
         exists e, In e (errors r) /\
                   field e = (("standings[" ++ string_of_nat i ++ "]") ++ "."
                              ++ fieldName ++ ".default")%string).
Proof.
  assert (Hno : ~ exposes_default (member entryWithStringName "teamName")).
  { intros (s & Hs & _). discriminate Hs. }
  split; [reflexivity|]. split; [reflexivity|]. split; [repeat constructor|].
  split; [exact Hno|].
  intro H.
  destruct (H no_coercion snapshotWithStringNames
              (repeat entryWithStringName 32) 0%nat entryWithStringName
              "teamName"%string eq_refl eq_refl)
    as (r & Hr & e & He & _).
  - repeat constructor.
  - now left.
  - exact Hno.
  - assert (Hv : validateNHLApiResponse no_coercion snapshotWithStringNames =
                 Return {| isValid := true; errors := [] |}) by reflexivity.
    rewrite Hv in Hr. injection Hr as <-. exact He.
Qed.

(** ** The assembled document *)

Lemma classifyTeams_perm {C : Type} (erase : Team -> C) (teams : list Team) :
  (forall b r t, erase (set_division b r t) = erase t) ->
  (forall b t, erase (set_isWildCard b t) = erase t) ->
  (forall r t, erase (set_conferenceRank r t) = erase t) ->
  Permutation (map erase (classifyTeams teams)) (map erase teams).
Proof.
  intros Hd Hw Hc. unfold classifyTeams.
  rewrite (calculateConferenceRanks_perm erase) by exact Hc.
  rewrite (identifyWildCards_perm erase) by exact Hw.
  now apply identifyDivisionLeaders_perm.
Qed.

Lemma organizeConference_loop (l : list Team)
  (divs : list (string * list Team)) (wc : list Team) :
  fold_left
    (fun '(divs, wc) team =>
       (group_push divs (division team) team,
        if negb (isDivisionLeader team) then wc ++ [team] else wc))
    l (divs, wc) =
  (fold_left (fun groups x => group_push groups (division x) x) l divs,
   wc ++ filter (fun team => negb (isDivisionLeader team)) l).
Proof.
  revert divs wc. induction l as [|t l IH]; intros divs wc; simpl.
  - now rewrite app_nil_r.
  - rewrite IH. f_equal.
    destruct (negb (isDivisionLeader t)); [now rewrite <- app_assoc | reflexivity].
Qed.

Lemma organizeConference_shape (teams : list Team) (c : string) :
  let members := filter (fun team => String.eqb (conference team) c) teams in
  organizeConference teams c =
  {| divisions :=
       map (fun '(divisionName, ms) => (divisionName, sortTeamsByStandings ms))
           (groupBy division members);
     wildCards :=
       sortTeamsByStandings
         (filter (fun team => negb (isDivisionLeader team)) members) |}.
Proof.
  intro members. unfold organizeConference. fold members.
  now rewrite organizeConference_loop.
Qed.







(** What acceptance by the validator gives for a typed snapshot. *)
Lemma validated_typed_snapshot (coerce : Coercions) (raw : NHL.ApiResponse)
  (r : ValidationResult) :
  validateNHLApiResponse coerce (js_of_response raw) = Return r ->
  isValid r = true ->
  length (NHL.standings raw) = 32%nat /\
  Forall (fun e => In (NHL.conferenceName e) VALID_CONFERENCES /\
                   In (NHL.divisionName e) VALID_DIVISIONS)
         (NHL.standings raw).
Proof.
  intros Hr Hv.
  destruct (validateNHLApiResponse_accepts coerce _ r Hr Hv)
    as (entries & Hst & Hlen & Hes).
  simpl in Hst. injection Hst as <-. rewrite length_map in Hlen.
  split; [exact Hlen|].
  apply validateEntries_accepts in Hes. rewrite Forall_map in Hes.
  eapply Forall_impl; [|exact Hes]. intros e [Hd Hc].
  apply includes_In in Hd, Hc.
  destruct Hd as (d & Ed & Hd), Hc as (c & Ec & Hc).
  simpl in Ed, Ec. injection Ed as <-. injection Ec as <-. tauto.
Qed.




Lemma processStandings_sides (now : string) (raw : NHL.ApiResponse) :
  eastern (processStandings now raw) =
    organizeConference (classifiedTeams raw) "Eastern" /\
  western (processStandings now raw) =
    organizeConference (classifiedTeams raw) "Western".
Proof. split; reflexivity. Qed.


(** The expectation of tests/processStandings.test.ts: the Eastern board
    lists the four non-leaders, of which the first two carry the flag. *)
Example processStandings_bubble_teams :
  let doc := processStandings "2025-03-02T08:00:00.000Z"
               {| NHL.standings := sampleStandings |} in
  map (fun t => (name t, isWildCard t)) (wildCards (eastern doc)) =
  [("E4", true); ("E5", true); ("E6", false); ("E7", false)]%string.
Proof. reflexivity. Qed.

(** ** Acquirer *)

Section FetchFacts.
Variable coerce : Coercions.

Lemma usable_cache_ext (w w' : World) (payload ts : JsValue) :
  cacheFile w = cacheFile w' ->
  usable_cache coerce w payload ts -> usable_cache coerce w' payload ts.
Proof.
  intros E (written & H & Hrest). exists written. rewrite <- E. auto.
Qed.

(** Reading the cache either finds a usable entry and returns it, tagged
    stale with the entry's own timestamp, or finds none and throws. *)
Lemma loadCachedData_cases (w : World) :
  (exists payload ts,
     usable_cache coerce w payload ts /\
     fst (loadCachedData coerce w) =
       Return {| Fetched.data := payload; Fetched.isStale := true;
                 Fetched.cacheTimestamp := ts |}) \/
  ((forall payload ts, ~ usable_cache coerce w payload ts) /\
   exists m, fst (loadCachedData coerce w) = Throws m).
Proof.
  unfold loadCachedData, usable_cache, accepted. cbv zeta. cbn [cacheFile log_op].
  destruct (cacheFile w) as [|m|[written|written|txt]] eqn:Ef; cbn [fst];
    try (right; split;
         [intros ? ? (? & H & _); discriminate | eexists; reflexivity]).
  set (cd := JSON_roundtrip written).
  destruct (nullish cd) eqn:En; cbn [fst].
  { right. split; [|eexists; reflexivity].
    intros p ts (written' & H & Hp & _ & r & Hr & Hv). injection H as <-.
    fold cd in Hp.
    destruct cd; try discriminate; simpl in Hp; subst p;
      vm_compute in Hr; injection Hr as <-; discriminate. }
  destruct (negb (truthy (member cd "data"))
            || negb (truthy (member (member cd "data") "standings"))) eqn:Et;
    cbn [fst].
  { right. split; [|eexists; reflexivity].
    intros p ts (written' & H & Hp & _ & r & Hr & Hv). injection H as <-.
    fold cd in Hp. subst p.
    destruct (validateNHLApiResponse_accepts coerce _ r Hr Hv)
      as (entries & Hst & _).
    rewrite Hst in Et.
    destruct (member cd "data"); try discriminate; simpl in Et; discriminate. }
  destruct (validateNHLApiResponse coerce (member cd "data")) as [r|m] eqn:Ev;
    cbn [fst].
  2:{ right. split; [|eexists; reflexivity].
      intros p ts (written' & H & Hp & _ & r & Hr & Hv). injection H as <-.
      fold cd in Hp. subst p. congruence. }
  destruct (isValid r) eqn:Evalid; cbn [negb fst].
  - left. exists (member cd "data"), (member cd "timestamp").
    split; [|reflexivity]. exists written.
    repeat split; try reflexivity. now exists r.
  - right. split; [|eexists; reflexivity].
    intros p ts (written' & H & Hp & _ & r' & Hr & Hv). injection H as <-.
    fold cd in Hp. subst p. congruence.
Qed.


Lemma tryFetch_Throws (outcome : FetchOutcome) (m : string) :
  tryFetch coerce outcome = Throws m <-> fails_with coerce outcome m.
Proof.
  unfold tryFetch. split.
  - destruct outcome as [m0|response].
    { intro H. injection H as <-. constructor. }
    destruct (ok response) eqn:Eok; cbn [negb].
    2:{ intro H. injection H as <-. now constructor. }
    destruct (body response) as [d|m0] eqn:Eb.
    2:{ intro H. injection H as <-. now apply body_rejected. }
    destruct (validateNHLApiResponse coerce d) as [r|m0] eqn:Ev.
    2:{ intro H. injection H as <-. now apply (validator_throws coerce response d). }
    destruct (isValid r) eqn:Er; cbn [negb]; [discriminate|].
    intro H. injection H as <-. now apply (validator_rejects coerce response d r).
  - intro H. destruct H as [m|response Hok|response m Hok Hb|response d m Hok Hb Hv
                            |response d r Hok Hb Hv Hr].
    + reflexivity.
    + now rewrite Hok.
    + now rewrite Hok, Hb.
    + now rewrite Hok, Hb, Hv.
    + now rewrite Hok, Hb, Hv, Hr.
Qed.


Lemma fetchAttempts_step (remaining attempt : nat) (lastError : option string)
  (w : World) :
  fetchAttempts coerce (S remaining) attempt lastError w =
  match tryFetch coerce (network w attempt) with
  | Return payload =>
      (inl {| Fetched.data := payload; Fetched.isStale := false;
              Fetched.cacheTimestamp := JsUndefined |},
       cacheResponse payload w)
  | Throws m =>
      fetchAttempts coerce remaining (S attempt) (Some m)
        (if (attempt <? MAX_RETRIES)%nat
         then sleep (INITIAL_RETRY_DELAY * 2 ^ (attempt - 1)) w
         else w)
  end.
Proof. reflexivity. Qed.

(** A failed attempt leaves the network and the cache file as they were. *)
Lemma after_failure_same (attempt : nat) (w : World) :
  let w' := if (attempt <? MAX_RETRIES)%nat
            then sleep (INITIAL_RETRY_DELAY * 2 ^ (attempt - 1)) w
            else w in
  network w' = network w /\ cacheFile w' = cacheFile w.
Proof. cbv zeta. destruct (attempt <? MAX_RETRIES)%nat; split; reflexivity. Qed.

(** The three attempts, spelt out. *)
Lemma fetchAttempts_cases (w : World) (R : (FetchResult + option string) * World) :
  fetchAttempts coerce MAX_RETRIES 1 None w = R ->
  (exists k payload,
     (1 <= k <= 3)%nat /\
     (forall j, (1 <= j < k)%nat -> exists m, attempt_fails coerce w j m) /\
     tryFetch coerce (network w k) = Return payload /\
     fst R = inl {| Fetched.data := payload; Fetched.isStale := false;
                    Fetched.cacheTimestamp := JsUndefined |}) \/
  (exists m1 m2 m3,
     attempt_fails coerce w 1 m1 /\
     attempt_fails coerce w 2 m2 /\
     attempt_fails coerce w 3 m3 /\
     fst R = inr (Some m3) /\
     cacheFile (snd R) = cacheFile w).
Proof.
  intro HR. unfold attempt_fails.
  change MAX_RETRIES with 3%nat in HR. rewrite fetchAttempts_step in HR.
  destruct (tryFetch coerce (network w 1)) as [d1|m1] eqn:E1.
  { left. exists 1%nat, d1. split; [lia|]. split; [intros; lia|].
    split; [exact E1 | now subst R]. }
  destruct (after_failure_same 1 w) as [Hn1 Hf1].
  set (w1 := if (1 <? MAX_RETRIES)%nat then _ else w) in *.
  change (if (1 <? 3)%nat then sleep (INITIAL_RETRY_DELAY * 2 ^ (1 - 1)) w else w)
    with w1 in HR.
  rewrite fetchAttempts_step, Hn1 in HR.
  destruct (tryFetch coerce (network w 2)) as [d2|m2] eqn:E2.
  { left. exists 2%nat, d2. split; [lia|]. split.
    - intros j Hj. assert (j = 1%nat) by lia. subst j. now exists m1.
    - split; [exact E2 | now subst R]. }
  destruct (after_failure_same 2 w1) as [Hn2 Hf2].
  set (w2 := if (2 <? MAX_RETRIES)%nat then _ else w1) in *.
  change (if (2 <? 3)%nat then sleep (INITIAL_RETRY_DELAY * 2 ^ (2 - 1)) w1 else w1)
    with w2 in HR.
  rewrite fetchAttempts_step, Hn2, Hn1 in HR.
  destruct (tryFetch coerce (network w 3)) as [d3|m3] eqn:E3.
  { left. exists 3%nat, d3. split; [lia|]. split.
    - intros j Hj. assert (j = 1 \/ j = 2)%nat as [-> | ->] by lia; eauto.
    - split; [exact E3 | now subst R]. }
  destruct (after_failure_same 3 w2) as [Hn3 Hf3].
  right. exists m1, m2, m3. do 3 (split; [reflexivity|]).
  subst R. cbn [fetchAttempts fst snd]. split; [reflexivity|].
  change (cacheFile (if (3 <? MAX_RETRIES)%nat
                     then sleep (INITIAL_RETRY_DELAY * 2 ^ (3 - 1)) w2
                     else w2) = cacheFile w).
  congruence.
Qed.

Lemma fetchNHLData_cases (w : World) :
  (exists k payload,
     (1 <= k <= 3)%nat /\
     (forall j, (1 <= j < k)%nat -> exists m, attempt_fails coerce w j m) /\
     tryFetch coerce (network w k) = Return payload /\
     fst (fetchNHLData coerce w) =
       Return {| Fetched.data := payload; Fetched.isStale := false;
                 Fetched.cacheTimestamp := JsUndefined |}) \/
  (exists m1 m2 m3,
     attempt_fails coerce w 1 m1 /\
     attempt_fails coerce w 2 m2 /\
     attempt_fails coerce w 3 m3 /\
     ((exists payload ts,
         usable_cache coerce w payload ts /\
         fst (fetchNHLData coerce w) =
           Return {| Fetched.data := payload; Fetched.isStale := true;
                     Fetched.cacheTimestamp := ts |}) \/
      ((forall payload ts, ~ usable_cache coerce w payload ts) /\
       fst (fetchNHLData coerce w) =
         Throws ("Failed to fetch NHL data after 3 attempts and no cached data available. Last error: "
                 ++ m3)))).
Proof.
  unfold fetchNHLData.
  destruct (fetchAttempts coerce MAX_RETRIES 1 None w) as [outcome w3] eqn:ER.
  destruct (fetchAttempts_cases w _ ER)
    as [(k & d & Hk & Hprior & Hd & Hres)
       |(m1 & m2 & m3 & H1 & H2 & H3 & Hres & Hfile)];
    cbn [fst snd] in Hres; subst outcome.
  { left. exists k, d. auto. }
  right. exists m1, m2, m3. do 3 (split; [assumption|]).
  cbn [snd] in Hfile.
  destruct (loadCachedData coerce w3) as [[res|m] w4] eqn:El.
  - destruct (loadCachedData_cases w3) as [(p & ts & Hu & Hload)|(_ & m & Hm)];
      rewrite El in *; cbn [fst] in *; [|discriminate].
    injection Hload as ->.
    left. exists p, ts. split; [|reflexivity].
    now apply (usable_cache_ext w3 w).
  - right. split; [|reflexivity].
    intros p ts Hu.
    destruct (loadCachedData_cases w3) as [(p' & ts' & _ & Hload)|(Hno & _)].
    + rewrite El in Hload. discriminate.
    + apply (Hno p ts). now apply (usable_cache_ext w w3).
Qed.

End FetchFacts.

Lemma usable_cache_unique (coerce : Coercions) (w : World) (p p' ts ts' : JsValue) :
  usable_cache coerce w p ts -> usable_cache coerce w p' ts' -> p = p' /\ ts = ts'.
Proof.
  intros (written & H & Hp & Hts & _) (written' & H' & Hp' & Hts' & _).
  rewrite H in H'. injection H' as <-. split; congruence.
Qed.



(** *** The cache write *)

(** C8, as the code has it.  [cacheResponse] makes no temporary file and no
    rename: besides checking (and if need be creating) the cache directory,
    its only file-system call is one [writeFileSync] on the cache file
    itself.  A write that completes leaves the new entry [{data, timestamp}]
    in the cache; a failure before the file is opened (or creating the
    directory) leaves the cache file as it was; a write that fails midway
    leaves a partial entry in place of the previous one, which a later read
    of the cache rejects.  In every case the call returns. *)
Theorem cacheResponse_spec (payload : JsValue) (w : World) :
  let w' := cacheResponse payload w in
  (exists ops,
     fsLog w' = fsLog w ++ ops /\
     Forall (fun op => op = ExistsSync CACHE_DIR \/ op = MkdirSync CACHE_DIR \/
                       op = WriteFileSync CACHE_FILE) ops) /\
  (cacheDirExists w = true \/ mkdirFails w = false ->
   writeOutcome w = WriteCompletes ->
   cacheFile w' = Present (JsonText (cacheEntry payload (clock w)))) /\
  ((cacheDirExists w = false /\ mkdirFails w = true) \/
   (exists m, writeOutcome w = WriteFailsAtOpen m) ->
   cacheFile w' = cacheFile w) /\
  (cacheDirExists w = true \/ mkdirFails w = false ->
   (exists m, writeOutcome w = WriteFailsMidway m) ->
   cacheFile w' = Present (PartialText (cacheEntry payload (clock w))) /\
   forall coerce, exists m, fst (loadCachedData coerce w') = Throws m).
Proof.
  unfold cacheResponse. cbv zeta. cbn [cacheDirExists mkdirFails log_op
    writeOutcome set_cacheDirExists clock].
  destruct (cacheDirExists w) eqn:Ed; cbn [negb];
    [|destruct (mkdirFails w) eqn:Em];
    destruct (writeOutcome w) as [|m|m] eqn:Ew;
    cbn [fsLog cacheFile set_cacheFile set_cacheDirExists log_op];
    (split; [eexists; rewrite <- ?app_assoc; split;
             [reflexivity | repeat constructor; tauto]|]);
    (split; [intros [H|H] H'; try discriminate; reflexivity|]);
    (split; [intros [[H H']|[m' H]]; try discriminate; reflexivity|]);
    intros [H|H] [m' H']; try discriminate;
    (split; [reflexivity|]); intro coerce; eexists; reflexivity.
Qed.

Lemma cacheResponse_spec_witness :
  cacheFile (cacheResponse (js_of_response thirtyTwoAtlantic)
                           (offline Absent WriteCompletes)) =
  Present (JsonText (cacheEntry (js_of_response thirtyTwoAtlantic)
                                "2025-03-02T08:00:00.000Z")).
Proof.
  apply (proj1 (proj2 (cacheResponse_spec (js_of_response thirtyTwoAtlantic)
                                          (offline Absent WriteCompletes)))).
  - left. reflexivity.
  - reflexivity.
Defined.

(** C8 as stated fails: the write goes straight to the cache file, so a write
    that fails midway replaces a good entry by a partial one, which is what a
    reader then finds. *)
Lemma cache_write_not_atomic :
  let w := offline goodCache (WriteFailsMidway "ENOSPC: no space left on device") in
  let w' := cacheResponse (js_of_response thirtyTwoAtlantic) w in
  fsLog w' = [ExistsSync CACHE_DIR; WriteFileSync CACHE_FILE] /\
  cacheFile w = goodCache /\
  cacheFile w' =
    Present (PartialText (cacheEntry (js_of_response thirtyTwoAtlantic)
                                     "2025-03-02T08:00:00.000Z")) /\
  cacheFile w' <> cacheFile w /\
  fst (loadCachedData no_coercion w) =
    Return {| Fetched.data := js_of_response thirtyTwoAtlantic;
              Fetched.isStale := true;
              Fetched.cacheTimestamp := JsString "2025-03-01T08:00:00.000Z" |} /\
  fst (loadCachedData no_coercion w') =
    Throws "SyntaxError: Unexpected end of JSON input".
Proof.
  cbv zeta. repeat split; try reflexivity. discriminate.
Qed.

Lemma classifyTeams_spec_witness :
  let group := filter (fun t => String.eqb (conference t) "Eastern")
                      (classifyTeams sampleTeams) in
  map conferenceRank group = seq 1 (length group) /\
  length group =
    length (filter (fun t => String.eqb (conference t) "Eastern") sampleTeams).
Proof.
  assert (Hnd : NoDup (map id sampleTeams)).
  { change (NoDup (seq 1 11)). apply seq_NoDup. }
  destruct (proj1 (proj2 (proj2 (classifyTeams_spec sampleTeams Hnd)))
                  "Eastern"%string) as (Hranks & Hlen & _).
  split; [exact Hranks | exact Hlen].
Defined.

(** * Further properties of the code

    Properties of the same functions, and of their callers and callees,
    beyond the statements above.  The statement about the whole document is
    proved in this part as well, once the facts about boards and counts it
    rests on are available. *)

(** ** Ranking *)

(** X1. The comparator is antisymmetric, as [Array.prototype.sort] needs of
    a consistent comparator: swapping the two teams negates the result of
    [applyTiebreaker] and of the comparator [sortTeamsByStandings] sorts
    with. *)
Theorem compareTeams_opp (a b : Team) :
  TiebreakerResult_value (applyTiebreaker b a) =
    (- TiebreakerResult_value (applyTiebreaker a b))%Z /\
  compareTeams b a = (- compareTeams a b)%Z.
Proof.
  unfold compareTeams, applyTiebreaker, Qgt_bool.
  split; qbool_cases; try reflexivity; exfalso; lra.
Qed.

(** X2. Sorting a sorted list changes nothing: [sortTeamsByStandings] is
    idempotent. *)
Theorem sortTeamsByStandings_idempotent (teams : list Team) :
  sortTeamsByStandings (sortTeamsByStandings teams) = sortTeamsByStandings teams.
Proof.
  unfold sortTeamsByStandings. apply Array_sort_sorted_id.
  apply Array_sort_sorted; [apply compareTeams_trans | apply compareTeams_total].
Qed.

(** X3. Sorting commutes with selection: the teams of a sorted list that
    satisfy a predicate are, in that order, the sorted list of the teams
    that satisfy it. *)
Theorem sortTeamsByStandings_filter (keep : Team -> bool) (teams : list Team) :
  filter keep (sortTeamsByStandings teams) = sortTeamsByStandings (filter keep teams).
Proof.
  unfold sortTeamsByStandings.
  apply Array_sort_filter; [apply compareTeams_trans | apply compareTeams_total].
Qed.

(** X4. The point percentage is monotone: with at least as many points
    in at most as many games (games played positive, points non-negative)
    the rounded percentage is at least as high. *)
Theorem calculatePointPercentage_monotone (p p' g g' : Q) :
  0 < g -> g <= g' -> 0 <= p -> p <= p' ->
  calculatePointPercentage p g' <= calculatePointPercentage p' g.
Proof.
  intros Hg Hgg Hp Hpp.
  rewrite !calculatePointPercentage_nonzero by lra.
  apply Qmult_le_compat_r; [|apply Qlt_le_weak, Qinv_lt_0_compat; reflexivity].
  apply Math_round_mono.
  apply Qmult_le_compat_r; [|discriminate].
  assert (H1 : 0 < g * 2) by lra.
  assert (H2 : 0 < g' * 2) by lra.
  apply Qle_shift_div_l; [exact H1|].
  unfold Qdiv. rewrite <- Qmult_assoc, (Qmult_comm (/ _)), Qmult_assoc.
  apply Qle_shift_div_r; [exact H2|]. nra.
Qed.

Lemma calculatePointPercentage_monotone_witness :
  calculatePointPercentage 50 41 <= calculatePointPercentage 51 40.
Proof.
  apply calculatePointPercentage_monotone; lra.
Defined.

(** ** Projection *)

(** On every triple of integers within the program's ranges (points up to
    164, games up to 82, a threshold from 80 to 120) the binary64 evaluation
    follows the rule on the integers. *)
Lemma binary64_projection_agrees (p g t : nat) :
  (p <= 164)%nat -> (g <= 82)%nat -> (80 <= t <= 120)%nat ->
  projection_ok p g t (f64_of_Z (Z.of_nat p)) (f64_of_Z (Z.of_nat g))
                (f64_of_Z (Z.of_nat t)) = true.
Proof.
  intros Hp Hg Ht.
  assert (Hall : (let ps := doubles 0 165 in
                  let gs := doubles 0 83 in
                  let ts := doubles 80 41 in
                  forallb (fun t => forallb (fun g => forallb (fun p =>
                    projection_ok (fst p) (fst g) (fst t) (snd p) (snd g) (snd t))
                    ps) gs) ts) = true)
    by (vm_compute; reflexivity).
  cbv zeta in Hall.
  assert (Hin : forall start len n, (start <= n < start + len)%nat ->
            In (n, f64_of_Z (Z.of_nat n)) (doubles start len)).
  { intros start len n Hn. unfold doubles.
    apply (in_map (fun n => (n, f64_of_Z (Z.of_nat n)))). apply in_seq. lia. }
  rewrite forallb_forall in Hall.
  specialize (Hall _ (Hin 80 41 t ltac:(lia))%nat). rewrite forallb_forall in Hall.
  specialize (Hall _ (Hin 0 83 g ltac:(lia))%nat). rewrite forallb_forall in Hall.
  exact (Hall _ (Hin 0 165 p ltac:(lia))%nat).
Qed.

Lemma Math_max_zero (x : Q) : 0 <= x -> Math_max 0 x == x.
Proof.
  intro H. unfold Math_max. destruct (Qlt_bool 0 x) eqn:E; [reflexivity|].
  apply Qlt_bool_false_iff in E. lra.
Qed.

Lemma inject_nat_le (a b : nat) : (a <= b)%nat <-> inject_Z (Z.of_nat a) <= inject_Z (Z.of_nat b).
Proof. rewrite <- Zle_Qle. lia. Qed.

Lemma inject_nat_lt (a b : nat) : (a < b)%nat <-> inject_Z (Z.of_nat a) < inject_Z (Z.of_nat b).
Proof. rewrite <- Zlt_Qlt. lia. Qed.

(** The most a team of [p] points and [g] games can reach. *)
Lemma inject_reachable (p g : nat) :
  (g <= 82)%nat ->
  inject_Z (Z.of_nat (p + 2 * (82 - g))) ==
  inject_Z (Z.of_nat p) + (82 - inject_Z (Z.of_nat g)) * 2.
Proof.
  intro Hg.
  replace (Z.of_nat (p + 2 * (82 - g))) with (Z.of_nat p + (82 - Z.of_nat g) * 2)%Z by lia.
  rewrite inject_Z_plus, inject_Z_mult. unfold Zminus.
  rewrite inject_Z_plus, inject_Z_opp. reflexivity.
Qed.

(** X5. On integer inputs within the program's ranges (points up to 164,
    games up to 82, a threshold from 80 to 120): whenever
    [calculatePlayoffStats] gives a required percentage it lies in (0, 100];
    the binary64 evaluation reaches the same status, gives a required
    percentage in the same cases, and that double lies in (0, 100] too. *)
Theorem required_percentage_range (team : Team) (threshold : Q) (p g t : nat) :
  points team == inject_Z (Z.of_nat p) ->
  gamesPlayed team == inject_Z (Z.of_nat g) ->
  threshold == inject_Z (Z.of_nat t) ->
  (p <= 164)%nat -> (g <= 82)%nat -> (80 <= t <= 120)%nat ->
  let exact := calculatePlayoffStats team threshold in
  let binary64 :=
    calculatePlayoffStats_f64 (f64_of_Z (Z.of_nat p)) (f64_of_Z (Z.of_nat g))
                              (f64_of_Z (Z.of_nat t)) in
  (forall q, requiredPointsPercentage exact = Some q -> 0 < q /\ q <= 100) /\
  fst binary64 = playoffStatus exact /\
  match snd binary64 with
  | Some x =>
      requiredPointsPercentage exact <> None /\
      PrimFloat.ltb zero_f64 x = true /\ PrimFloat.leb x hundred_f64 = true
  | None => requiredPointsPercentage exact = None
  end.
Proof.
  intros HP HG HT Hp Hg Ht exact binary64.
  pose proof (calculatePlayoffStats_cases team threshold) as C. cbv zeta in C.
  fold exact in C.
  assert (Hgap : pointsGap exact == threshold - points team) by reflexivity.
  assert (Hmax : maxPossiblePoints exact ==
                 points team + Math_max 0 (82 - gamesPlayed team) * 2) by reflexivity.
  assert (Hrem : remainingPoints exact == Math_max 0 (82 - gamesPlayed team) * 2)
    by reflexivity.
  assert (Hg' : inject_Z (Z.of_nat g) <= 82).
  { change 82 with (inject_Z (Z.of_nat 82)). now apply inject_nat_le. }
  rewrite Math_max_zero in Hmax, Hrem by lra.
  pose proof (inject_reachable p g Hg) as Hreach.
  split.
  - intros q H. clearbody exact.
    destruct C as [(_ & E & _) | [(_ & E & _) | (_ & E & Hlt & Hle & Hpos)]];
      rewrite E in H; try discriminate.
    injection H as <-.
    assert (H0 : 0 < pointsGap exact) by lra.
    assert (H1 : pointsGap exact <= remainingPoints exact) by lra.
    split.
    + apply Qmult_lt_0_compat; [|reflexivity].
      apply Qlt_shift_div_l; [exact Hpos | rewrite Qmult_0_l; exact H0].
    + assert (pointsGap exact / remainingPoints exact <= 1).
      { apply Qle_shift_div_r; [exact Hpos | rewrite Qmult_1_l; exact H1]. }
      lra.
  - pose proof (binary64_projection_agrees p g t Hp Hg Ht) as Hok.
    unfold projection_ok in Hok. fold binary64 in Hok.
    clearbody exact binary64. destruct binary64 as [status required]. cbn [fst snd].
    destruct status, required as [x|]; try discriminate.
    + (* clinched *)
      apply Nat.leb_le, inject_nat_le in Hok.
      destruct C as [(-> & -> & _) | [(_ & _ & Hlt & _) | (_ & _ & Hlt & _)]];
        [split; reflexivity | exfalso; lra | exfalso; lra].
    + (* eliminated *)
      apply andb_prop in Hok. destruct Hok as [H1 H2].
      apply Nat.ltb_lt, inject_nat_lt in H1, H2.
      destruct C as [(_ & _ & Hle) | [(-> & -> & _) | (_ & _ & _ & Hle & _)]];
        [exfalso; lra | split; reflexivity | exfalso; lra].
    + (* competing *)
      apply andb_prop in Hok. destruct Hok as [Hok Hhi].
      apply andb_prop in Hok. destruct Hok as [Hok Hlo].
      apply andb_prop in Hok. destruct Hok as [H1 H2].
      apply Nat.ltb_lt, inject_nat_lt in H1. apply Nat.leb_le, inject_nat_le in H2.
      destruct C as [(_ & _ & Hle) | [(_ & _ & _ & Hlt) | (-> & -> & _)]];
        [exfalso; lra | exfalso; lra |].
      split; [reflexivity|]. split; [discriminate|]. split; assumption.
Qed.

Lemma required_percentage_range_witness :
  let exact := calculatePlayoffStats (createTestTeam 80 70) 95 in
  let binary64 :=
    calculatePlayoffStats_f64 (f64_of_Z 80) (f64_of_Z 70) (f64_of_Z 95) in
  (forall q, requiredPointsPercentage exact = Some q -> 0 < q /\ q <= 100) /\
  fst binary64 = playoffStatus exact /\
  match snd binary64 with
  | Some x =>
      requiredPointsPercentage exact <> None /\
      PrimFloat.ltb zero_f64 x = true /\ PrimFloat.leb x hundred_f64 = true
  | None => requiredPointsPercentage exact = None
  end.
Proof.
  apply (required_percentage_range (createTestTeam 80 70) 95 80 70 95);
    try reflexivity; lia.
Defined.

(** With counts that are not integers the two evaluations part: for 27.999...
    wins the doubles give a team that can still reach 80 points and so a
    required percentage above 100, where the exact sums fall short of 80. *)
Example binary64_projection_differs :
  let points := PrimFloat.sub (f64_of_Z 56) (PrimFloat.div (f64_of_Z 1) (f64_of_Z (2 ^ 47))) in
  fst (calculatePlayoffStats_f64 points (f64_of_Z 70) (f64_of_Z 80)) = competing /\
  match snd (calculatePlayoffStats_f64 points (f64_of_Z 70) (f64_of_Z 80)) with
  | Some x => PrimFloat.ltb hundred_f64 x = true
  | None => False
  end.
Proof. cbv zeta. split; vm_compute; reflexivity. Qed.

(** X6. A team that has played 82 games or more has no remaining game or
    point, can reach no more than its current points, is given no required
    percentage, and is clinched or eliminated according to whether its
    points reach the threshold: it is never competing. *)
Theorem season_over_never_competing (team : Team) (threshold : Q) :
  82 <= gamesPlayed team ->
  let r := calculatePlayoffStats team threshold in
  remainingGames r = 0 /\
  remainingPoints r == 0 /\
  maxPossiblePoints r == points team /\
  requiredPointsPercentage r = None /\
  (threshold <= points team -> playoffStatus r = clinched) /\
  (points team < threshold -> playoffStatus r = eliminated).
Proof.
  intros Hgp r.
  assert (Hmax : Math_max 0 (TOTAL_SEASON_GAMES - gamesPlayed team) = 0).
  { unfold Math_max, TOTAL_SEASON_GAMES.
    destruct (Qlt_bool 0 (82 - gamesPlayed team)) eqn:E; [|reflexivity].
    apply Qlt_bool_iff in E. exfalso. lra. }
  assert (Hgames : remainingGames r = 0) by exact Hmax.
  assert (Hpts : remainingPoints r == 0).
  { change (remainingGames r * POINTS_PER_GAME == 0). rewrite Hgames. reflexivity. }
  assert (Hposs : maxPossiblePoints r == points team).
  { change (points team + remainingPoints r == points team). rewrite Hpts. ring. }
  pose proof (calculatePlayoffStats_cases team threshold) as C. cbv zeta in C.
  fold r in C. clearbody r.
  repeat split; try assumption.
  - destruct C as [(_ & E & _) | [(_ & E & _) | (_ & _ & _ & _ & Hpos)]];
      try exact E. exfalso. lra.
  - intro H. destruct C as [(E & _) | [(_ & _ & Hlt & _) | (_ & _ & Hlt & _)]];
      [exact E | exfalso; lra | exfalso; lra].
  - intro H. destruct C as [(_ & _ & Hle) | [(E & _) | (_ & _ & _ & _ & Hpos)]];
      [exfalso; lra | exact E | exfalso; lra].
Qed.

Lemma season_over_never_competing_witness :
  playoffStatus (calculatePlayoffStats (createTestTeam 94 82) 95) = eliminated.
Proof.
  apply (season_over_never_competing (createTestTeam 94 82) 95);
    [discriminate | reflexivity].
Defined.

(** X7. Raising the threshold never helps: a team clinched at the higher
    threshold is clinched at the lower one, a team eliminated at the lower
    one is eliminated at the higher one, and when both give a required
    percentage the higher threshold asks for at least as much. *)
Theorem threshold_monotone (team : Team) (lower higher : Q) :
  lower <= higher ->
  let r := calculatePlayoffStats team lower in
  let r' := calculatePlayoffStats team higher in
  (playoffStatus r' = clinched -> playoffStatus r = clinched) /\
  (playoffStatus r = eliminated -> playoffStatus r' = eliminated) /\
  (forall q q', requiredPointsPercentage r = Some q ->
                requiredPointsPercentage r' = Some q' -> q <= q').
Proof.
  intros Hle r r'.
  pose proof (calculatePlayoffStats_cases team lower) as C.
  pose proof (calculatePlayoffStats_cases team higher) as C'.
  cbv zeta in C, C'. fold r in C. fold r' in C'.
  assert (Hgap : pointsGap r == lower - points team) by reflexivity.
  assert (Hgap' : pointsGap r' == higher - points team) by reflexivity.
  assert (Hrem : remainingPoints r' = remainingPoints r) by reflexivity.
  assert (Hmax : maxPossiblePoints r' = maxPossiblePoints r) by reflexivity.
  clearbody r r'.
  split; [|split].
  - intro H'.
    destruct C' as [(_ & _ & H1) | [(E' & _) | (E' & _)]];
      try (rewrite E' in H'; discriminate).
    destruct C as [(E & _) | [(_ & _ & H2 & _) | (_ & _ & H2 & _)]];
      [exact E | exfalso; lra | exfalso; lra].
  - intro H.
    destruct C as [(E & _) | [(_ & _ & H1 & H2) | (E & _)]];
      try (rewrite E in H; discriminate).
    destruct C' as [(_ & _ & H3) | [(E' & _) | (_ & _ & _ & H3 & _)]];
      [exfalso; lra | exact E' | exfalso; rewrite Hmax in H3; lra].
  - intros q q' Hq Hq'.
    destruct C as [(_ & E & _) | [(_ & E & _) | (_ & E & _ & _ & Hpos)]];
      rewrite E in Hq; try discriminate.
    destruct C' as [(_ & E' & _) | [(_ & E' & _) | (_ & E' & _)]];
      rewrite E' in Hq'; try discriminate.
    injection Hq as <-. injection Hq' as <-. rewrite Hrem.
    apply Qmult_le_compat_r; [|discriminate].
    apply Qmult_le_compat_r; [lra|].
    apply Qlt_le_weak, Qinv_lt_0_compat. exact Hpos.
Qed.

Lemma threshold_monotone_witness :
  playoffStatus (calculatePlayoffStats (createTestTeam 60 75) 95) = eliminated.
Proof.
  apply (threshold_monotone (createTestTeam 60 75) 90 95);
    [discriminate | reflexivity].
Defined.

(** ** Classification counts *)

Lemma leaders_of_ranked (s : nat) (l : list Team) :
  length (filter isDivisionLeader
            (mapi_from s (fun index team =>
                            set_division (index <? 3)%nat (index + 1)%nat team) l)) =
  Nat.min (3 - s) (length l).
Proof.
  revert s. induction l as [|x l IH]; intro s;
    cbn [mapi_from filter length isDivisionLeader set_division].
  - now rewrite Nat.min_0_r.
  - destruct (s <? 3)%nat eqn:E; cbn [length]; rewrite IH;
      [apply Nat.ltb_lt in E | apply Nat.ltb_ge in E]; lia.
Qed.

Lemma rankDivision_leader_count (members : list Team) :
  length (filter isDivisionLeader (rankDivision members)) =
  Nat.min 3 (length members).
Proof.
  unfold rankDivision, mapi. rewrite leaders_of_ranked.
  unfold sortTeamsByStandings. now rewrite Array_sort_length.
Qed.

Lemma filter_length_erased {A B : Type} (erase : A -> B) (p : B -> bool)
  (l l' : list A) :
  Permutation (map erase l) (map erase l') ->
  length (filter (fun x => p (erase x)) l) =
  length (filter (fun x => p (erase x)) l').
Proof.
  intro H. apply (Permutation_filter p) in H. apply Permutation_length in H.
  now rewrite !filter_map_swap, !length_map in H.
Qed.

Lemma classified_leader_count (teams : list Team) (d : string) :
  length (filter (fun t => isDivisionLeader t && String.eqb (division t) d)
                 (classifyTeams teams)) =
  Nat.min 3 (length (filter (fun t => String.eqb (division t) d) teams)).
Proof.
  set (leaderOf := fun t => isDivisionLeader t && String.eqb (division t) d).
  transitivity (length (filter leaderOf (identifyDivisionLeaders teams))).
  - apply (filter_length_erased eraseLate leaderOf), classifyTeams_late.
  - unfold leaderOf. rewrite filter_andb, identifyDivisionLeaders_division.
    apply rankDivision_leader_count.
Qed.

(** X8. [identifyDivisionLeaders] flags exactly min(3, N) leaders in a
    division of N teams, and the two later passes keep that count. *)
Theorem division_leader_count (teams : list Team) (d : string) :
  let leaderOf := fun t => isDivisionLeader t && String.eqb (division t) d in
  let size := length (filter (fun t => String.eqb (division t) d) teams) in
  length (filter leaderOf (identifyDivisionLeaders teams)) = Nat.min 3 size /\
  length (filter leaderOf (classifyTeams teams)) = Nat.min 3 size.
Proof.
  intros leaderOf size. split.
  - unfold leaderOf. rewrite filter_andb, identifyDivisionLeaders_division.
    apply rankDivision_leader_count.
  - apply classified_leader_count.
Qed.

Lemma filter_listed_length (ids chosen : list nat) :
  NoDup ids -> NoDup chosen -> incl chosen ids ->
  length (filter (fun n => existsb (Nat.eqb n) chosen) ids) = length chosen.
Proof.
  intros Hids Hchosen Hincl. apply Permutation_length, NoDup_Permutation.
  - now apply NoDup_filter.
  - exact Hchosen.
  - intro n. rewrite filter_In, existsb_exists. split.
    + intros (_ & m & Hm & E). apply Nat.eqb_eq in E. now subst m.
    + intro Hn. split; [now apply Hincl|]. exists n. split; [exact Hn|apply Nat.eqb_refl].
Qed.

Lemma wildCardIdsOf_incl (members : list Team) :
  incl (wildCardIdsOf members) (map id members).
Proof.
  intros n Hn. unfold wildCardIdsOf in Hn. apply in_map_iff in Hn.
  destruct Hn as (w & <- & Hw). apply in_map.
  apply In_firstn in Hw. unfold sortTeamsByStandings in Hw.
  apply Array_sort_In in Hw. apply filter_In in Hw. tauto.
Qed.

Lemma firstn_NoDup {A : Type} (n : nat) (l : list A) : NoDup l -> NoDup (firstn n l).
Proof.
  revert n. induction l as [|x l IH]; intros [|n] H; simpl; try constructor.
  - inversion H; subst. intro Hin. apply In_firstn in Hin. contradiction.
  - inversion H; subst. now apply IH.
Qed.

Lemma wildCardIdsOf_NoDup (members : list Team) :
  NoDup (map id members) -> NoDup (wildCardIdsOf members).
Proof.
  intro Hnd. unfold wildCardIdsOf. rewrite <- firstn_map. apply firstn_NoDup.
  eapply Permutation_NoDup.
  - apply Permutation_map. unfold sortTeamsByStandings. apply Array_sort_perm.
  - now apply NoDup_map_filter.
Qed.

Lemma flagWildCards_count (members : list Team) :
  NoDup (map id members) ->
  length (filter isWildCard (flagWildCards members)) =
  Nat.min 2 (length (filter (fun t => negb (isDivisionLeader t)) members)).
Proof.
  intro Hnd. unfold flagWildCards. rewrite filter_map_swap, length_map. simpl.
  transitivity (length (wildCardIdsOf members)).
  - rewrite <- (filter_listed_length (map id members) (wildCardIdsOf members) Hnd
                  (wildCardIdsOf_NoDup members Hnd) (wildCardIdsOf_incl members)).
    now rewrite filter_map_swap, length_map.
  - unfold wildCardIdsOf, sortTeamsByStandings.
    now rewrite length_map, length_firstn, Array_sort_length.
Qed.

(** X9. On teams with distinct ids, [identifyWildCards] flags exactly
    min(2, M) wild cards in a conference with M teams that are not division
    leaders. *)
Theorem wild_card_count (teams : list Team) (c : string) :
  NoDup (map id teams) ->
  length (filter (fun t => isWildCard t && String.eqb (conference t) c)
                 (identifyWildCards teams)) =
  Nat.min 2 (length (filter (fun t => negb (isDivisionLeader t) &&
                                      String.eqb (conference t) c) teams)).
Proof.
  intro Hnd. rewrite !filter_andb, identifyWildCards_conference.
  apply flagWildCards_count. now apply NoDup_map_filter.
Qed.

Lemma wild_card_count_witness :
  length (filter (fun t => isWildCard t && String.eqb (conference t) "Eastern")
                 (identifyWildCards (identifyDivisionLeaders sampleTeams))) = 2%nat.
Proof.
  apply (wild_card_count (identifyDivisionLeaders sampleTeams) "Eastern").
  vm_compute. repeat constructor; simpl; intuition discriminate.
Defined.

(** X10. On teams with distinct ids, [identifyWildCards] never flags a
    division leader as a wild card. *)
Theorem wild_card_not_leader (teams : list Team) (t : Team) :
  NoDup (map id teams) ->
  In t (identifyWildCards teams) ->
  isWildCard t = true -> isDivisionLeader t = false.
Proof.
  intros Hnd Ht Hflag.
  assert (Hc : In t (flagWildCards
                       (filter (fun u => String.eqb (conference u) (conference t)) teams))).
  { rewrite <- identifyWildCards_conference. apply filter_In.
    split; [exact Ht | apply String.eqb_refl]. }
  set (members := filter _ teams) in Hc.
  assert (Hm : NoDup (map id members)) by now apply NoDup_map_filter.
  unfold flagWildCards in Hc. apply in_map_iff in Hc.
  destruct Hc as (t0 & Et & Ht0). rewrite <- Et in Hflag |- *.
  cbn [isWildCard isDivisionLeader set_isWildCard] in Hflag |- *.
  apply existsb_exists in Hflag. destruct Hflag as (n & Hn & E).
  apply Nat.eqb_eq in E. subst n.
  unfold wildCardIdsOf in Hn. apply in_map_iff in Hn.
  destruct Hn as (w & Hid & Hw).
  apply In_firstn in Hw. unfold sortTeamsByStandings in Hw.
  apply Array_sort_In in Hw. apply filter_In in Hw. destruct Hw as (Hw & Hnl).
  assert (w = t0) by (apply (NoDup_map_inj id members); assumption).
  subst w. now apply negb_true_iff in Hnl.
Qed.

Lemma wild_card_not_leader_witness :
  isDivisionLeader
    (nth 3 (identifyWildCards (identifyDivisionLeaders sampleTeams))
         (createTestTeam 0 0)) = false.
Proof.
  apply (wild_card_not_leader (identifyDivisionLeaders sampleTeams)).
  - vm_compute. repeat constructor; simpl; intuition discriminate.
  - vm_compute. do 3 right. left. reflexivity.
  - vm_compute. reflexivity.
Defined.

(** ** Boards *)

Lemma StronglySorted_weaken {A : Type} (R R' : A -> A -> Prop) (l : list A) :
  (forall a b, R a b -> R' a b) -> StronglySorted R l -> StronglySorted R' l.
Proof.
  intros HR H. induction H as [|x l _ IH Hx]; constructor; [exact IH|].
  eapply Forall_impl; [|exact Hx]. intros y. apply HR.
Qed.

Lemma StronglySorted_related {A B : Type} (Q : A -> B -> Prop)
  (R : A -> A -> Prop) (R' : B -> B -> Prop) (l : list A) (l' : list B) :
  (forall a a' b b', Q a a' -> Q b b' -> R a b -> R' a' b') ->
  Forall2 Q l l' -> StronglySorted R l -> StronglySorted R' l'.
Proof.
  intros HQ HF. induction HF as [|x y l l' Hxy HF IH]; intro HS.
  - constructor.
  - inversion HS as [|? ? HSl Hx]; subst. constructor; [now apply IH|].
    clear IH HSl HS. induction HF as [|a b l l' Hab HF IH]; constructor.
    + inversion Hx; subst. now apply (HQ x y a b).
    + inversion Hx; subst. now apply IH.
Qed.

Lemma Forall2_map_eq {A B C : Type} (f : A -> C) (g : B -> C) (l : list A) (l' : list B) :
  Forall2 (fun x y => f x = g y) l l' -> map f l = map g l'.
Proof. induction 1; simpl; congruence. Qed.

Lemma Forall2_map_l {A B : Type} (f : A -> B) (l : list A) :
  Forall2 (fun x y => y = f x) l (map f l).
Proof. induction l; constructor; auto. Qed.

Lemma filter_swap {A : Type} (p q : A -> bool) (l : list A) :
  filter p (filter q l) = filter q (filter p l).
Proof.
  rewrite <- !filter_andb. apply filter_ext. intro x. apply andb_comm.
Qed.

Lemma group_members_listed {A : Type} (k : string) (ms : list A)
  (groups : list (string * list A)) :
  NoDup (map fst groups) -> In (k, ms) groups -> group_members k groups = ms.
Proof.
  unfold group_members. induction groups as [|[k' ms'] groups IH]; intros Hnd Hin.
  - destruct Hin.
  - simpl in *. inversion Hnd as [|? ? Hk' Hnd']; subst.
    destruct Hin as [E | Hin].
    + injection E as -> ->. now rewrite String.eqb_refl.
    + destruct (String.eqb k' k) eqn:E.
      * apply String.eqb_eq in E. subst k'. exfalso. apply Hk'.
        now apply (in_map fst) in Hin.
      * now apply IH.
Qed.

Lemma group_push_nonempty {A : Type} (k : string) (x : A)
  (groups : list (string * list A)) :
  Forall (fun g => snd g <> []) groups ->
  Forall (fun g => snd g <> []) (group_push groups k x).
Proof.
  induction groups as [|[k' ms] groups IH]; intro H; simpl.
  - constructor; [discriminate | constructor].
  - inversion H as [|? ? Hms Hrest]; subst.
    destruct (String.eqb k' k); constructor; auto.
    simpl. now destruct ms.
Qed.

Lemma groupBy_nonempty {A : Type} (key : A -> string) (l : list A) :
  Forall (fun g => snd g <> []) (groupBy key l).
Proof.
  unfold groupBy.
  assert (H : forall groups : list (string * list A),
            Forall (fun g => snd g <> []) groups ->
            Forall (fun g => snd g <> [])
                   (fold_left (fun groups x => group_push groups (key x) x) l groups)).
  { induction l as [|x l IH]; intros groups Hg; simpl; [exact Hg|].
    now apply IH, group_push_nonempty. }
  apply H. constructor.
Qed.

(** A board of [organizeConference] is the sorted list of the conference's
    teams of that division; the division names are distinct and no board is
    empty. *)
Lemma organizeConference_board (teams : list Team) (c d : string) (board : list Team) :
  In (d, board) (divisions (organizeConference teams c)) ->
  board <> [] /\
  board = sortTeamsByStandings
            (filter (fun t => String.eqb (division t) d)
                    (filter (fun t => String.eqb (conference t) c) teams)).
Proof.
  rewrite organizeConference_shape. cbv zeta. cbn [divisions].
  set (members := filter _ teams). intro Hin.
  apply in_map_iff in Hin. destruct Hin as ([d' ms] & E & Hin).
  injection E as -> <-.
  assert (Hms : ms = filter (fun t => String.eqb (division t) d) members).
  { rewrite <- (groupBy_members division).
    symmetry. apply group_members_listed; [apply groupBy_NoDup | exact Hin]. }
  split.
  - pose proof (groupBy_nonempty division members) as Hne.
    rewrite Forall_forall in Hne. specialize (Hne _ Hin). simpl in Hne.
    intro E. apply Hne. apply Permutation_nil.
    rewrite <- E. unfold sortTeamsByStandings. symmetry. apply Array_sort_perm.
  - now rewrite Hms.
Qed.

Lemma organizeConference_names (teams : list Team) (c : string) :
  NoDup (map fst (divisions (organizeConference teams c))).
Proof.
  rewrite organizeConference_shape. cbv zeta. cbn [divisions].
  rewrite map_map.
  rewrite (map_ext _ fst) by (now intros [k ms]).
  apply groupBy_NoDup.
Qed.

Lemma classifyTeams_conference_sorted (teams : list Team) (c : string) :
  StronglySorted (fun a b => (conferenceRank a < conferenceRank b)%nat /\
                             (compareTeams a b <= 0)%Z)
                 (filter (fun t => String.eqb (conference t) c) (classifyTeams teams)).
Proof. rewrite classifyTeams_conference. apply rankConference_sorted. Qed.

Lemma sorted_selection (keep : Team -> bool) (l : list Team) :
  StronglySorted (fun a b => (compareTeams a b <= 0)%Z) l ->
  sortTeamsByStandings (filter keep l) = filter keep l.
Proof.
  intro H. unfold sortTeamsByStandings.
  now apply Array_sort_sorted_id, StronglySorted_filter.
Qed.

(** The division board, as a selection of the classified list. *)
Lemma classified_board (teams : list Team) (c d : string) (board : list Team) :
  In (d, board) (divisions (organizeConference (classifyTeams teams) c)) ->
  board = filter (fun t => String.eqb (division t) d)
                 (filter (fun t => String.eqb (conference t) c) (classifyTeams teams)).
Proof.
  intro Hin. apply organizeConference_board in Hin. destruct Hin as (_ & ->).
  apply sorted_selection.
  eapply StronglySorted_weaken; [|apply classifyTeams_conference_sorted].
  now intros a b [_ H].
Qed.

Lemma classified_wildCards (teams : list Team) (c : string) :
  wildCards (organizeConference (classifyTeams teams) c) =
  filter (fun t => negb (isDivisionLeader t))
         (filter (fun t => String.eqb (conference t) c) (classifyTeams teams)).
Proof.
  rewrite organizeConference_shape. cbv zeta. cbn [wildCards].
  apply sorted_selection.
  eapply StronglySorted_weaken; [|apply classifyTeams_conference_sorted].
  now intros a b [_ H].
Qed.

(** The teams of division [d] and conference [c] after classification are,
    in order and up to the fields written later, those of the ranked
    division. *)
Lemma classified_division_rows (teams : list Team) (c d : string) :
  Forall2 (fun x y => eraseLate y = eraseLate x)
    (filter (fun t => String.eqb (conference t) c)
            (rankDivision (filter (fun t => String.eqb (division t) d) teams)))
    (filter (fun t => String.eqb (division t) d)
            (filter (fun t => String.eqb (conference t) c) (classifyTeams teams))).
Proof.
  rewrite classifyTeams_conference.
  set (X := filter _ (identifyDivisionLeaders teams)).
  set (Z := filter (fun t => String.eqb (conference t) c) (rankDivision _)).
  set (byDivision := fun t => String.eqb (division t) d).
  set (fl := fun team =>
               set_isWildCard (existsb (Nat.eqb (id team)) (wildCardIdsOf X)) team).
  assert (HZ : filter byDivision X = Z).
  { unfold X, Z. rewrite filter_swap. unfold byDivision.
    now rewrite identifyDivisionLeaders_division. }
  assert (Hfl : filter byDivision (flagWildCards X) = map fl Z).
  { unfold flagWildCards. fold fl. rewrite filter_map_swap.
    rewrite <- HZ. reflexivity. }
  assert (HsZ : StronglySorted (fun a b => (compareTeams a b <= 0)%Z) (map fl Z)).
  { apply (StronglySorted_related (fun x y => y = fl x)
             (fun a b => (divisionRank a < divisionRank b)%nat /\
                         (compareTeams a b <= 0)%Z) _ Z).
    - intros a a' b b' -> -> [_ H]. exact H.
    - apply Forall2_map_l.
    - unfold Z. apply StronglySorted_filter, rankDivision_sorted. }
  assert (Hsel : filter byDivision (sortTeamsByStandings (flagWildCards X)) = map fl Z).
  { unfold sortTeamsByStandings.
    rewrite Array_sort_filter by (apply compareTeams_trans || apply compareTeams_total).
    rewrite Hfl. now apply Array_sort_sorted_id. }
  unfold rankConference, mapi.
  pose proof (mapi_from_filter
                (fun index team => set_conferenceRank (index + 1)%nat team)
                byDivision byDivision 0 (sortTeamsByStandings (flagWildCards X))
                (fun _ _ => eq_refl)) as Hrel.
  rewrite Hsel in Hrel.
  remember (filter byDivision (mapi_from 0 _ _)) as board eqn:Eb. clear Eb Hsel HsZ Hfl HZ.
  revert board Hrel. induction Z as [|z Z IH]; intros board Hrel.
  - inversion Hrel. constructor.
  - simpl in Hrel. inversion Hrel as [|? y ? l' (i & ->) Hrest]; subst.
    constructor; [reflexivity | now apply IH].
Qed.

(** X11. Every division board [organizeConference] builds from the
    classified teams lists teams of that division and of that conference
    only, by strictly increasing division rank and strictly increasing
    conference rank; no board is empty and no division is listed twice. *)
Theorem division_boards_ordered (teams : list Team) (c : string) :
  let side := organizeConference (classifyTeams teams) c in
  NoDup (map fst (divisions side)) /\
  forall d board, In (d, board) (divisions side) ->
    board <> [] /\
    Forall (fun t => division t = d /\ conference t = c) board /\
    StronglySorted (fun a b => (divisionRank a < divisionRank b)%nat) board /\
    StronglySorted (fun a b => (conferenceRank a < conferenceRank b)%nat) board.
Proof.
  intro side. split; [apply organizeConference_names|].
  intros d board Hin.
  pose proof (organizeConference_board _ _ _ _ Hin) as (Hne & _).
  apply classified_board in Hin.
  split; [exact Hne|]. split; [|split].
  - rewrite Hin. apply Forall_forall. intros t Ht.
    apply filter_In in Ht. destruct Ht as (Ht & Hd).
    apply filter_In in Ht. destruct Ht as (_ & Hc).
    now apply String.eqb_eq in Hd, Hc.
  - rewrite Hin.
    refine (StronglySorted_related (fun x y => eraseLate y = eraseLate x)
              (fun a b => (divisionRank a < divisionRank b)%nat /\
                          (compareTeams a b <= 0)%Z) _ _ _
              _ (classified_division_rows teams c d) _).
    + intros a a' b b' Ea Eb [H _].
      apply (f_equal divisionRank) in Ea, Eb. simpl in Ea, Eb. lia.
    + apply StronglySorted_filter, rankDivision_sorted.
  - rewrite Hin. apply StronglySorted_filter.
    eapply StronglySorted_weaken; [|apply classifyTeams_conference_sorted].
    now intros a b [H _].
Qed.

Lemma rankDivision_conference (c : string) (members : list Team) :
  Forall (fun x => conference x = c) members ->
  Forall (fun y => conference y = c) (rankDivision members).
Proof.
  intro H.
  pose proof (rankDivision_perm conference members (fun _ _ _ => eq_refl)) as P.
  rewrite Forall_forall in *. intros y Hy.
  apply (in_map conference) in Hy. apply (Permutation_in _ P) in Hy.
  apply in_map_iff in Hy. destruct Hy as (x & <- & Hx). now apply H.
Qed.

Lemma classified_leader_flag (teams : list Team) (t : Team) :
  In t (classifyTeams teams) ->
  isDivisionLeader t = (divisionRank t <=? 3)%nat.
Proof.
  intro Ht. destruct (classifyTeams_from_division teams t Ht) as (d & Hd & E).
  apply rankDivision_leader in Hd.
  pose proof (f_equal isDivisionLeader E) as E1.
  pose proof (f_equal divisionRank E) as E2. simpl in E1, E2.
  now rewrite <- E1, <- E2.
Qed.

Lemma classified_division_ranks (teams : list Team) (c d : string) :
  (forall t, In t teams -> division t = d -> conference t = c) ->
  let rows := filter (fun t => String.eqb (division t) d)
                (filter (fun t => String.eqb (conference t) c) (classifyTeams teams)) in
  map divisionRank rows = seq 1 (length rows) /\
  length rows = length (filter (fun t => String.eqb (division t) d) teams).
Proof.
  intros Hwithin rows.
  pose proof (classified_division_rows teams c d) as Hrows. fold rows in Hrows.
  set (members := filter (fun t => String.eqb (division t) d) teams) in *.
  assert (Hall : filter (fun t => String.eqb (conference t) c) (rankDivision members)
                 = rankDivision members).
  { apply filter_all_true.
    eapply Forall_impl; [|apply (rankDivision_conference c)].
    - intros y ->. apply String.eqb_refl.
    - apply Forall_forall. intros x Hx. apply filter_In in Hx.
      destruct Hx as (Hx & Hd). apply String.eqb_eq in Hd. now apply Hwithin. }
  rewrite Hall in Hrows.
  assert (Hlen : length rows = length members).
  { apply Forall2_length in Hrows. rewrite <- Hrows.
    unfold rankDivision, mapi, sortTeamsByStandings.
    now rewrite mapi_from_length, Array_sort_length. }
  split; [|exact Hlen].
  rewrite Hlen, <- rankDivision_ranks. symmetry.
  apply Forall2_map_eq.
  eapply Forall2_impl; [|exact Hrows].
  intros x y E. apply (f_equal divisionRank) in E. simpl in E. now symmetry.
Qed.

(** X12. When every team of a division is in the conference, the
    division's board carries the division ranks 1, 2, ..., N from top to
    bottom, N being the number of teams of the division. *)
Theorem division_board_ranks (teams : list Team) (c d : string) (board : list Team) :
  (forall t, In t teams -> division t = d -> conference t = c) ->
  In (d, board) (divisions (organizeConference (classifyTeams teams) c)) ->
  map divisionRank board = seq 1 (length board) /\
  length board = length (filter (fun t => String.eqb (division t) d) teams).
Proof.
  intros Hwithin Hin. apply classified_board in Hin. rewrite Hin.
  now apply classified_division_ranks.
Qed.

Lemma division_board_ranks_witness :
  let board := group_members "Central"
                 (divisions (organizeConference (classifyTeams sampleTeams) "Western")) in
  map divisionRank board = seq 1 (length board) /\
  length board =
    length (filter (fun t => String.eqb (division t) "Central") sampleTeams).
Proof.
  apply (division_board_ranks sampleTeams "Western" "Central").
  - intros t Ht. vm_compute in Ht.
    repeat (destruct Ht as [<- | Ht]; [vm_compute; first [reflexivity | discriminate]|]).
    destruct Ht.
  - vm_compute. left. reflexivity.
Defined.

Lemma map_const_repeat {A B : Type} (f : A -> B) (b : B) (l : list A) :
  Forall (fun x => f x = b) l -> map f l = repeat b (length l).
Proof. induction 1; simpl; congruence. Qed.

Lemma NoDup_app_disjoint {A : Type} (l1 l2 : list A) (x : A) :
  NoDup (l1 ++ l2) -> In x l1 -> ~ In x l2.
Proof.
  induction l1 as [|y l1 IH]; simpl; intros Hnd Hin; [destruct Hin|].
  inversion Hnd as [|? ? Hy Hrest]; subst. destruct Hin as [-> | Hin].
  - intro H. apply Hy, in_or_app. now right.
  - now apply IH.
Qed.

Lemma leading_flagged {A : Type} (flag : A -> bool) (n : nat) (l : list A) :
  NoDup l ->
  (forall t, In t l -> (flag t = true <-> In t (firstn n l))) ->
  map flag l =
  repeat true (Nat.min n (length l)) ++ repeat false (length l - n).
Proof.
  intros Hnd Hflag.
  rewrite <- (firstn_skipn n l) at 1. rewrite map_app.
  rewrite <- (length_firstn n l), <- (length_skipn n l). f_equal.
  - apply map_const_repeat, Forall_forall. intros t Ht.
    apply Hflag; [now apply In_firstn in Ht | exact Ht].
  - apply map_const_repeat, Forall_forall. intros t Ht.
    apply not_true_is_false. intro E.
    assert (Hl : In t l).
    { rewrite <- (firstn_skipn n l). apply in_or_app. now right. }
    apply (Hflag t Hl) in E.
    rewrite <- (firstn_skipn n l) in Hnd.
    exact (NoDup_app_disjoint _ _ t Hnd E Ht).
Qed.

Lemma classified_wild_card_flags (teams : list Team) (c : string) :
  NoDup (map id teams) ->
  let rows := filter (fun t => negb (isDivisionLeader t))
                (filter (fun t => String.eqb (conference t) c) (classifyTeams teams)) in
  map isWildCard rows =
  repeat true (Nat.min 2 (length rows)) ++ repeat false (length rows - 2).
Proof.
  intros Hnd rows.
  set (ranked := filter (fun t => String.eqb (conference t) c) (classifyTeams teams)) in *.
  assert (Hids : NoDup (map id ranked)).
  { apply NoDup_map_filter. eapply Permutation_NoDup; [|exact Hnd].
    symmetry. apply (classifyTeams_perm id); reflexivity. }
  apply leading_flagged.
  - apply (NoDup_map_inv id). now apply NoDup_map_filter.
  - intros t Ht.
    assert (Hr : In t ranked) by (apply filter_In in Ht; tauto).
    assert (Hsorted : sortTeamsByStandings
                        (filter (fun u => negb (isDivisionLeader u)) ranked) = rows).
    { apply sorted_selection.
      eapply StronglySorted_weaken; [|apply classifyTeams_conference_sorted].
      now intros a b [_ H]. }
    rewrite <- Hsorted. unfold ranked in Hr |- *.
    rewrite classifyTeams_conference in Hr |- *.
    apply wildcard_flag_conference; [|exact Hr].
    apply NoDup_map_filter. eapply Permutation_NoDup; [|exact Hnd].
    symmetry. apply identifyDivisionLeaders_perm. reflexivity.
Qed.

(** X13. On teams with distinct ids, the flagged teams of a wild-card
    board are exactly its first two rows (all of them when it has fewer);
    every row is a non-leader of the conference, and the rows go by strictly
    increasing conference rank. *)
Theorem wild_card_board (teams : list Team) (c : string) :
  NoDup (map id teams) ->
  let board := wildCards (organizeConference (classifyTeams teams) c) in
  map isWildCard board =
    repeat true (Nat.min 2 (length board)) ++ repeat false (length board - 2) /\
  Forall (fun t => isDivisionLeader t = false /\ conference t = c) board /\
  StronglySorted (fun a b => (conferenceRank a < conferenceRank b)%nat) board.
Proof.
  intros Hnd board. unfold board. rewrite classified_wildCards.
  split; [now apply classified_wild_card_flags|]. split.
  - apply Forall_forall. intros t Ht.
    apply filter_In in Ht. destruct Ht as (Ht & Hl).
    apply filter_In in Ht. destruct Ht as (_ & Hc).
    apply negb_true_iff in Hl. apply String.eqb_eq in Hc. now split.
  - apply StronglySorted_filter.
    eapply StronglySorted_weaken; [|apply classifyTeams_conference_sorted].
    now intros a b [H _].
Qed.

Lemma wild_card_board_witness :
  map isWildCard (wildCards (organizeConference (classifyTeams sampleTeams) "Eastern")) =
  [true; true; false; false].
Proof.
  apply (wild_card_board sampleTeams "Eastern").
  vm_compute. repeat constructor; simpl; intuition discriminate.
Defined.

(** ** Running a pass twice *)

Section Regrouping.
Context {A : Type} (key : A -> string).

Let push := fun (groups : list (string * list A)) (x : A) =>
              group_push groups (key x) x.

Lemma group_push_new (k : string) (x : A) (groups : list (string * list A)) :
  ~ In k (map fst groups) -> group_push groups k x = groups ++ [(k, [x])].
Proof.
  induction groups as [|[k' ms] groups IH]; intro Hk; [reflexivity|].
  simpl in *. destruct (String.eqb k' k) eqn:E.
  - apply String.eqb_eq in E. tauto.
  - rewrite IH by tauto. reflexivity.
Qed.

Lemma group_push_last (k : string) (x : A) (block : list A)
  (groups : list (string * list A)) :
  ~ In k (map fst groups) ->
  group_push (groups ++ [(k, block)]) k x = groups ++ [(k, block ++ [x])].
Proof.
  induction groups as [|[k' ms] groups IH]; intro Hk; simpl in *.
  - now rewrite String.eqb_refl.
  - destruct (String.eqb k' k) eqn:E.
    + apply String.eqb_eq in E. tauto.
    + rewrite IH by tauto. reflexivity.
Qed.

Lemma fold_push_block (k : string) (more block : list A)
  (groups : list (string * list A)) :
  ~ In k (map fst groups) ->
  Forall (fun x => key x = k) more ->
  fold_left push more (groups ++ [(k, block)]) = groups ++ [(k, block ++ more)].
Proof.
  intros Hk Hmore. revert block.
  induction Hmore as [|x more Hx _ IH]; intro block; cbn [fold_left].
  - now rewrite app_nil_r.
  - change (push (groups ++ [(k, block)]) x)
      with (group_push (groups ++ [(k, block)]) (key x) x).
    rewrite Hx, group_push_last by exact Hk.
    rewrite IH, <- app_assoc. reflexivity.
Qed.

Lemma fold_push_blocks (blocks groups : list (string * list A)) :
  NoDup (map fst (groups ++ blocks)) ->
  Forall (fun g => snd g <> [] /\ Forall (fun x => key x = fst g) (snd g)) blocks ->
  fold_left push (concat (map snd blocks)) groups = groups ++ blocks.
Proof.
  revert groups. induction blocks as [|[k block] blocks IH]; intros groups Hnd Hb.
  - simpl. now rewrite app_nil_r.
  - inversion Hb as [|? ? [Hne Hkeyed] Hrest]; subst. simpl in Hne, Hkeyed.
    simpl. rewrite fold_left_app.
    assert (Hk : ~ In k (map fst groups)).
    { rewrite map_app in Hnd. simpl in Hnd. apply NoDup_remove_2 in Hnd.
      intro H. apply Hnd, in_or_app. now left. }
    destruct block as [|x block]; [contradiction|].
    inversion Hkeyed as [|? ? Hx Hblock]; subst.
    cbn [snd fold_left].
    change (push groups x) with (group_push groups (key x) x).
    rewrite group_push_new by exact Hk.
    rewrite (fold_push_block (key x) block [x] groups Hk Hblock).
    cbn [app]. rewrite (IH (groups ++ [(key x, x :: block)])).
    + now rewrite <- app_assoc.
    + now rewrite <- app_assoc.
    + exact Hrest.
Qed.

Lemma groupBy_blocks (blocks : list (string * list A)) :
  NoDup (map fst blocks) ->
  Forall (fun g => snd g <> [] /\ Forall (fun x => key x = fst g) (snd g)) blocks ->
  groupBy key (concat (map snd blocks)) = blocks.
Proof.
  intros Hnd Hb. exact (fold_push_blocks blocks [] Hnd Hb).
Qed.

(** A pass that treats each group in place may be run twice. *)
Lemma per_group_idempotent (treat : list A -> list A) (l : list A) :
  (forall k members, Forall (fun x => key x = k) members ->
                     Forall (fun y => key y = k) (treat members)) ->
  (forall members, length (treat members) = length members) ->
  (forall members, treat (treat members) = treat members) ->
  per_group key treat (per_group key treat l) = per_group key treat l.
Proof.
  intros Hkeyed Hlen Hidem. unfold per_group.
  set (G := groupBy key l).
  set (G' := map (fun g : string * list A => (fst g, treat (snd g))) G).
  assert (Hflat : flat_map (fun '(_, members) => treat members) G = concat (map snd G')).
  { unfold G'. rewrite map_map. simpl. rewrite flat_map_concat_map.
    f_equal. apply map_ext. now intros [k ms]. }
  rewrite Hflat. rewrite groupBy_blocks.
  - unfold G'. rewrite flat_map_concat_map, !map_map. f_equal.
    apply map_ext. intros [k ms]. cbn [fst snd]. apply Hidem.
  - unfold G'. rewrite map_map. simpl. apply groupBy_NoDup.
  - unfold G'. apply Forall_map.
    pose proof (groupBy_nonempty key l) as Hne.
    pose proof (groupBy_keyed key l) as Hk.
    fold G in Hne, Hk. rewrite Forall_forall in *. intros g Hg. simpl. split.
    + intro E. apply (Hne g Hg). apply length_zero_iff_nil.
      rewrite <- (Hlen (snd g)), E. reflexivity.
    + apply Hkeyed. now apply Forall_forall, Forall_forall, Hk.
Qed.

End Regrouping.

Lemma mapi_from_again {A : Type} (f : nat -> A -> A) (s : nat) (l : list A) :
  (forall i x, f i (f i x) = f i x) ->
  mapi_from s f (mapi_from s f l) = mapi_from s f l.
Proof.
  intro H. revert s. induction l as [|x l IH]; intro s; simpl; [reflexivity|].
  now rewrite H, IH.
Qed.

Lemma rankDivision_idempotent (members : list Team) :
  rankDivision (rankDivision members) = rankDivision members.
Proof.
  assert (Hs : sortTeamsByStandings (rankDivision members) = rankDivision members).
  { unfold sortTeamsByStandings. apply Array_sort_sorted_id.
    eapply StronglySorted_weaken; [|apply rankDivision_sorted]. now intros a b [_ H]. }
  unfold rankDivision at 1. rewrite Hs. unfold rankDivision, mapi.
  now apply mapi_from_again.
Qed.

Lemma rankConference_idempotent (members : list Team) :
  rankConference (rankConference members) = rankConference members.
Proof.
  assert (Hs : sortTeamsByStandings (rankConference members) = rankConference members).
  { unfold sortTeamsByStandings. apply Array_sort_sorted_id, rankConference_le_sorted. }
  unfold rankConference at 1. rewrite Hs. unfold rankConference, mapi.
  now apply mapi_from_again.
Qed.

Lemma wildCardIdsOf_flagged (members : list Team) :
  wildCardIdsOf (flagWildCards members) = wildCardIdsOf members.
Proof.
  unfold wildCardIdsOf, flagWildCards.
  set (fl := fun team => set_isWildCard _ team).
  rewrite filter_map_swap. cbn [isDivisionLeader fl set_isWildCard].
  unfold sortTeamsByStandings.
  rewrite (Array_sort_map compareTeams fl) by reflexivity.
  rewrite <- firstn_map, map_map. cbn [id fl set_isWildCard].
  now rewrite firstn_map.
Qed.

Lemma flagWildCards_idempotent (members : list Team) :
  flagWildCards (flagWildCards members) = flagWildCards members.
Proof.
  unfold flagWildCards at 1. rewrite wildCardIdsOf_flagged.
  unfold flagWildCards. rewrite map_map. apply map_ext. reflexivity.
Qed.

(** X14. Each of the three classification passes is idempotent: run on
    its own output, it returns that output. *)
Theorem classification_passes_idempotent (teams : list Team) :
  identifyDivisionLeaders (identifyDivisionLeaders teams) =
    identifyDivisionLeaders teams /\
  identifyWildCards (identifyWildCards teams) = identifyWildCards teams /\
  calculateConferenceRanks (calculateConferenceRanks teams) =
    calculateConferenceRanks teams.
Proof.
  rewrite !identifyDivisionLeaders_per_group, !identifyWildCards_per_group,
    !calculateConferenceRanks_per_group.
  split; [|split]; apply per_group_idempotent.
  - apply rankDivision_keyed.
  - intro m. unfold rankDivision, mapi, sortTeamsByStandings.
    now rewrite mapi_from_length, Array_sort_length.
  - apply rankDivision_idempotent.
  - apply flagWildCards_keyed.
  - intro m. unfold flagWildCards. apply length_map.
  - apply flagWildCards_idempotent.
  - apply rankConference_keyed.
  - intro m. unfold rankConference, mapi, sortTeamsByStandings.
    now rewrite mapi_from_length, Array_sort_length.
  - apply rankConference_idempotent.
Qed.

(** ** Validator: entries *)

Section EntryChecks.
Variable coerce : Coercions.

Lemma checkNumeric_accepts (prefix : string) (team : JsValue)
  (fieldName : string) (lo hi : Z) :
  checkNumeric prefix team (fieldName, lo, hi) = [] <->
  exists n, member team fieldName = JsNumber n /\ within lo hi n.
Proof.
  unfold checkNumeric, within. split.
  - destruct (member team fieldName) as [| |b|n|s|l|l];
      cbn [typeof Number_isFinite number_of negb]; eqb_literals; cbn [negb];
      try discriminate.
    destruct (PrimFloat.is_finite n) eqn:Ef; cbn [negb]; [|discriminate].
    destruct (PrimFloat.ltb n (f64_of_Z lo)) eqn:El; [discriminate|].
    destruct (PrimFloat.ltb (f64_of_Z hi) n) eqn:Eh; [discriminate|].
    intros _. exists n. repeat split; assumption.
  - intros (n & -> & Hf & Hlo & Hhi).
    cbn [typeof Number_isFinite number_of negb]. eqb_literals. cbn [negb].
    now rewrite Hf, Hlo, Hhi.
Qed.

Lemma checkRequired_missing (prefix : string) (team : JsValue) :
  checkRequired prefix team =
  map (missingFieldError prefix)
      (filter (fun f => nullish (member team f)) requiredFields).
Proof.
  unfold checkRequired. induction requiredFields as [|f fs IH]; [reflexivity|].
  cbn [flat_map filter]. rewrite IH.
  now destruct (nullish (member team f)).
Qed.

Lemma checkRequired_none (prefix : string) (team : JsValue) :
  checkRequired prefix team = [] ->
  Forall (fun f => nullish (member team f) = false) requiredFields.
Proof.
  rewrite checkRequired_missing. intro H. apply map_eq_nil in H.
  apply Forall_forall. intros f Hf.
  destruct (nullish (member team f)) eqn:E; [|reflexivity].
  assert (Hin : In f (filter (fun f => nullish (member team f)) requiredFields))
    by (apply filter_In; now split).
  rewrite H in Hin. destruct Hin.
Qed.

Lemma checkDefault_nil (prefix fieldName text : string) (team : JsValue) :
  nullish (member team fieldName) = false ->
  (checkDefault prefix fieldName text team = [] <-> name_ok (member team fieldName)).
Proof.
  intro Hn. unfold checkDefault, name_ok, exposes_default. cbv zeta.
  destruct (member team fieldName) as [| |b|n|s|l|props] eqn:Ev;
    try discriminate; cbn [truthy typeof andb]; eqb_literals;
    rewrite ?andb_false_r; cbv iota;
    try (split; [intros _; split; [reflexivity | discriminate] | reflexivity]).
  - (* an array has no [default] *)
    cbn [member truthy negb orb]. split; [discriminate|].
    intros (_ & H). destruct (H eq_refl) as (s & Hs & _). discriminate.
  - destruct (member (JsObject props) "default") as [| |b|n|s|l|l];
      cbn [truthy typeof negb orb]; eqb_literals; cbn [negb];
      rewrite ?orb_true_r;
      try (split; [discriminate
                  | intros (_ & H); destruct (H eq_refl) as (s' & Hs & _);
                    discriminate]).
    destruct (String.eqb s "") eqn:Es; cbn [negb orb].
    + apply String.eqb_eq in Es. subst s. split; [discriminate|].
      intros (_ & H). destruct (H eq_refl) as (s' & Hs & Hne).
      injection Hs as <-. now destruct Hne.
    + apply String.eqb_neq in Es. split; [|reflexivity].
      intros _. split; [reflexivity|]. intros _. now exists s.
Qed.

(** An entry is accepted exactly when it is what [entry_ok] describes. *)
Lemma validateTeamEntry_accepted_iff (team : JsValue) (index : nat) :
  validateTeamEntry coerce team index = Return [] <-> entry_ok team.
Proof.
  set (prefix := ("standings[" ++ string_of_nat index ++ "]")%string).
  split.
  - intro H.
    destruct (validateTeamEntry_accepts coerce team index H) as (Hdiv & Hconf).
    apply includes_In in Hdiv, Hconf.
    destruct Hdiv as (d & Ed & Hd), Hconf as (c & Ec & Hc).
    apply validateTeamEntry_inv in H. cbv zeta in H. fold prefix in H.
    destruct H as (_ & [(Hne & E) | (Hreq & gs & ps & rs & ds & cs
                                     & Hg & Hp & Hr & _ & _ & E)]).
    { symmetry in E. contradiction. }
    apply checkRequired_none in Hreq.
    symmetry in E.
    apply app_eq_nil in E. destruct E as [Hnum E].
    apply app_eq_nil in E. destruct E as [-> E].
    apply app_eq_nil in E. destruct E as [-> E].
    apply app_eq_nil in E. destruct E as [-> E].
    apply app_eq_nil in E. destruct E as [_ E].
    apply app_eq_nil in E. destruct E as [_ E].
    apply app_eq_nil in E. destruct E as [Hname Habbrev].
    unfold numericValidations in Hnum. cbn [flat_map] in Hnum.
    repeat match type of Hnum with
    | _ ++ _ = [] =>
        let Hc := fresh "Hn" in
        apply app_eq_nil in Hnum; destruct Hnum as [Hc Hnum];
        apply checkNumeric_accepts in Hc
    end.
    destruct Hn as (w & Ew & Hw), Hn0 as (l & El & Hl), Hn1 as (o & Eo & Ho),
      Hn2 as (p & Ep & Hp'), Hn3 as (g & Eg & Hg'), Hn4 as (rw & Er & Hrw).
    apply checkGames_nil in Hg. destruct Hg as (partial & total & Ea & Eb & Hgames).
    apply checkPoints_nil in Hp. destruct Hp as (doubled & expected & Ec' & Ed' & Hpoints).
    apply checkRegulation_nil in Hr.
    rewrite Ew, El in Ea. rewrite js_add_numbers in Ea. injection Ea as <-.
    rewrite Eo, js_add_numbers in Eb. injection Eb as <-.
    rewrite Ew, js_mul_numbers in Ec'. injection Ec' as <-.
    rewrite Eo, js_add_numbers in Ed'. injection Ed' as <-.
    rewrite Er, Ew, js_gt_numbers in Hr. injection Hr as Hr.
    rewrite Eg in Hgames. rewrite Ep in Hpoints. cbn [strict_eq] in Hgames, Hpoints.
    rewrite Forall_forall in Hreq.
    exists w, l, o, p, g, rw, d, c.
    repeat (split; [assumption|]). split.
    + refine (proj1 (checkDefault_nil prefix "teamName" _ team _) Hname).
      apply Hreq. simpl. tauto.
    + refine (proj1 (checkDefault_nil prefix "teamAbbrev" _ team _) Habbrev).
      apply Hreq. simpl. tauto.
  - intros (w & l & o & p & g & rw & d & c & Ew & El & Eo & Ep & Eg & Er & Ed & Ec
            & Hw & Hl & Ho & Hp & Hg & Hrw & Hgames & Hpoints & Hreg & Hd & Hc
            & Hname & Habbrev).
    assert (Hteam : nullish team = false) by (destruct team; try discriminate; reflexivity).
    unfold validateTeamEntry. cbv zeta. fold prefix. rewrite Hteam.
    rewrite checkRequired_present.
    2:{ unfold requiredFields. destruct Hname as (Hn1 & _), Habbrev as (Hn2 & _).
        repeat constructor; try assumption;
          rewrite ?Ew, ?El, ?Eo, ?Ep, ?Eg, ?Er, ?Ed, ?Ec; reflexivity. }
    cbn [length Nat.ltb Nat.leb].
    unfold numericValidations. cbn [flat_map].
    rewrite (proj2 (checkNumeric_accepts prefix team "wins" 0 82)) by eauto.
    rewrite (proj2 (checkNumeric_accepts prefix team "losses" 0 82)) by eauto.
    rewrite (proj2 (checkNumeric_accepts prefix team "otLosses" 0 82)) by eauto.
    rewrite (proj2 (checkNumeric_accepts prefix team "points" 0 164)) by eauto.
    rewrite (proj2 (checkNumeric_accepts prefix team "gamesPlayed" 0 82)) by eauto.
    rewrite (proj2 (checkNumeric_accepts prefix team "regulationWins" 0 82)) by eauto.
    rewrite (proj2 (checkGames_nil coerce prefix team)).
    2:{ rewrite Ew, El, Eo, Eg. do 2 eexists.
        split; [apply js_add_numbers|]. split; [apply js_add_numbers | exact Hgames]. }
    rewrite (proj2 (checkPoints_nil coerce prefix team)).
    2:{ rewrite Ew, Eo, Ep. do 2 eexists.
        split; [apply js_mul_numbers|]. split; [apply js_add_numbers | exact Hpoints]. }
    rewrite (proj2 (checkRegulation_nil coerce prefix team)).
    2:{ rewrite Ew, Er, js_gt_numbers. now rewrite Hreg. }
    rewrite (proj2 (checkListed_nil coerce prefix "divisionName" "division"
                      VALID_DIVISIONS team)).
    2:{ rewrite Ed. apply includes_In. eauto. }
    rewrite (proj2 (checkListed_nil coerce prefix "conferenceName" "conference"
                      VALID_CONFERENCES team)).
    2:{ rewrite Ec. apply includes_In. eauto. }
    cbn [bind].
    rewrite (proj2 (checkDefault_nil prefix "teamName" _ team (proj1 Hname)) Hname).
    rewrite (proj2 (checkDefault_nil prefix "teamAbbrev" _ team (proj1 Habbrev)) Habbrev).
    reflexivity.
Qed.

Lemma validateEntries_accepted_iff (index : nat) (entries : list JsValue) :
  validateEntries coerce index entries = Return [] <-> Forall entry_ok entries.
Proof.
  revert index. induction entries as [|team rest IH]; intro index.
  - split; [constructor | reflexivity].
  - cbn [validateEntries]. split.
    + intro H.
      destruct (validateTeamEntry coerce team index) as [es|] eqn:E; [|discriminate].
      destruct (validateEntries coerce (S index) rest) as [more|] eqn:E'; [|discriminate].
      injection H as H. apply app_eq_nil in H. destruct H as [-> ->].
      constructor; [now apply (validateTeamEntry_accepted_iff team index)
                   | now apply (IH (S index))].
    + intro H. inversion H as [|? ? Hteam Hrest]; subst.
      rewrite (proj2 (validateTeamEntry_accepted_iff team index) Hteam).
      now rewrite (proj2 (IH (S index)) Hrest).
Qed.

End EntryChecks.

(** X15. An entry [validateTeamEntry] accepts carries six finite doubles
    within their ranges (points up to 164, the others up to 82) that satisfy
    the validator's three relations as binary64 computes them: games played
    equal to (wins + losses) + overtime losses, points equal to wins * 2 +
    overtime losses, and wins not below regulation wins. *)
Theorem accepted_entry_numbers (coerce : Coercions) (team : JsValue) (index : nat) :
  validateTeamEntry coerce team index = Return [] ->
  exists w l o p g rw : JsNum,
    member team "wins" = JsNumber w /\
    member team "losses" = JsNumber l /\
    member team "otLosses" = JsNumber o /\
    member team "points" = JsNumber p /\
    member team "gamesPlayed" = JsNumber g /\
    member team "regulationWins" = JsNumber rw /\
    within 0 82 w /\ within 0 82 l /\ within 0 82 o /\
    within 0 164 p /\ within 0 82 g /\ within 0 82 rw /\
    PrimFloat.eqb g (PrimFloat.add (PrimFloat.add w l) o) = true /\
    PrimFloat.eqb p (PrimFloat.add (PrimFloat.mul w (f64_of_Z 2)) o) = true /\
    PrimFloat.ltb w rw = false.
Proof.
  intro H. apply validateTeamEntry_accepted_iff in H.
  destruct H as (w & l & o & p & g & rw & d & c & H).
  exists w, l, o, p, g, rw. tauto.
Qed.

Lemma accepted_entry_numbers_witness :
  exists w l o p g rw : JsNum,
    member entryOfTenths "wins" = JsNumber w /\
    member entryOfTenths "losses" = JsNumber l /\
    member entryOfTenths "otLosses" = JsNumber o /\
    member entryOfTenths "points" = JsNumber p /\
    member entryOfTenths "gamesPlayed" = JsNumber g /\
    member entryOfTenths "regulationWins" = JsNumber rw /\
    within 0 82 w /\ within 0 82 l /\ within 0 82 o /\
    within 0 164 p /\ within 0 82 g /\ within 0 82 rw /\
    PrimFloat.eqb g (PrimFloat.add (PrimFloat.add w l) o) = true /\
    PrimFloat.eqb p (PrimFloat.add (PrimFloat.mul w (f64_of_Z 2)) o) = true /\
    PrimFloat.ltb w rw = false.
Proof.
  apply (accepted_entry_numbers no_coercion entryOfTenths 0).
  vm_compute. reflexivity.
Defined.

(** The sums are those of binary64, not of the rationals: the validator
    accepts the entry with 0.1 wins, 0.2 losses and 0.30000000000000004
    games played, whose games are not wins + losses in exact arithmetic, and
    rejects the one with 0.3 games played. *)
Example binary64_sums_accepted :
  validateTeamEntry no_coercion entryOfTenths 0 = Return [] /\
  PrimFloat.eqb (PrimFloat.add tenth (PrimFloat.add tenth tenth))
                (PrimFloat.div (f64_of_Z 3) (f64_of_Z 10)) = false.
Proof. split; vm_compute; reflexivity. Qed.

(** X16. When a required field of an entry is missing (undefined or
    null), [validateTeamEntry] returns one error per missing field, in the
    order of the required fields, and nothing else: the later checks are
    skipped. *)
Theorem missing_fields_only (coerce : Coercions) (team : JsValue) (index : nat) :
  nullish team = false ->
  Exists (fun f => nullish (member team f) = true) requiredFields ->
  validateTeamEntry coerce team index =
  Return (map (missingFieldError ("standings[" ++ string_of_nat index ++ "]"))
              (filter (fun f => nullish (member team f)) requiredFields)).
Proof.
  intros Hn Hex. unfold validateTeamEntry. cbv zeta. rewrite Hn.
  rewrite checkRequired_missing.
  match goal with |- context [(0 <? length ?m)%nat] =>
    destruct (0 <? length m)%nat eqn:E end; [reflexivity|].
  exfalso. apply Nat.ltb_ge in E. apply Nat.le_0_r, length_zero_iff_nil in E.
  apply map_eq_nil in E.
  apply Exists_exists in Hex. destruct Hex as (f & Hf & Hnull).
  assert (Hin : In f (filter (fun f => nullish (member team f)) requiredFields))
    by (apply filter_In; now split).
  rewrite E in Hin. destruct Hin.
Qed.

Lemma missing_fields_only_witness :
  validateTeamEntry no_coercion
    (JsObject [("wins"%string, JsString "many"); ("losses"%string, JsNull)]) 7 =
  Return (map (missingFieldError "standings[7]")
              ["teamName"; "teamAbbrev"; "losses"; "otLosses"; "points";
               "gamesPlayed"; "regulationWins"; "divisionName";
               "conferenceName"]%string).
Proof.
  apply (missing_fields_only no_coercion
           (JsObject [("wins"%string, JsString "many"); ("losses"%string, JsNull)]) 7).
  - reflexivity.
  - apply Exists_cons_hd. reflexivity.
Defined.

(** ** Validator: outcomes *)

Section ValidatorOutcome.
Variable coerce : Coercions.

Lemma validateTeamEntry_nullish (team : JsValue) (index : nat) :
  nullish team = true ->
  validateTeamEntry coerce team index = Throws (read_error coerce team "teamName").
Proof. intro H. unfold validateTeamEntry. cbv zeta. now rewrite H. Qed.

Lemma validateEntries_nullish (index : nat) (entries : list JsValue) :
  Exists (fun t => nullish t = true) entries ->
  exists m, validateEntries coerce index entries = Throws m.
Proof.
  intro H. revert index. induction H as [team rest Hteam | team rest _ IH]; intro index;
    cbn [validateEntries].
  - rewrite (validateTeamEntry_nullish team index Hteam). eauto.
  - destruct (validateTeamEntry coerce team index) as [es|m]; [|eauto].
    destruct (IH (S index)) as (m & ->). eauto.
Qed.

Lemma validateEntries_throws (index : nat) (entries : list JsValue) (m : string) :
  validateEntries coerce index entries = Throws m ->
  Exists (fun t => ~ plain_entry t) entries.
Proof.
  revert index. induction entries as [|team rest IH]; intros index H; [discriminate|].
  cbn [validateEntries] in H.
  destruct (validateTeamEntry coerce team index) as [es|m0] eqn:E.
  - destruct (validateEntries coerce (S index) rest) as [more|m1] eqn:E';
      [discriminate|].
    injection H as ->. apply Exists_cons_tl. exact (IH (S index) E').
  - apply Exists_cons_hd. intro Hplain.
    destruct (validateTeamEntry_plain coerce team index Hplain) as (es & Hes).
    congruence.
Qed.

End ValidatorOutcome.

(** X17. When [validateNHLApiResponse] throws, [standings] is an array
    one of whose entries is not plain: it is null or undefined, or one of
    the fields the validator computes with is an object or an array.  It
    does throw whenever the array holds a null or undefined entry.  On every
    other input - no array, or plain entries only - it returns a result. *)
Theorem validator_throws_cases (coerce : Coercions) (data : JsValue) :
  (forall m, validateNHLApiResponse coerce data = Throws m ->
     exists entries, member data "standings" = JsArray entries /\
                     Exists (fun t => ~ plain_entry t) entries) /\
  (forall entries, member data "standings" = JsArray entries ->
     Exists (fun t => nullish t = true) entries ->
     exists m, validateNHLApiResponse coerce data = Throws m) /\
  ((forall entries, member data "standings" = JsArray entries ->
      Forall plain_entry entries) ->
   exists r, validateNHLApiResponse coerce data = Return r).
Proof.
  assert (Hthrows : forall m, validateNHLApiResponse coerce data = Throws m ->
     exists entries, member data "standings" = JsArray entries /\
                     Exists (fun t => ~ plain_entry t) entries).
  { intro m. unfold validateNHLApiResponse.
    destruct (negb (truthy data)); [discriminate|].
    destruct (negb (truthy (member data "standings"))); [discriminate|].
    destruct (member data "standings") as [| | | | |entries|]; try discriminate.
    cbv zeta.
    destruct (validateEntries coerce 0 entries) as [es|m0] eqn:E; [discriminate|].
    intros _. exists entries. split; [reflexivity|].
    exact (validateEntries_throws coerce 0 entries m0 E). }
  split; [exact Hthrows|]. split.
  - intros entries Hst Hex.
    assert (Hdata : truthy data = true).
    { destruct data; try discriminate; reflexivity. }
    unfold validateNHLApiResponse. rewrite Hdata, Hst. cbn [negb truthy]. cbv zeta.
    destruct (validateEntries_nullish coerce 0 entries Hex) as (m & ->). eauto.
  - intro Hplain.
    destruct (validateNHLApiResponse coerce data) as [r|m] eqn:E; [eauto|].
    destruct (Hthrows m eq_refl) as (entries & Hst & Hex).
    specialize (Hplain entries Hst).
    apply Exists_exists in Hex. destruct Hex as (t & Ht & Hnot).
    rewrite Forall_forall in Hplain. destruct (Hnot (Hplain t Ht)).
Qed.

Lemma validator_throws_cases_witness :
  exists m,
    validateNHLApiResponse no_coercion
      (JsObject [("standings"%string, JsArray [entryWithoutDefault; JsNull])]) =
    Throws m.
Proof.
  apply (proj1 (proj2 (validator_throws_cases no_coercion
           (JsObject [("standings"%string, JsArray [entryWithoutDefault; JsNull])])))
           [entryWithoutDefault; JsNull]).
  - reflexivity.
  - apply Exists_cons_tl, Exists_cons_hd. reflexivity.
Defined.

(** X18. In every result a validator returns, [isValid] holds exactly
    when the list of errors is empty; for [validateNHLApiResponse] this
    covers the three early returns too. *)
Theorem valid_iff_no_errors :
  (forall coerce data r,
     validateNHLApiResponse coerce data = Return r ->
     (isValid r = true <-> errors r = [])) /\
  (forall data, isValid (validateTeamCount data) = true <->
                errors (validateTeamCount data) = []) /\
  (forall data, isValid (validateDivisionDistribution data) = true <->
                errors (validateDivisionDistribution data) = []) /\
  (forall data, isValid (validateConferenceDistribution data) = true <->
                errors (validateConferenceDistribution data) = []).
Proof.
  assert (Hlen : forall l : list ValidationError,
            (length l =? 0)%nat = true <-> l = []).
  { intro l. rewrite Nat.eqb_eq. apply length_zero_iff_nil. }
  split; [|split; [|split]]; try (intro data; apply Hlen).
  intros coerce data r. unfold validateNHLApiResponse.
  destruct (negb (truthy data));
    [intro H; injection H as <-; split; discriminate|].
  destruct (negb (truthy (member data "standings")));
    [intro H; injection H as <-; split; discriminate|].
  destruct (member data "standings") as [| | | | |entries|];
    try (intro H; injection H as <-; split; discriminate).
  cbv zeta.
  destruct (validateEntries coerce 0 entries) as [es|]; [|discriminate].
  intro H. injection H as <-. apply Hlen.
Qed.

Lemma count_error_shape (n : nat) :
  (if negb (n =? EXPECTED_TEAM_COUNT)%nat
   then [ {| field := "standings.length";
             message := [Lit "Expected "; Subst (js_nat EXPECTED_TEAM_COUNT);
                         Lit " teams, found "; Subst (js_nat n)];
             value := Some (js_nat n) |} ]
   else []) = [] <-> n = 32%nat.
Proof.
  destruct (n =? EXPECTED_TEAM_COUNT)%nat eqn:E; cbn [negb].
  - apply Nat.eqb_eq in E. tauto.
  - apply Nat.eqb_neq in E. split; [discriminate | contradiction].
Qed.

(** X19. [validateTeamCount] accepts exactly the snapshots of 32 entries,
    and the errors [validateNHLApiResponse] returns for a typed snapshot are
    those of [validateTeamCount] followed by the errors of the entries. *)
Theorem count_check_agrees (coerce : Coercions) (raw : NHL.ApiResponse)
  (r : ValidationResult) :
  validateNHLApiResponse coerce (js_of_response raw) = Return r ->
  (isValid (validateTeamCount raw) = true <-> length (NHL.standings raw) = 32%nat) /\
  exists teamErrors,
    validateEntries coerce 0 (map js_of_entry (NHL.standings raw)) = Return teamErrors /\
    errors r = errors (validateTeamCount raw) ++ teamErrors.
Proof.
  intro H. split.
  - unfold validateTeamCount. cbv zeta. cbn [isValid].
    rewrite Nat.eqb_eq, length_zero_iff_nil. apply count_error_shape.
  - unfold validateNHLApiResponse, js_of_response in H.
    cbn [truthy negb member lookup_prop] in H.
    rewrite String.eqb_refl in H. cbn [truthy negb] in H. cbv zeta in H.
    destruct (validateEntries coerce 0 _) as [es|]; [|discriminate].
    injection H as <-. exists es. split; [reflexivity|].
    cbn [errors]. unfold validateTeamCount. cbn [errors].
    now rewrite length_map.
Qed.

Lemma count_check_agrees_witness :
  isValid (validateTeamCount thirtyTwoAtlantic) = true <->
  length (NHL.standings thirtyTwoAtlantic) = 32%nat.
Proof.
  apply (count_check_agrees no_coercion thirtyTwoAtlantic
           {| isValid := true; errors := [] |}).
  vm_compute. reflexivity.
Defined.

(** ** Validator: accepted snapshots *)

(** X20. [validateNHLApiResponse] accepts a value exactly when its
    [standings] is an array of 32 entries each of which satisfies
    [entry_ok]: six finite doubles within their ranges obeying the three
    relations as binary64 computes them, a known division and conference,
    and a name and an abbreviation that are present and, when objects,
    expose a non-empty string [default]. *)
Theorem accepted_snapshot_iff (coerce : Coercions) (data : JsValue) :
  validateNHLApiResponse coerce data = Return {| isValid := true; errors := [] |} <->
  exists entries,
    member data "standings" = JsArray entries /\
    length entries = 32%nat /\ Forall entry_ok entries.
Proof.
  split.
  - intro H.
    destruct (validateNHLApiResponse_accepts coerce _ _ H eq_refl)
      as (entries & Hst & Hlen & Hes).
    exists entries. split; [exact Hst|]. split; [exact Hlen|].
    now apply (validateEntries_accepted_iff coerce 0).
  - intros (entries & Hst & Hlen & Hall).
    assert (Hdata : truthy data = true).
    { destruct data; try discriminate; reflexivity. }
    unfold validateNHLApiResponse. rewrite Hdata, Hst. cbn [negb truthy]. cbv zeta.
    rewrite (proj2 (validateEntries_accepted_iff coerce 0 entries) Hall), Hlen.
    reflexivity.
Qed.

(** ** The document of an accepted snapshot *)


Lemma filter_either_length {A : Type} (p q1 q2 : A -> bool) (l : list A) :
  (forall x, q1 x = true -> q2 x = true -> False) ->
  length (filter (fun x => p x && (q1 x || q2 x)) l) =
  (length (filter (fun x => p x && q1 x) l) +
   length (filter (fun x => p x && q2 x) l))%nat.
Proof.
  intro Hex. induction l as [|x l IH]; [reflexivity|]. cbn [filter].
  destruct (p x), (q1 x) eqn:E1, (q2 x) eqn:E2; cbn [andb orb length];
    rewrite IH; try lia.
  destruct (Hex x E1 E2).
Qed.

Lemma filter_key_length {A B K : Type} (f : A -> K) (g : B -> K) (p : K -> bool)
  (l : list A) (l' : list B) :
  Permutation (map f l) (map g l') ->
  length (filter (fun x => p (f x)) l) = length (filter (fun y => p (g y)) l').
Proof.
  intro H. apply (Permutation_filter p) in H. apply Permutation_length in H.
  now rewrite !filter_map_swap, !length_map in H.
Qed.

Lemma group_members_present {B : Type} (k : string) (groups : list (string * list B)) :
  group_members k groups <> [] -> In (k, group_members k groups) groups.
Proof.
  unfold group_members. induction groups as [|[k' ms] groups IH]; simpl.
  - intro H. now destruct H.
  - destruct (String.eqb k' k) eqn:E; simpl.
    + apply String.eqb_eq in E. subst k'. now left.
    + intro H. right. now apply IH.
Qed.

Lemma filter_two_keys_length {A : Type} (key : A -> string) (k1 k2 : string)
  (p : A -> bool) (l : list A) :
  k1 <> k2 ->
  length (filter (fun x => p x && (String.eqb (key x) k1 || String.eqb (key x) k2)) l) =
  (length (filter (fun x => p x && String.eqb (key x) k1) l) +
   length (filter (fun x => p x && String.eqb (key x) k2) l))%nat.
Proof.
  intro Hne. apply filter_either_length. intros x H1 H2.
  apply String.eqb_eq in H1, H2. congruence.
Qed.

Lemma filter_ext_length {A : Type} (p q : A -> bool) (l : list A) :
  (forall x, In x l -> p x = q x) ->
  length (filter p l) = length (filter q l).
Proof.
  intro H. f_equal. now apply filter_ext_in.
Qed.

(** One side of the document when its conference is made of two divisions
    of eight teams. *)
Lemma side_of_two_divisions (teams : list Team) (c d1 d2 : string) :
  NoDup (map id teams) ->
  d1 <> d2 ->
  (forall t, In t teams -> (conference t = c <-> division t = d1 \/ division t = d2)) ->
  length (filter (fun t => String.eqb (division t) d1) teams) = 8%nat ->
  length (filter (fun t => String.eqb (division t) d2) teams) = 8%nat ->
  let side := organizeConference (classifyTeams teams) c in
  (forall d, In d (map fst (divisions side)) <-> d = d1 \/ d = d2) /\
  (forall d board, In (d, board) (divisions side) ->
     map divisionRank board = seq 1 8 /\
     map isDivisionLeader board =
       [true; true; true; false; false; false; false; false]) /\
  map isWildCard (wildCards side) =
    [true; true; false; false; false; false; false; false; false; false].
Proof.
  intros Hnd Hne Hconf H1 H2 side.
  set (classified := classifyTeams teams) in *.
  set (inC := fun t : Team => String.eqb (conference t) c).
  set (inD := fun (d : string) (t : Team) => String.eqb (division t) d).
  assert (Hnames : Permutation (map (fun t => (division t, conference t)) classified)
                               (map (fun t => (division t, conference t)) teams))
    by (apply classifyTeams_perm; reflexivity).
  assert (Hconf' : forall t, In t classified ->
            (conference t = c <-> division t = d1 \/ division t = d2)).
  { intros t Ht. apply (in_map (fun t => (division t, conference t))) in Ht.
    apply (Permutation_in _ Hnames) in Ht. apply in_map_iff in Ht.
    destruct Ht as (t' & E & Ht'). injection E as <- <-. now apply Hconf. }
  assert (HinC : forall t, In t classified -> inC t = inD d1 t || inD d2 t).
  { intros t Ht. unfold inC, inD. specialize (Hconf' t Ht).
    destruct (String.eqb (conference t) c) eqn:Ec;
      destruct (String.eqb (division t) d1) eqn:E1;
      destruct (String.eqb (division t) d2) eqn:E2; try reflexivity; exfalso;
      rewrite ?String.eqb_eq, ?String.eqb_neq in *; tauto. }
  assert (Hwithin : forall d, d = d1 \/ d = d2 ->
            forall t, In t teams -> division t = d -> conference t = c).
  { intros d Hd t Ht E. apply (Hconf t Ht). destruct Hd; subst; tauto. }
  assert (Hsize : forall d, d = d1 \/ d = d2 -> length (filter (inD d) teams) = 8%nat)
    by (intros d [-> | ->]; assumption).
  assert (Hrows : forall d, d = d1 \/ d = d2 ->
            let rows := filter (inD d) (filter inC classified) in
            map divisionRank rows = seq 1 8 /\ length rows = 8%nat).
  { intros d Hd rows.
    destruct (classified_division_ranks teams c d (Hwithin d Hd)) as [Hr Hl].
    fold classified inC in Hr, Hl. fold (inD d) in Hr, Hl. fold rows in Hr, Hl.
    rewrite (Hsize d Hd) in Hl. rewrite Hl in Hr. now split. }
  assert (Hkeys : forall d, In d (map fst (divisions side)) <-> d = d1 \/ d = d2).
  { intro d. split.
    - intro Hd. apply in_map_iff in Hd. destruct Hd as ([d' board] & E & Hin).
      simpl in E. subst d'.
      pose proof (classified_board teams c d board Hin) as Hb.
      destruct (organizeConference_board _ _ _ _ Hin) as (Hnonempty & _).
      destruct board as [|t board]; [contradiction|].
      assert (Ht : In t (filter (inD d) (filter inC classified)))
        by (unfold inD, inC, classified; rewrite <- Hb; now left).
      apply filter_In in Ht. destruct Ht as (Ht & Ed).
      apply filter_In in Ht. destruct Ht as (Ht & Ec).
      apply String.eqb_eq in Ed, Ec. rewrite <- Ed. now apply Hconf'.
    - intro Hd. destruct (Hrows d Hd) as [_ Hlen].
      unfold side. rewrite organizeConference_shape. cbv zeta. cbn [divisions].
      rewrite map_map. rewrite (map_ext _ fst) by (now intros [k ms]).
      fold classified inC.
      assert (Hm : group_members d (groupBy division (filter inC classified)) <> []).
      { rewrite groupBy_members. fold (inD d). intro E. rewrite E in Hlen. discriminate. }
      apply group_members_present in Hm. now apply (in_map fst) in Hm. }
  split; [exact Hkeys|]. split.
  - intros d board Hin.
    assert (Hd : d = d1 \/ d = d2).
    { apply Hkeys. now apply (in_map fst) in Hin. }
    apply classified_board in Hin. fold classified inC in Hin. fold (inD d) in Hin.
    destruct (Hrows d Hd) as [Hr _]. rewrite <- Hin in Hr.
    split; [exact Hr|].
    transitivity (map (fun r => (r <=? 3)%nat) (map divisionRank board)).
    + rewrite map_map. apply map_ext_in. intros t Ht.
      apply (classified_leader_flag teams). fold classified.
      rewrite Hin in Ht. apply filter_In in Ht. destruct Ht as (Ht & _).
      apply filter_In in Ht. tauto.
    + rewrite Hr. reflexivity.
  - unfold side, classified. rewrite classified_wildCards. fold classified inC.
    pose proof (classified_wild_card_flags teams c Hnd) as Hflags.
    cbv zeta in Hflags. fold classified inC in Hflags. rewrite Hflags.
    assert (Hlen : length (filter (fun t => negb (isDivisionLeader t))
                                  (filter inC classified)) = 10%nat).
    { pose proof (filter_length isDivisionLeader (filter inC classified)) as Hsplit.
      assert (Hall : length (filter inC classified) = 16%nat).
      { rewrite (filter_ext_length inC (fun t => true && (inD d1 t || inD d2 t)))
          by exact HinC.
        unfold inD. rewrite (filter_two_keys_length division d1 d2 _ _ Hne).
        cbn [andb].
        rewrite !(filter_key_length division division
                    (fun k => String.eqb k _) classified teams)
          by (apply classifyTeams_perm; reflexivity).
        cbv beta. rewrite H1, H2. reflexivity. }
      assert (Hleaders : length (filter isDivisionLeader (filter inC classified)) = 6%nat).
      { rewrite <- filter_andb.
        rewrite (filter_ext_length _
                   (fun t => isDivisionLeader t && (inD d1 t || inD d2 t)))
          by (intros t Ht; now rewrite (HinC t Ht)).
        unfold inD. rewrite (filter_two_keys_length division d1 d2 _ _ Hne).
        unfold classified. rewrite !classified_leader_count.
        rewrite H1, H2. reflexivity. }
      lia. }
    rewrite Hlen. reflexivity.
Qed.

(** The teams handed to the classification passes. *)
Lemma percentaged_teams (raw : NHL.ApiResponse) :
  let teams := map (fun team =>
                      set_pointPercentage
                        (calculatePointPercentage (points team) (gamesPlayed team)) team)
                   (transformToTeams (NHL.standings raw)) in
  classifiedTeams raw = classifyTeams teams /\
  NoDup (map id teams) /\
  map division teams = map NHL.divisionName (NHL.standings raw) /\
  map conference teams = map NHL.conferenceName (NHL.standings raw) /\
  map (fun t => (division t, conference t)) teams =
    map (fun e => (NHL.divisionName e, NHL.conferenceName e)) (NHL.standings raw).
Proof.
  intro teams. split; [reflexivity|]. unfold teams.
  rewrite !map_map. cbn [id division conference set_pointPercentage].
  unfold transformToTeams, mapi. repeat split.
  - rewrite (mapi_from_map_index _ id) by reflexivity. apply seq_NoDup.
  - now rewrite (mapi_from_map_const _ division NHL.divisionName).
  - now rewrite (mapi_from_map_const _ conference NHL.conferenceName).
  - now rewrite (mapi_from_map_const _ (fun t => (division t, conference t))
                   (fun e => (NHL.divisionName e, NHL.conferenceName e))).
Qed.

(** X22. For an accepted snapshot with eight teams in each division,
    where the Eastern teams are those of the Atlantic and Metropolitan
    divisions, the conference distribution check passes and each side of
    the document has exactly its two division boards, each with ranks 1 to
    8 and the first three rows flagged as leaders, and a wild-card board of
    ten rows of which exactly the first two are flagged. *)
Theorem standard_snapshot_boards (coerce : Coercions) (now : string)
  (raw : NHL.ApiResponse) (r : ValidationResult) :
  validateNHLApiResponse coerce (js_of_response raw) = Return r ->
  isValid r = true ->
  isValid (validateDivisionDistribution raw) = true ->
  (forall e, In e (NHL.standings raw) ->
     (NHL.conferenceName e = "Eastern"%string <->
      NHL.divisionName e = "Atlantic"%string \/
      NHL.divisionName e = "Metropolitan"%string)) ->
  let doc := processStandings now raw in
  isValid (validateConferenceDistribution raw) = true /\
  standardSide (eastern doc) "Atlantic" "Metropolitan" /\
  standardSide (western doc) "Central" "Pacific".
Proof.
  intros Hr Hv Hdist Hmap doc.
  destruct (validated_typed_snapshot coerce raw r Hr Hv) as [_ Hnames].
  rewrite Forall_forall in Hnames.
  pose proof (proj1 (validateDivisionDistribution_spec raw) Hdist) as Hcount.
  destruct (percentaged_teams raw) as (Hcl & Hnd & Hdiv & Hcon & Hpairs).
  set (teams := map _ (transformToTeams (NHL.standings raw))) in *.
  assert (Hentry : forall t, In t teams ->
            exists e, In e (NHL.standings raw) /\
                      division t = NHL.divisionName e /\
                      conference t = NHL.conferenceName e).
  { intros t Ht. apply (in_map (fun t => (division t, conference t))) in Ht.
    rewrite Hpairs in Ht. apply in_map_iff in Ht.
    destruct Ht as (e & E & He). injection E as E1 E2. eauto. }
  assert (Hsize : forall d, In d VALID_DIVISIONS ->
            length (filter (fun t => String.eqb (division t) d) teams) = 8%nat).
  { intros d Hd. rewrite <- (Hcount d Hd).
    apply (filter_key_length division NHL.divisionName (fun k => String.eqb k d)).
    rewrite Hdiv. apply Permutation_refl. }
  assert (Heast : forall t, In t teams ->
            (conference t = "Eastern"%string <->
             division t = "Atlantic"%string \/ division t = "Metropolitan"%string)).
  { intros t Ht. destruct (Hentry t Ht) as (e & He & -> & ->). now apply Hmap. }
  assert (Hwest : forall t, In t teams ->
            (conference t = "Western"%string <->
             division t = "Central"%string \/ division t = "Pacific"%string)).
  { intros t Ht. destruct (Hentry t Ht) as (e & He & -> & ->).
    specialize (Hmap e He). destruct (Hnames e He) as [Hc Hd].
    unfold VALID_CONFERENCES, VALID_DIVISIONS in Hc, Hd. simpl in Hc, Hd.
    split.
    - intro E. rewrite E in Hmap.
      destruct Hd as [Hd | [Hd | [Hd | [Hd | []]]]]; rewrite <- Hd in *;
        try tauto; exfalso; assert (H : "Western"%string = "Eastern"%string)
          by (apply Hmap; tauto); discriminate.
    - intro E.
      destruct Hc as [Hc | [Hc | []]]; [|now symmetry].
      exfalso. symmetry in Hc. apply Hmap in Hc.
      destruct E as [E | E], Hc as [Hc | Hc]; rewrite E in Hc; discriminate. }
  destruct (processStandings_sides now raw) as [He Hw]. fold doc in He, Hw.
  rewrite Hcl in He, Hw.
  split; [|split].
  - apply validateConferenceDistribution_spec. intros c Hc.
    rewrite <- (filter_key_length conference NHL.conferenceName
                  (fun k => String.eqb k c) teams (NHL.standings raw))
      by (rewrite Hcon; apply Permutation_refl).
    cbv beta.
    unfold VALID_CONFERENCES in Hc. simpl in Hc.
    destruct Hc as [<- | [<- | []]].
    + rewrite (filter_ext_length _
                 (fun t => true && (String.eqb (division t) "Atlantic"
                                    || String.eqb (division t) "Metropolitan"))).
      * rewrite (filter_two_keys_length division) by discriminate. cbn [andb].
        rewrite !Hsize; [reflexivity | | ]; unfold VALID_DIVISIONS; simpl; tauto.
      * intros t Ht. specialize (Heast t Ht). cbn [andb].
        destruct (String.eqb (conference t) "Eastern") eqn:Ec;
          destruct (String.eqb (division t) "Atlantic") eqn:E1;
          destruct (String.eqb (division t) "Metropolitan") eqn:E2;
          try reflexivity; exfalso;
          rewrite ?String.eqb_eq, ?String.eqb_neq in *; tauto.
    + rewrite (filter_ext_length _
                 (fun t => true && (String.eqb (division t) "Central"
                                    || String.eqb (division t) "Pacific"))).
      * rewrite (filter_two_keys_length division) by discriminate. cbn [andb].
        rewrite !Hsize; [reflexivity | | ]; unfold VALID_DIVISIONS; simpl; tauto.
      * intros t Ht. specialize (Hwest t Ht). cbn [andb].
        destruct (String.eqb (conference t) "Western") eqn:Ec;
          destruct (String.eqb (division t) "Central") eqn:E1;
          destruct (String.eqb (division t) "Pacific") eqn:E2;
          try reflexivity; exfalso;
          rewrite ?String.eqb_eq, ?String.eqb_neq in *; tauto.
  - rewrite He. apply side_of_two_divisions; try assumption; try discriminate;
      apply Hsize; unfold VALID_DIVISIONS; simpl; tauto.
  - rewrite Hw. apply side_of_two_divisions; try assumption; try discriminate;
      apply Hsize; unfold VALID_DIVISIONS; simpl; tauto.
Qed.

Lemma standard_snapshot_boards_witness :
  let doc := processStandings "2025-03-02T08:00:00.000Z" standardSnapshot in
  isValid (validateConferenceDistribution standardSnapshot) = true /\
  standardSide (eastern doc) "Atlantic" "Metropolitan" /\
  standardSide (western doc) "Central" "Pacific".
Proof.
  apply (standard_snapshot_boards no_coercion "2025-03-02T08:00:00.000Z"
           standardSnapshot {| isValid := true; errors := [] |}).
  - vm_compute. reflexivity.
  - reflexivity.
  - vm_compute. reflexivity.
  - intros e He. vm_compute in He.
    repeat (destruct He as [<- | He];
            [cbn [NHL.conferenceName NHL.divisionName];
             split; [try discriminate; intros _; tauto
                    | try reflexivity; intros [H | H]; discriminate]|]).
    destruct He.
Defined.




(** The document of the standard snapshot: the Atlantic board goes from the
    team with 27 wins down to the one with 20, its first three rows being
    the leaders, and the Eastern wild-card board starts with the two teams
    of 24 wins. *)
Example standard_document :
  let doc := processStandings "2025-03-02T08:00:00.000Z" standardSnapshot in
  map (fun t => (wins t, pointPercentage t, divisionRank t, isDivisionLeader t))
      (group_members "Atlantic" (divisions (eastern doc))) =
  [(27, 0.540, 1%nat, true); (26, 0.520, 2%nat, true); (25, 0.500, 3%nat, true);
   (24, 0.480, 4%nat, false); (23, 0.460, 5%nat, false); (22, 0.440, 6%nat, false);
   (21, 0.420, 7%nat, false); (20, 0.400, 8%nat, false)] /\
  map (fun t => (division t, wins t, isWildCard t)) (firstn 3 (wildCards (eastern doc))) =
  [("Atlantic", 24, true); ("Metropolitan", 24, true); ("Atlantic", 23, false)]%string.
Proof. cbv zeta. split; vm_compute; reflexivity. Qed.

(** ** Acquirer: runs *)

Section FetchRuns.
Variable coerce : Coercions.

(** What [cacheResponse] leaves alone. *)
Lemma cacheResponse_frame (payload : JsValue) (w : World) :
  let w' := cacheResponse payload w in
  network w' = network w /\ sleeps w' = sleeps w /\ clock w' = clock w.
Proof.
  unfold cacheResponse. cbv zeta.
  cbn [cacheDirExists mkdirFails log_op writeOutcome set_cacheDirExists clock].
  destruct (cacheDirExists w); cbn [negb];
    [|destruct (mkdirFails w)];
    destruct (writeOutcome w); repeat split; reflexivity.
Qed.

Lemma cacheResponse_written (payload : JsValue) (w : World) :
  cacheDirExists w = true \/ mkdirFails w = false ->
  writeOutcome w = WriteCompletes ->
  cacheFile (cacheResponse payload w) =
  Present (JsonText (cacheEntry payload (clock w))).
Proof.
  unfold cacheResponse. cbv zeta.
  cbn [cacheDirExists mkdirFails log_op writeOutcome set_cacheDirExists clock].
  intros Hdir ->.
  destruct (cacheDirExists w); cbn [negb]; [reflexivity|].
  destruct (mkdirFails w); [|reflexivity].
  destruct Hdir; discriminate.
Qed.

(** What [loadCachedData] does to the world: it reads, never writes. *)
Lemma loadCachedData_frame (w : World) :
  let w' := snd (loadCachedData coerce w) in
  network w' = network w /\ sleeps w' = sleeps w /\
  cacheFile w' = cacheFile w /\ cacheDirExists w' = cacheDirExists w /\
  (fsLog w' = fsLog w ++ [ExistsSync CACHE_FILE] \/
   fsLog w' = fsLog w ++ [ExistsSync CACHE_FILE; ReadFileSync CACHE_FILE]).
Proof.
  unfold loadCachedData. cbv zeta. cbn [cacheFile log_op].
  destruct (cacheFile w) as [|m|[cd|cd|txt]] eqn:Ef;
    [| |destruct (nullish (JSON_roundtrip cd));
        [|destruct (negb _ || negb _);
          [|destruct (validateNHLApiResponse coerce _) as [r|m];
            [destruct (negb (isValid r))|]]]| |];
    cbn [snd log_op fsLog network sleeps cacheFile cacheDirExists];
    rewrite <- ?app_assoc; cbn [app]; repeat split; auto.
Qed.

Lemma tryFetch_validated (outcome : FetchOutcome) (payload : JsValue) :
  tryFetch coerce outcome = Return payload ->
  exists r, validateNHLApiResponse coerce payload = Return r /\ isValid r = true.
Proof.
  unfold tryFetch. destruct outcome as [m|response]; [discriminate|].
  destruct (negb (ok response)); [discriminate|].
  destruct (body response) as [d|m]; [|discriminate].
  destruct (validateNHLApiResponse coerce d) as [r|m] eqn:E; [|discriminate].
  destruct (isValid r) eqn:Ev; [|discriminate].
  intro H. injection H as <-. eauto.
Qed.

(** The world after the loop, for each way the three attempts can go. *)
Lemma fetchAttempts_first (w : World) (d : JsValue) :
  tryFetch coerce (network w 1) = Return d ->
  fetchAttempts coerce MAX_RETRIES 1 None w =
  (inl {| Fetched.data := d; Fetched.isStale := false;
          Fetched.cacheTimestamp := JsUndefined |},
   cacheResponse d w).
Proof.
  intro H. change MAX_RETRIES with 3%nat. now rewrite fetchAttempts_step, H.
Qed.

Lemma fetchAttempts_second (w : World) (m1 : string) (d : JsValue) :
  attempt_fails coerce w 1 m1 ->
  tryFetch coerce (network w 2) = Return d ->
  fetchAttempts coerce MAX_RETRIES 1 None w =
  (inl {| Fetched.data := d; Fetched.isStale := false;
          Fetched.cacheTimestamp := JsUndefined |},
   cacheResponse d (sleep 1000 w)).
Proof.
  unfold attempt_fails. intros H1 H2. change MAX_RETRIES with 3%nat.
  rewrite fetchAttempts_step, H1.
  change (if (1 <? MAX_RETRIES)%nat
          then sleep (INITIAL_RETRY_DELAY * 2 ^ (1 - 1)) w else w)
    with (sleep 1000 w).
  rewrite fetchAttempts_step.
  change (network (sleep 1000 w)) with (network w). now rewrite H2.
Qed.

Lemma fetchAttempts_third (w : World) (m1 m2 : string) :
  attempt_fails coerce w 1 m1 ->
  attempt_fails coerce w 2 m2 ->
  fetchAttempts coerce MAX_RETRIES 1 None w =
  match tryFetch coerce (network w 3) with
  | Return d =>
      (inl {| Fetched.data := d; Fetched.isStale := false;
              Fetched.cacheTimestamp := JsUndefined |},
       cacheResponse d (sleep 2000 (sleep 1000 w)))
  | Throws m3 => (inr (Some m3), sleep 2000 (sleep 1000 w))
  end.
Proof.
  unfold attempt_fails. intros H1 H2. change MAX_RETRIES with 3%nat.
  rewrite fetchAttempts_step, H1.
  change (if (1 <? MAX_RETRIES)%nat
          then sleep (INITIAL_RETRY_DELAY * 2 ^ (1 - 1)) w else w)
    with (sleep 1000 w).
  rewrite fetchAttempts_step.
  change (network (sleep 1000 w)) with (network w). rewrite H2.
  change (if (2 <? MAX_RETRIES)%nat
          then sleep (INITIAL_RETRY_DELAY * 2 ^ (2 - 1)) (sleep 1000 w)
          else sleep 1000 w)
    with (sleep 2000 (sleep 1000 w)).
  rewrite fetchAttempts_step.
  change (network (sleep 2000 (sleep 1000 w))) with (network w).
  destruct (tryFetch coerce (network w 3)); reflexivity.
Qed.

End FetchRuns.

(** The entry read back from the text written for [{ data, timestamp }]
    holds the payload as the JSON round trip leaves it. *)
Lemma cacheEntry_read_back (payload : JsValue) (timestamp : string) :
  member (JSON_roundtrip (cacheEntry payload timestamp)) "data" =
    JSON_roundtrip payload /\
  member (JSON_roundtrip (cacheEntry payload timestamp)) "timestamp" =
    JsString timestamp.
Proof. destruct payload; split; reflexivity. Qed.

Lemma written_cache_usable (coerce : Coercions) (payload : JsValue)
  (timestamp : string) (w : World) :
  accepted coerce (JSON_roundtrip payload) ->
  cacheFile w = Present (JsonText (cacheEntry payload timestamp)) ->
  usable_cache coerce w (JSON_roundtrip payload) (JsString timestamp).
Proof.
  intros Hacc Hf. exists (cacheEntry payload timestamp).
  destruct (cacheEntry_read_back payload timestamp) as [-> ->].
  repeat split; assumption.
Qed.

Lemma loadCachedData_usable (coerce : Coercions) (w : World) (payload ts : JsValue) :
  usable_cache coerce w payload ts ->
  fst (loadCachedData coerce w) =
  Return {| Fetched.data := payload; Fetched.isStale := true;
            Fetched.cacheTimestamp := ts |}.
Proof.
  intro Hu.
  destruct (loadCachedData_cases coerce w) as [(p & t & Hu' & E) | (Hno & _)].
  - destruct (usable_cache_unique coerce w _ _ _ _ Hu Hu') as [-> ->]. exact E.
  - destruct (Hno _ _ Hu).
Qed.

(** X23. The retry delays of [fetchNHLData]: none when the first attempt
    succeeds, 1000 ms when the second does, and 1000 ms then 2000 ms once
    two attempts have failed; no delay follows the third attempt. *)
Theorem fetchNHLData_backoff (coerce : Coercions) (w : World) :
  let w' := snd (fetchNHLData coerce w) in
  (forall d, tryFetch coerce (network w 1) = Return d -> sleeps w' = sleeps w) /\
  (forall m1 d, attempt_fails coerce w 1 m1 ->
                tryFetch coerce (network w 2) = Return d ->
                sleeps w' = sleeps w ++ [1000%nat]) /\
  (forall m1 m2, attempt_fails coerce w 1 m1 -> attempt_fails coerce w 2 m2 ->
                 sleeps w' = sleeps w ++ [1000%nat; 2000%nat]).
Proof.
  cbv zeta. unfold fetchNHLData. split; [|split].
  - intros d H. rewrite (fetchAttempts_first coerce w d H). cbn [snd].
    apply cacheResponse_frame.
  - intros m1 d H1 H2. rewrite (fetchAttempts_second coerce w m1 d H1 H2). cbn [snd].
    destruct (cacheResponse_frame d (sleep 1000 w)) as (_ & -> & _). reflexivity.
  - intros m1 m2 H1 H2. rewrite (fetchAttempts_third coerce w m1 m2 H1 H2).
    set (w2 := sleep 2000 (sleep 1000 w)).
    assert (Hs : sleeps w2 = sleeps w ++ [1000%nat; 2000%nat]).
    { unfold w2. cbn [sleep sleeps]. now rewrite <- app_assoc. }
    destruct (tryFetch coerce (network w 3)) as [d|m3].
    + cbn [snd]. destruct (cacheResponse_frame d w2) as (_ & -> & _). exact Hs.
    + destruct (loadCachedData_frame coerce w2) as (_ & Hsl & _).
      destruct (loadCachedData coerce w2) as [[res|m] w3]; cbn [snd] in *; congruence.
Qed.

Lemma fetchNHLData_backoff_witness :
  sleeps (snd (fetchNHLData no_coercion (offline goodCache WriteCompletes))) =
  [1000%nat; 2000%nat].
Proof.
  apply (proj2 (proj2 (fetchNHLData_backoff no_coercion
                         (offline goodCache WriteCompletes)))
               "fetch failed"%string "fetch failed"%string); reflexivity.
Defined.

(** X24. Whatever [fetchNHLData] returns, fresh or from the cache, has
    been accepted by the validator; a fresh result has no cache timestamp. *)
Theorem fetched_data_validated (coerce : Coercions) (w : World) (result : FetchResult) :
  fst (fetchNHLData coerce w) = Return result ->
  (exists r, validateNHLApiResponse coerce (Fetched.data result) = Return r /\
             isValid r = true) /\
  (Fetched.isStale result = false -> Fetched.cacheTimestamp result = JsUndefined).
Proof.
  intro H.
  destruct (fetchNHLData_cases coerce w)
    as [(k & d & _ & _ & Hd & E)
       |(m1 & m2 & m3 & _ & _ & _ & [(p & ts & Hu & E) | (_ & E)])];
    rewrite E in H; try discriminate; injection H as <-; cbn.
  - split; [now apply (tryFetch_validated coerce (network w k)) | reflexivity].
  - destruct Hu as (written & _ & _ & _ & Hacc).
    split; [exact Hacc | discriminate].
Qed.

Lemma fetched_data_validated_witness :
  exists r, validateNHLApiResponse no_coercion (js_of_response thirtyTwoAtlantic) = Return r /\
            isValid r = true.
Proof.
  apply (fetched_data_validated no_coercion (offline goodCache WriteCompletes)
           {| Fetched.data := js_of_response thirtyTwoAtlantic;
              Fetched.isStale := true;
              Fetched.cacheTimestamp := JsString "2025-03-01T08:00:00.000Z" |}).
  vm_compute. reflexivity.
Defined.

(** X25. A run whose three attempts fail leaves the cache file and the
    cache directory as they were: its only file-system calls are the
    existence check of the cache file and, when the file exists, one read. *)
Theorem failed_run_reads_only (coerce : Coercions) (w : World) (m1 m2 m3 : string) :
  attempt_fails coerce w 1 m1 -> attempt_fails coerce w 2 m2 ->
  attempt_fails coerce w 3 m3 ->
  let w' := snd (fetchNHLData coerce w) in
  cacheFile w' = cacheFile w /\
  cacheDirExists w' = cacheDirExists w /\
  (fsLog w' = fsLog w ++ [ExistsSync CACHE_FILE] \/
   fsLog w' = fsLog w ++ [ExistsSync CACHE_FILE; ReadFileSync CACHE_FILE]).
Proof.
  intros H1 H2 H3. cbv zeta. unfold fetchNHLData.
  rewrite (fetchAttempts_third coerce w m1 m2 H1 H2).
  unfold attempt_fails in H3. rewrite H3.
  set (w2 := sleep 2000 (sleep 1000 w)).
  destruct (loadCachedData_frame coerce w2) as (_ & _ & Hf & Hd & Hlog).
  destruct (loadCachedData coerce w2) as [[res|m] w3]; cbn [snd] in *;
    (split; [exact Hf | split; [exact Hd | exact Hlog]]).
Qed.

Lemma failed_run_reads_only_witness :
  cacheFile (snd (fetchNHLData no_coercion (offline goodCache WriteCompletes))) =
  goodCache.
Proof.
  apply (failed_run_reads_only no_coercion (offline goodCache WriteCompletes)
           "fetch failed" "fetch failed" "fetch failed"); reflexivity.
Defined.

(** X26. Round trip through the cache: after [cacheResponse] has written
    a payload (the directory exists or can be made, the write completes),
    [loadCachedData] reads back the payload as JSON serialisation leaves it
    ([JSON_roundtrip]: a non-finite number has become null, a negative zero
    a zero).  When the validator accepts what is read back, it is returned,
    marked stale, with the time of the write as its timestamp; when it does
    not, the read throws. *)
Theorem cache_round_trip (coerce : Coercions) (payload : JsValue) (w : World) :
  cacheDirExists w = true \/ mkdirFails w = false ->
  writeOutcome w = WriteCompletes ->
  (accepted coerce (JSON_roundtrip payload) ->
   fst (loadCachedData coerce (cacheResponse payload w)) =
   Return {| Fetched.data := JSON_roundtrip payload; Fetched.isStale := true;
             Fetched.cacheTimestamp := JsString (clock w) |}) /\
  (~ accepted coerce (JSON_roundtrip payload) ->
   exists m, fst (loadCachedData coerce (cacheResponse payload w)) = Throws m).
Proof.
  intros Hdir Hwrite.
  pose proof (cacheResponse_written payload w Hdir Hwrite) as Hfile.
  split.
  - intro Hacc. now apply loadCachedData_usable, written_cache_usable.
  - intro Hno.
    destruct (loadCachedData_cases coerce (cacheResponse payload w))
      as [(p & ts & (written & Hf & Hp & _ & Hacc) & _) | (_ & Hm)]; [|exact Hm].
    rewrite Hfile in Hf. injection Hf as <-.
    rewrite (proj1 (cacheEntry_read_back payload (clock w))) in Hp. subst p.
    contradiction.
Qed.

Lemma cache_round_trip_witness :
  fst (loadCachedData no_coercion
         (cacheResponse (js_of_response thirtyTwoAtlantic)
                        (offline Absent WriteCompletes))) =
  Return {| Fetched.data := js_of_response thirtyTwoAtlantic;
            Fetched.isStale := true;
            Fetched.cacheTimestamp := JsString "2025-03-02T08:00:00.000Z" |}.
Proof.
  apply (proj1 (cache_round_trip no_coercion (js_of_response thirtyTwoAtlantic)
                  (offline Absent WriteCompletes) (or_introl eq_refl) eq_refl)).
  exists {| isValid := true; errors := [] |}. split; vm_compute; reflexivity.
Defined.

(** What is read back need not be what was written: a payload the validator
    accepts can carry, in a field the validator does not look at, a number
    that is not finite (the JSON literal 1e999 parses to Infinity), and the
    cache returns it with null in that place. *)
Example cache_changes_infinity :
  let entry :=
    JsObject [("teamAbbrev", JsObject [("default", JsString "TOR")]);
              ("teamName", JsObject [("default", JsString "Toronto Maple Leafs")]);
              ("wins", JsNumber (f64_of_Z 30)); ("losses", JsNumber (f64_of_Z 15));
              ("otLosses", JsNumber (f64_of_Z 5)); ("points", JsNumber (f64_of_Z 65));
              ("gamesPlayed", JsNumber (f64_of_Z 50));
              ("regulationWins", JsNumber (f64_of_Z 25));
              ("regulationPlusOtWins", JsNumber PrimFloat.infinity);
              ("divisionName", JsString "Atlantic");
              ("conferenceName", JsString "Eastern")]%string in
  let payload := JsObject [("standings"%string, JsArray (repeat entry 32))] in
  validateNHLApiResponse no_coercion payload =
    Return {| isValid := true; errors := [] |} /\
  member (nth 0 (snapshot_entries payload) JsUndefined) "regulationPlusOtWins" =
    JsNumber PrimFloat.infinity /\
  exists result,
    fst (loadCachedData no_coercion
           (cacheResponse payload (offline Absent WriteCompletes))) = Return result /\
    member (nth 0 (snapshot_entries (Fetched.data result)) JsUndefined)
           "regulationPlusOtWins" = JsNull.
Proof.
  cbv zeta. split; [vm_compute; reflexivity|]. split; [reflexivity|].
  eexists. split; vm_compute; reflexivity.
Qed.

Lemma fresh_run_world (coerce : Coercions) (w : World) (payload : JsValue) :
  fst (fetchNHLData coerce w) =
    Return {| Fetched.data := payload; Fetched.isStale := false;
              Fetched.cacheTimestamp := JsUndefined |} ->
  (exists r, validateNHLApiResponse coerce payload = Return r /\ isValid r = true) /\
  exists w0,
    snd (fetchNHLData coerce w) = cacheResponse payload w0 /\
    cacheDirExists w0 = cacheDirExists w /\ mkdirFails w0 = mkdirFails w /\
    writeOutcome w0 = writeOutcome w /\ clock w0 = clock w.
Proof.
  unfold fetchNHLData.
  destruct (tryFetch coerce (network w 1)) as [d1|m1] eqn:E1.
  { rewrite (fetchAttempts_first coerce w d1 E1). cbn [fst snd].
    intro H. injection H as <-.
    split; [now apply (tryFetch_validated coerce (network w 1))|].
    exists w. repeat split. }
  destruct (tryFetch coerce (network w 2)) as [d2|m2] eqn:E2.
  { rewrite (fetchAttempts_second coerce w m1 d2 E1 E2). cbn [fst snd].
    intro H. injection H as <-.
    split; [now apply (tryFetch_validated coerce (network w 2))|].
    exists (sleep 1000 w). repeat split. }
  rewrite (fetchAttempts_third coerce w m1 m2 E1 E2).
  destruct (tryFetch coerce (network w 3)) as [d3|m3] eqn:E3.
  { cbn [fst snd]. intro H. injection H as <-.
    split; [now apply (tryFetch_validated coerce (network w 3))|].
    exists (sleep 2000 (sleep 1000 w)). repeat split. }
  set (w2 := sleep 2000 (sleep 1000 w)).
  destruct (loadCachedData_cases coerce w2) as [(p & ts & _ & E) | (_ & m & E)];
    destruct (loadCachedData coerce w2) as [[res|m'] w3]; cbn [fst] in *;
    try discriminate.
  injection E as ->. discriminate.
Qed.

(** X27. What a fresh run caches, a later run whose three requests all
    fail returns: the payload as JSON serialisation leaves it, provided the
    validator accepts that, marked stale and stamped with the time of the
    fresh run. *)
Theorem fresh_then_stale (coerce : Coercions) (w later : World) (payload : JsValue) :
  fst (fetchNHLData coerce w) =
    Return {| Fetched.data := payload; Fetched.isStale := false;
              Fetched.cacheTimestamp := JsUndefined |} ->
  cacheDirExists w = true \/ mkdirFails w = false ->
  writeOutcome w = WriteCompletes ->
  cacheFile later = cacheFile (snd (fetchNHLData coerce w)) ->
  (forall k, (1 <= k <= 3)%nat -> exists m, fails_with coerce (network later k) m) ->
  accepted coerce (JSON_roundtrip payload) ->
  fst (fetchNHLData coerce later) =
    Return {| Fetched.data := JSON_roundtrip payload; Fetched.isStale := true;
              Fetched.cacheTimestamp := JsString (clock w) |}.
Proof.
  intros Hfresh Hdir Hwrite Hfile Hfail Hacc.
  destruct (fresh_run_world coerce w payload Hfresh)
    as (_ & w0 & Hw0 & Hd0 & Hm0 & Ho0 & Hc0).
  assert (Hu : usable_cache coerce later (JSON_roundtrip payload) (JsString (clock w))).
  { apply (written_cache_usable coerce payload); [assumption|].
    rewrite Hfile, Hw0, <- Hc0. apply cacheResponse_written; congruence. }
  destruct (fetchNHLData_cases coerce later)
    as [(k & d & Hk & _ & Hd & _)
       |(_ & _ & _ & _ & _ & _ & [(p & ts & Hu' & E) | (Hno & _)])].
  - destruct (Hfail k Hk) as (m & Hm). apply tryFetch_Throws in Hm. congruence.
  - destruct (usable_cache_unique coerce later _ _ _ _ Hu Hu') as [<- <-]. exact E.
  - destruct (Hno _ _ Hu).
Qed.

Lemma fresh_then_stale_witness :
  let later :=
    offline (Present (JsonText (cacheEntry (js_of_response thirtyTwoAtlantic)
                                           "2025-03-02T08:00:00.000Z")))
            WriteCompletes in
  fst (fetchNHLData no_coercion later) =
    Return {| Fetched.data := js_of_response thirtyTwoAtlantic;
              Fetched.isStale := true;
              Fetched.cacheTimestamp := JsString "2025-03-02T08:00:00.000Z" |}.
Proof.
  apply (fresh_then_stale no_coercion
           (online (js_of_response thirtyTwoAtlantic) Absent WriteCompletes)
           _ (js_of_response thirtyTwoAtlantic)).
  - vm_compute. reflexivity.
  - right. reflexivity.
  - reflexivity.
  - vm_compute. reflexivity.
  - intros k _. exists "fetch failed"%string. apply request_rejected.
  - exists {| isValid := true; errors := [] |}. split; vm_compute; reflexivity.
Defined.

Lemma fetchAttempts_network (coerce : Coercions) (remaining attempt : nat)
  (lastError : option string) (w1 w2 : World) :
  network w1 = network w2 ->
  fst (fetchAttempts coerce remaining attempt lastError w1) =
  fst (fetchAttempts coerce remaining attempt lastError w2).
Proof.
  revert attempt lastError w1 w2.
  induction remaining as [|remaining IH]; intros attempt lastError w1 w2 Hn;
    [reflexivity|].
  rewrite !fetchAttempts_step, Hn.
  destruct (tryFetch coerce (network w2 attempt)) as [d|m]; [reflexivity|].
  apply IH.
  destruct (after_failure_same attempt w1) as [-> _].
  destruct (after_failure_same attempt w2) as [-> _]. exact Hn.
Qed.

(** X28. A fresh result depends on the network alone: a world with the
    same network answers gives the same result, whatever its cache holds
    and however its cache write ends. *)
Theorem fresh_result_network_only (coerce : Coercions) (w1 w2 : World)
  (result : FetchResult) :
  network w1 = network w2 ->
  fst (fetchNHLData coerce w1) = Return result ->
  Fetched.isStale result = false ->
  fst (fetchNHLData coerce w2) = Return result.
Proof.
  intros Hn H Hfresh. unfold fetchNHLData in *.
  pose proof (fetchAttempts_network coerce MAX_RETRIES 1 None w1 w2 Hn) as E.
  destruct (fetchAttempts coerce MAX_RETRIES 1 None w1) as [[res1|e1] w1'] eqn:E1;
    destruct (fetchAttempts coerce MAX_RETRIES 1 None w2) as [[res2|e2] w2'] eqn:E2;
    cbn [fst] in E; try discriminate.
  - injection E as <-. exact H.
  - exfalso.
    destruct (loadCachedData_cases coerce w1') as [(p & ts & _ & El) | (_ & m & El)];
      destruct (loadCachedData coerce w1') as [[res|m'] w3]; cbn [fst] in *;
      try discriminate.
    injection El as ->. injection H as <-. discriminate.
Qed.

Lemma fresh_result_network_only_witness :
  fst (fetchNHLData no_coercion
         (online (js_of_response thirtyTwoAtlantic) goodCache
                 (WriteFailsMidway "ENOSPC: no space left on device"))) =
  Return {| Fetched.data := js_of_response thirtyTwoAtlantic;
            Fetched.isStale := false;
            Fetched.cacheTimestamp := JsUndefined |}.
Proof.
  apply (fresh_result_network_only no_coercion
           (online (js_of_response thirtyTwoAtlantic) Absent WriteCompletes)).
  - reflexivity.
  - vm_compute. reflexivity.
  - reflexivity.
Defined.

(** ** The threshold input *)

Lemma dropWhile_all {A : Type} (p : A -> bool) (l : list A) :
  dropWhile p l = [] <-> forallb p l = true.
Proof.
  induction l as [|x l IH]; simpl; [tauto|].
  destruct (p x); simpl; [exact IH|]. split; discriminate.
Qed.

Lemma takeWhile_run {A : Type} (p : A -> bool) (run rest : list A) :
  forallb p run = true -> takeWhile p rest = [] ->
  takeWhile p (run ++ rest) = run.
Proof.
  intros Hr Hrest. induction run as [|x run IH]; simpl in *; [exact Hrest|].
  apply andb_prop in Hr. destruct Hr as [-> Hr]. now rewrite IH.
Qed.

Lemma forallb_rev {A : Type} (p : A -> bool) (l : list A) :
  forallb p (rev l) = forallb p l.
Proof.
  induction l as [|x l IH]; simpl; [reflexivity|].
  rewrite forallb_app, IH. simpl. rewrite andb_true_r. apply andb_comm.
Qed.

Lemma dropWhile_suffix {A : Type} (p : A -> bool) (l : list A) :
  exists front, l = front ++ dropWhile p l /\ forallb p front = true.
Proof.
  induction l as [|x l IH]; simpl; [now exists []|].
  destruct (p x) eqn:E; [|now exists []].
  destruct IH as (front & Hl & Hf). exists (x :: front). simpl.
  rewrite E, Hf. split; [now f_equal|reflexivity].
Qed.

(** The trimmed string is empty exactly when every code unit is white space. *)
Lemma trim_empty (s : CodeUnits) :
  isEmpty (trim s) = forallb isWhiteSpace s.
Proof.
  unfold trim.
  destruct (dropWhile_suffix isWhiteSpace s) as (front & Hs & Hfront).
  set (rest := dropWhile isWhiteSpace s) in *.
  assert (Hall : forallb isWhiteSpace s = forallb isWhiteSpace rest).
  { rewrite Hs at 1. now rewrite forallb_app, Hfront. }
  rewrite Hall.
  destruct (forallb isWhiteSpace rest) eqn:E.
  - rewrite <- forallb_rev in E. apply dropWhile_all in E. now rewrite E.
  - destruct (rev (dropWhile isWhiteSpace (rev rest))) as [|c u] eqn:Er; [|reflexivity].
    apply (f_equal (@rev N)) in Er. rewrite rev_involutive in Er. simpl in Er.
    apply dropWhile_all in Er. rewrite forallb_rev in Er. congruence.
Qed.

Lemma parseInt10_blank (s : CodeUnits) :
  forallb isWhiteSpace s = true -> parseInt10 s = None.
Proof.
  intro H. apply dropWhile_all in H. unfold parseInt10. now rewrite H.
Qed.

(** X29. [validateThreshold] accepts exactly the inputs [parseInt] reads
    as an integer from 80 to 120: the blank check never rejects one of
    them, and a result is valid exactly when it carries no error message. *)
Theorem validateThreshold_valid_iff (value : CodeUnits) :
  (valid (validateThreshold value) = true <->
   exists n, parseInt10 value = Some n /\ (80 <= n <= 120)%Z) /\
  (valid (validateThreshold value) = true <-> error (validateThreshold value) = None).
Proof.
  unfold validateThreshold. rewrite trim_empty.
  destruct (isEmpty value || forallb isWhiteSpace value) eqn:Eb.
  - assert (Hnone : parseInt10 value = None).
    { apply parseInt10_blank. destruct value; [reflexivity|]. exact Eb. }
    cbn [valid error]. split; split; try discriminate.
    intros (n & Hn & _). congruence.
  - destruct (parseInt10 value) as [n|]; cbn [valid error].
    + destruct ((n <? 80)%Z || (n >? 120)%Z) eqn:Er; cbn [valid error].
      * split; split; try discriminate.
        intros (n' & Hn & Hr). injection Hn as <-.
        apply orb_true_iff in Er. destruct Er as [Er | Er]; lia.
      * apply orb_false_iff in Er. destruct Er as [E1 E2].
        split; split; try reflexivity.
        intros _. exists n. split; [reflexivity | lia].
    + split; split; try discriminate. intros (n & Hn & _). discriminate.
Qed.

Lemma thresholds_render_back (n : nat) :
  (80 <= n <= 120)%nat -> rendersBack n = true.
Proof.
  intro Hn.
  assert (H : forallb rendersBack (seq 80 41) = true) by (vm_compute; reflexivity).
  rewrite forallb_forall in H. apply H, in_seq. lia.
Qed.

Lemma digit_not_space (d : N) : isDigit d = true -> isWhiteSpace d = false.
Proof.
  unfold isDigit, isWhiteSpace. intro Hd.
  apply andb_prop in Hd. destruct Hd as [H1 H2]. apply N.leb_le in H1, H2.
  rewrite (proj2 (N.leb_gt d 13)) by lia.
  rewrite (proj2 (N.leb_gt 8192 d)) by lia.
  rewrite !(proj2 (N.eqb_neq d _)) by lia.
  now rewrite andb_false_r.
Qed.

Lemma dropWhile_spaces (ws rest : CodeUnits) (c : N) :
  forallb isWhiteSpace ws = true -> isWhiteSpace c = false ->
  dropWhile isWhiteSpace (ws ++ c :: rest) = c :: rest.
Proof.
  intros Hws Hc. induction ws as [|x ws IH]; simpl in *.
  - now rewrite Hc.
  - apply andb_prop in Hws. destruct Hws as [-> Hws]. now apply IH.
Qed.

(** [parseInt] on white space, an optional plus sign, a run of digits and a
    tail that does not start with a digit. *)
Lemma parseInt10_decorated (ws tail : CodeUnits) (plus : bool) (d : N)
  (digits : CodeUnits) :
  forallb isWhiteSpace ws = true ->
  forallb isDigit (d :: digits) = true ->
  takeWhile isDigit tail = [] ->
  parseInt10 (ws ++ (if plus then [43%N] else []) ++ (d :: digits) ++ tail) =
  Some (mathInt (d :: digits)).
Proof.
  intros Hws Hdigits Htail.
  assert (Hd : isDigit d = true) by (simpl in Hdigits; now apply andb_prop in Hdigits).
  assert (Hrun : takeWhile isDigit ((d :: digits) ++ tail) = d :: digits)
    by now apply takeWhile_run.
  unfold parseInt10. destruct plus; cbn [app].
  - rewrite (dropWhile_spaces ws _ 43%N Hws eq_refl).
    change (d :: digits ++ tail) with ((d :: digits) ++ tail). rewrite Hrun.
    f_equal. apply Z.mul_1_l.
  - rewrite (dropWhile_spaces ws _ d Hws (digit_not_space d Hd)).
    assert (Hsign : d <> 43%N /\ d <> 45%N).
    { unfold isDigit in Hd. apply andb_prop in Hd. destruct Hd as [H1 _].
      apply N.leb_le in H1. lia. }
    destruct Hsign as [H43 H45].
    assert (Hkeep : match d :: digits ++ tail with
                    | 43%N :: rest => rest
                    | 45%N :: rest => rest
                    | _ => d :: digits ++ tail
                    end = d :: digits ++ tail).
    { destruct d as [|p]; [reflexivity|].
      do 6 (destruct p as [p|p|]; try reflexivity);
        exfalso; (apply H43; reflexivity) || (apply H45; reflexivity). }
    assert (Hplus : match d :: digits ++ tail with
                    | 45%N :: _ => (-1)%Z
                    | _ => 1%Z
                    end = 1%Z).
    { destruct d as [|p]; [reflexivity|].
      do 6 (destruct p as [p|p|]; try reflexivity).
      exfalso. apply H45. reflexivity. }
    rewrite Hkeep, Hplus.
    change (d :: digits ++ tail) with ((d :: digits) ++ tail). rewrite Hrun.
    f_equal. apply Z.mul_1_l.
Qed.

(** X30. What [validateThreshold] lets through around the number: for a
    threshold n from 80 to 120, the decimal rendering of n (what
    [handleThresholdChange] saves and [initializePlayoffCalculator] reads
    back) is accepted and parsed back to n, also after leading white space
    and a plus sign and before any text that does not start with a digit. *)
Theorem validateThreshold_lenient (ws tail : CodeUnits) (plus : bool) (n : nat) :
  forallb isWhiteSpace ws = true ->
  (80 <= n <= 120)%nat ->
  takeWhile isDigit tail = [] ->
  let value := ws ++ (if plus then [43%N] else []) ++ Number_toString n ++ tail in
  validateThreshold value = {| valid := true; error := None |} /\
  parseInt10 value = Some (Z.of_nat n).
Proof.
  intros Hws Hn Htail value.
  pose proof (thresholds_render_back n Hn) as Hr. unfold rendersBack in Hr.
  cbv zeta in Hr. apply andb_prop in Hr. destruct Hr as [Hr Hval].
  apply andb_prop in Hr. destruct Hr as [Hne Hdigits].
  apply Z.eqb_eq in Hval.
  assert (Hparse : parseInt10 value = Some (Z.of_nat n)).
  { unfold value. destruct (Number_toString n) as [|d digits]; [discriminate|].
    rewrite <- Hval. now apply parseInt10_decorated. }
  split; [|exact Hparse].
  unfold validateThreshold. rewrite trim_empty, Hparse.
  assert (Hblank : isEmpty value || forallb isWhiteSpace value = false).
  { destruct (isEmpty value || forallb isWhiteSpace value) eqn:E; [|reflexivity].
    assert (Hnone : parseInt10 value = None).
    { apply parseInt10_blank. destruct value; [reflexivity|]. exact E. }
    congruence. }
  rewrite Hblank.
  assert (Hin : ((Z.of_nat n <? 80)%Z || (Z.of_nat n >? 120)%Z) = false).
  { apply orb_false_iff. split; [apply Z.ltb_ge | rewrite Z.gtb_ltb; apply Z.ltb_ge]; lia. }
  now rewrite Hin.
Qed.

Lemma validateThreshold_lenient_witness :
  validateThreshold (code_units "  95.5") = {| valid := true; error := None |} /\
  parseInt10 (code_units "  95.5") = Some 95%Z.
Proof.
  apply (validateThreshold_lenient (code_units "  ") (code_units ".5") false 95);
    [reflexivity | lia | reflexivity].
Defined.
